(** * Voice platform: audio utilities, energy VAD, playback controller,
      TTS text splitting, WebSocket front, telemetry fan-out and the
      speech handler of the pipeline and script sessions.

    A shallow embedding of the Python sources.  Python [int] is [Z],
    [bytes] is [list byte], [str] is a list of code points where the code
    counts characters and a [string] where it is only a key or a name,
    a [float] is a binary64 number of the kernel, a [dict] used as a map
    is a [gmap].  Exceptions are explicit results;
    the world a coroutine acts on (files, processes, back ends) is an
    explicit state or an event trace, and what the environment answers is
    an explicit argument. *)

From Stdlib Require Import ZArith Lia.
From Stdlib Require Import PrimFloat SpecFloat FloatOps.
From Stdlib.Strings Require Import Byte.
From stdpp Require Import base list gmap strings pretty.

Local Open Scope Z_scope.

(** Python exceptions that the modelled code can meet. *)
Inductive exn : Type :=
  | ZeroDivisionError
  | ValueError
  | OSError
  | RuntimeError
  | OverflowError
  | ProviderError.

Inductive result (A : Type) : Type :=
  | Ok (a : A)
  | Raise (e : exn).
Arguments Ok {A} a.
Arguments Raise {A} e.

Definition bytes := list byte.

(** A Python [str]: a sequence of Unicode code points. *)
Definition str := list N.

(** The code points of an ASCII literal. *)
Fixpoint cps (s : string) : str :=
  match s with
  | EmptyString => []
  | String a rest => Ascii.N_of_ascii a :: cps rest
  end.

(** [str(z)] for an [int]: its decimal text. *)
Definition str_of_int (z : Z) : str := cps (pretty z).

(** The interpreter converts between [int] and [str] up to
    [sys.int_info.default_max_str_digits] digits. *)
Definition MAX_STR_DIGITS : Z := 4300.

Definition fits_str_digits (z : Z) : bool := Z.abs z <? 10 ^ MAX_STR_DIGITS.

(** [str(z)] with that limit: a [ValueError] for a longer number. *)
Definition str_of_int_limited (z : Z) : result str :=
  if fits_str_digits z then Ok (str_of_int z) else Raise ValueError.

(** Truth value of a [str] or [bytes] object: non-empty. *)
Definition truthy {A : Type} (l : list A) : bool :=
  match l with [] => false | _ => true end.

(** [needle in hay] for two strings. *)
Fixpoint has_prefix (needle hay : str) : bool :=
  match needle, hay with
  | [], _ => true
  | _ :: _, [] => false
  | a :: needle', b :: hay' => (a =? b)%N && has_prefix needle' hay'
  end.

Fixpoint contains (needle hay : str) : bool :=
  has_prefix needle hay ||
  match hay with
  | [] => false
  | _ :: hay' => contains needle hay'
  end.

(** [str.isspace] on one code point, as [str.strip()] uses it. *)
Definition is_space (c : N) : bool :=
  ((9 <=? c) && (c <=? 13) || (28 <=? c) && (c <=? 32) ||
   (c =? 133) || (c =? 160) || (c =? 5760) ||
   (8192 <=? c) && (c <=? 8202) || (c =? 8232) || (c =? 8233) ||
   (c =? 8239) || (c =? 8287) || (c =? 12288))%N.

Fixpoint lstrip_by (p : N -> bool) (s : str) : str :=
  match s with
  | c :: rest => if p c then lstrip_by p rest else s
  | [] => []
  end.

Definition strip_by (p : N -> bool) (s : str) : str :=
  rev (lstrip_by p (rev (lstrip_by p s))).

(** [s.strip()] *)
Definition strip (s : str) : str := strip_by is_space s.

(** ** core/audio.py *)
Module Audio.

Definition byte_to_Z (b : byte) : Z := Z.of_N (Byte.to_N b).

Definition byte_of_Z (z : Z) : byte :=
  match Byte.of_N (Z.to_N (z mod 256)) with
  | Some b => b
  | None => x00
  end.

(** [struct.unpack('<{n}h', data)]: little-endian signed 16-bit samples.
    A trailing odd byte is dropped, as the slice [data[:n*2]] does. *)
Fixpoint unpack_h (data : bytes) : list Z :=
  match data with
  | lo :: hi :: rest =>
      let u := byte_to_Z lo + 256 * byte_to_Z hi in
      (if 32768 <=? u then u - 65536 else u) :: unpack_h rest
  | _ => []
  end.

(** [struct.pack('<{n}h', *out)] for samples already in range. *)
Fixpoint pack_h (out : list Z) : bytes :=
  match out with
  | [] => []
  | v :: rest => byte_of_Z v :: byte_of_Z (v / 256) :: pack_h rest
  end.

Definition sum_Z (l : list Z) : Z := foldr Z.add 0 l.

(** [sum(s * s for s in samples)] *)
Definition sum_squares (samples : list Z) : Z :=
  sum_Z (map (fun s => s * s) samples).

(** [compute_rms] returns the float [(sum_squares / len) ** 0.5].  The
    callers only ever compare it with a threshold; [rms_exceeds pcm thr]
    is that comparison [compute_rms(pcm) > thr] decided on the exact
    value of the square root (rounding of the float is not modelled). *)
Definition rms_exceeds (pcm_data : bytes) (thr : Z) : bool :=
  if Z.of_nat (length pcm_data) <? 2 then thr <? 0
  else
    let n := Z.of_nat (length pcm_data) / 2 in
    let samples := unpack_h pcm_data in
    (thr <? 0) || (thr * thr * n <? sum_squares samples).

(** Python's [range(start, stop, step)] for a positive step. *)
Definition py_range (start stop step : Z) : list Z :=
  if stop <=? start then []
  else map (fun k => start + Z.of_nat k * step)
           (seq 0 (Z.to_nat ((stop - start + step - 1) / step))).

(** [samples[i:j]] for [0 <= i]. *)
Definition slice (samples : list Z) (i j : Z) : list Z :=
  take (Z.to_nat (j - i)) (drop (Z.to_nat i) samples).

Definition clamp16 (v : Z) : Z := Z.max (-32768) (Z.min 32767 v).

Definition downsample (data : bytes) (from_rate to_rate : Z) : result bytes :=
  if from_rate =? to_rate then Ok data
  else if to_rate =? 0 then Raise ZeroDivisionError
  else
    let ratio := from_rate / to_rate in
    if ratio <? 1 then Ok data
    else
      let n := Z.of_nat (length data) / 2 in
      let samples := unpack_h data in
      let out :=
        map (fun i => clamp16 (sum_Z (slice samples i (i + ratio)) / ratio))
            (py_range 0 (n - ratio + 1) ratio) in
      Ok (pack_h out).

(** A value that fits a signed 16-bit sample. *)
Definition in_range16 (v : Z) : Prop := -32768 <= v <= 32767.

(** The mean [sum(samples[i:i + ratio]) // ratio] the loop of [downsample]
    takes of the group that starts at [i]. *)
Definition group_mean (samples : list Z) (ratio i : Z) : Z :=
  sum_Z (slice samples i (i + ratio)) / ratio.

End Audio.

(** ** core/vad.py *)
Module VAD.

Record config : Type := Config {
  energy_threshold : Z;
  silence_frames : Z;
  min_speech_frames : Z;
  enabled : bool
}.

Record state : Type := State {
  is_speaking : bool;
  speech_count : Z;
  silence_count : Z;
  audio_buffer : bytes
}.

(** What [feed] returns: the event name and, for [speech_end], the audio. *)
Inductive event : Type :=
  | SpeechStart
  | SpeechEnd (audio : bytes)
  | Speaking
  | Silence.

(** [__init__] and [reset] *)
Definition init : state :=
  {| is_speaking := false; speech_count := 0; silence_count := 0;
     audio_buffer := [] |}.

Definition reset (st : state) : state := init.

Definition loud (cfg : config) (pcm_chunk : bytes) : bool :=
  Audio.rms_exceeds pcm_chunk (energy_threshold cfg).

Definition feed (cfg : config) (st : state) (pcm_chunk : bytes)
  : state * event :=
  if loud cfg pcm_chunk then
    let speech_count' := speech_count st + 1 in
    if negb (is_speaking st) && (min_speech_frames cfg <=? speech_count') then
      ({| is_speaking := true; speech_count := speech_count';
          silence_count := 0; audio_buffer := pcm_chunk |}, SpeechStart)
    else if is_speaking st then
      ({| is_speaking := true; speech_count := speech_count';
          silence_count := 0;
          audio_buffer := audio_buffer st ++ pcm_chunk |}, Speaking)
    else
      ({| is_speaking := is_speaking st; speech_count := speech_count';
          silence_count := 0; audio_buffer := audio_buffer st |}, Silence)
  else
    if is_speaking st then
      let silence_count' := silence_count st + 1 in
      let buffer' := audio_buffer st ++ pcm_chunk in
      if silence_frames cfg <=? silence_count' then
        (reset st, SpeechEnd buffer')
      else
        ({| is_speaking := true; speech_count := speech_count st;
            silence_count := silence_count';
            audio_buffer := buffer' |}, Speaking)
    else
      ({| is_speaking := false; speech_count := 0;
          silence_count := silence_count st;
          audio_buffer := audio_buffer st |}, Silence).

Definition check_barge_in (cfg : config) (st : state) (pcm_chunk : bytes)
  : state * bool :=
  if negb (enabled cfg) then (st, false)
  else if loud cfg pcm_chunk then
    let speech_count' := speech_count st + 1 in
    ({| is_speaking := is_speaking st; speech_count := speech_count';
        silence_count := silence_count st;
        audio_buffer := audio_buffer st |},
     min_speech_frames cfg <=? speech_count')
  else
    ({| is_speaking := is_speaking st; speech_count := 0;
        silence_count := silence_count st;
        audio_buffer := audio_buffer st |}, false).

Definition start_listening_after_barge_in (st : state) (pcm_chunk : bytes)
  : state :=
  {| is_speaking := true; speech_count := 0; silence_count := 0;
     audio_buffer := pcm_chunk |}.

(** The detector after a sequence of [feed] calls from its initial state. *)
Definition feed_all (cfg : config) (frames : list bytes) : state :=
  foldl (fun st f => fst (feed cfg st f)) init frames.

(** What the [feed] of frame [f] emits after [pre] has been fed. *)
Definition emits (cfg : config) (pre : list bytes) (f : bytes) : event :=
  snd (feed cfg (feed_all cfg pre) f).

(** The three operations a session performs on its detector. *)
Inductive op : Type :=
  | Feed (pcm_chunk : bytes)
  | CheckBargeIn (pcm_chunk : bytes)
  | StartListening (pcm_chunk : bytes).

Definition exec (cfg : config) (st : state) (o : op) : state * list event :=
  match o with
  | Feed f => let '(st', ev) := feed cfg st f in (st', [ev])
  | CheckBargeIn f => (fst (check_barge_in cfg st f), [])
  | StartListening f => (start_listening_after_barge_in st f, [])
  end.

(** Events emitted by [feed] along a sequence of operations. *)
Fixpoint trace (cfg : config) (st : state) (ops : list op) : list event :=
  match ops with
  | [] => []
  | o :: rest =>
      let '(st', evs) := exec cfg st o in evs ++ trace cfg st' rest
  end.

Definition is_speech_end (ev : event) : bool :=
  match ev with SpeechEnd _ => true | _ => false end.

(** Reading a sequence of events with [open] telling whether the last
    [speech_start] is still waiting for its [speech_end]: [false] as soon
    as a second [speech_start] comes first. *)
Fixpoint bracketed (open : bool) (evs : list event) : bool :=
  match evs with
  | [] => true
  | SpeechStart :: rest => negb open && bracketed true rest
  | SpeechEnd _ :: rest => bracketed false rest
  | _ :: rest => bracketed open rest
  end.

Definition count_loud (cfg : config) (frames : list bytes) : Z :=
  Z.of_nat (length (filter (fun f => loud cfg f = true) frames)).

(** While the detector is speaking, its buffer is the frame that started
    the speech followed by every frame fed since. *)
Definition buffer_inv (cfg : config) (pre : list bytes) (st : state) : Prop :=
  is_speaking st = true ->
  exists pre1 g blk,
    pre = pre1 ++ g :: blk /\
    emits cfg pre1 g = SpeechStart /\
    loud cfg g = true /\
    audio_buffer st = g ++ concat blk.

(** The number of frames at the head of a list for which [p] holds, and
    the same at its end. *)
Fixpoint leading_run (p : bytes -> bool) (frames : list bytes) : nat :=
  match frames with
  | f :: rest => if p f then S (leading_run p rest) else O
  | [] => O
  end.

Definition trailing_run (p : bytes -> bool) (frames : list bytes) : nat :=
  leading_run p (rev frames).

(** The detector after a sequence of [check_barge_in] calls. *)
Definition barge_all (cfg : config) (st : state) (frames : list bytes)
  : state :=
  foldl (fun st f => fst (check_barge_in cfg st f)) st frames.

(** While the detector is speaking: the frames since the one that started
    the speech end with [silence_count] quiet frames after a loud one, and
    the count has not reached [silence_frames]. *)
Definition silence_inv (cfg : config) (pre : list bytes) (st : state)
  : Prop :=
  is_speaking st = true ->
  exists pre1 g mid tail,
    pre = pre1 ++ g :: mid ++ tail /\
    loud cfg g = true /\
    loud cfg (List.last mid g) = true /\
    Forall (fun f => loud cfg f = false) tail /\
    silence_count st = Z.of_nat (length tail) /\
    (silence_count st = 0 \/ silence_count st < silence_frames cfg) /\
    audio_buffer st = g ++ concat mid ++ concat tail.

End VAD.

(** ** core/playback.py *)
Module Playback.

Definition TTS_DIR : str := cps "/tmp/voice_pipeline".

Record fsplayback : Type := FSPlayback {
  uuid : option str;
  call_id : str;
  is_playing : bool;
  is_active : bool;
  file_counter : Z
}.

(** [FSPlayback(uuid, call_id)] *)
Definition init (uuid : option str) (call_id : str) : fsplayback :=
  {| uuid := uuid; call_id := call_id; is_playing := false;
     is_active := true; file_counter := 0 |}.

Definition set_is_playing (b : bool) (p : fsplayback) : fsplayback :=
  {| uuid := uuid p; call_id := call_id p; is_playing := b;
     is_active := is_active p; file_counter := file_counter p |}.

Definition set_is_active (b : bool) (p : fsplayback) : fsplayback :=
  {| uuid := uuid p; call_id := call_id p; is_playing := is_playing p;
     is_active := b; file_counter := file_counter p |}.

Definition set_file_counter (n : Z) (p : fsplayback) : fsplayback :=
  {| uuid := uuid p; call_id := call_id p; is_playing := is_playing p;
     is_active := is_active p; file_counter := n |}.

(** [self.uuid] as a condition: neither [None] nor the empty string. *)
Definition has_uuid (p : fsplayback) : bool :=
  match uuid p with Some u => truthy u | None => false end.

Definition uuid_text (p : fsplayback) : str :=
  match uuid p with Some u => u | None => cps "None" end.

(** What a call does to the outside: each event is an attempted action,
    in program order. *)
Inductive io_event : Type :=
  | SaveWav (path : str) (pcm : bytes) (rate : Z)
  | Exec (cmd : str)
  | Sleep
  | Unlink (path : str)
  | LogError
  | LogInfo.

(** Calls another task of the session makes on the same controller while
    [play_pcm] is suspended: [stop()] (with whether its [fs_cli] process
    ran without raising) and [close()]. *)
Inductive concurrent : Type :=
  | CStop (exec_ok : bool)
  | CClose.

(** What the environment answers to one [play_pcm] call. *)
Record play_env : Type := PlayEnv {
  save_wav_ok : bool;
  broadcast : result str;
  during_broadcast : list concurrent;
  during_sleep : nat -> list concurrent
}.

Definition break_cmd (p : fsplayback) : str :=
  cps "uuid_break " ++ uuid_text p ++ cps " all".

Definition stop (p : fsplayback) (exec_ok : bool)
  : fsplayback * list io_event :=
  if has_uuid p && is_playing p then
    if exec_ok then (set_is_playing false p, [Exec (break_cmd p); LogInfo])
    else (p, [Exec (break_cmd p); LogError])
  else (p, []).

Definition close (p : fsplayback) : fsplayback := set_is_active false p.

Definition interfere_one (p : fsplayback) (c : concurrent)
  : fsplayback * list io_event :=
  match c with
  | CStop ok => stop p ok
  | CClose => (close p, [])
  end.

Fixpoint interfere (p : fsplayback) (cs : list concurrent)
  : fsplayback * list io_event :=
  match cs with
  | [] => (p, [])
  | c :: rest =>
      let '(p1, e1) := interfere_one p c in
      let '(p2, e2) := interfere p1 rest in
      (p2, e1 ++ e2)
  end.

(** The polling loop
    [while elapsed < duration_ms and is_playing and is_active:
       await sleep(0.05); elapsed += 50].
    [tick] numbers the sleeps; [fuel] bounds the iterations. *)
Fixpoint wait_loop (fuel : nat) (env : play_env) (tick : nat)
    (elapsed duration_ms : Z) (p : fsplayback) : fsplayback * list io_event :=
  match fuel with
  | O => (p, [])
  | S fuel' =>
      if (elapsed <? duration_ms) && is_playing p && is_active p then
        let '(p1, e1) := interfere p (during_sleep env tick) in
        let '(p2, e2) :=
          wait_loop fuel' env (S tick) (elapsed + 50) duration_ms p1 in
        (p2, Sleep :: e1 ++ e2)
      else (p, [])
  end.

(** Every iteration adds 50 to [elapsed]: [duration_ms] iterations are
    more than the loop can make. *)
Definition wait_fuel (duration_ms : Z) : nat := S (Z.to_nat duration_ms).

Definition wav_path_of (p : fsplayback) (idx : Z) : str :=
  TTS_DIR ++ cps "/" ++ call_id p ++ cps "_" ++ str_of_int idx ++ cps ".wav".

Definition broadcast_cmd (p : fsplayback) (wav_path : str) : str :=
  cps "uuid_broadcast " ++ uuid_text p ++ cps " " ++ wav_path ++ cps " aleg".

(** The body of [try:] in [play_pcm]: the value returned and the state
    and events at the point where [finally:] takes over. *)
Definition play_try (p : fsplayback) (env : play_env) (wav_path : str)
    (duration_ms : Z) : bool * fsplayback * list io_event :=
  let cmd := Exec (broadcast_cmd p wav_path) in
  let '(p1, e1) := interfere p (during_broadcast env) in
  match broadcast env with
  | Raise _ => (false, p1, cmd :: e1 ++ [LogError])
  | Ok stdout =>
      if negb (contains (cps "+OK") stdout) then
        (false, set_is_playing false p1, cmd :: e1)
      else
        let '(p2, e2) :=
          wait_loop (wait_fuel duration_ms) env 0 0 duration_ms p1 in
        (is_playing p2, p2, cmd :: e1 ++ e2)
  end.

Definition play_pcm (p : fsplayback) (pcm_data : bytes) (sample_rate : Z)
    (env : play_env) : result bool * fsplayback * list io_event :=
  if negb (truthy pcm_data) || negb (has_uuid p) then (Ok false, p, [])
  else
    match (if negb (sample_rate =? 8000)
           then Audio.downsample pcm_data sample_rate 8000
           else Ok pcm_data) with
    | Raise e => (Raise e, p, [])
    | Ok pcm8 =>
        let idx := file_counter p in
        let p1 := set_file_counter (idx + 1) p in
        let wav_path := wav_path_of p idx in
        let saved := SaveWav wav_path pcm8 8000 in
        if negb (save_wav_ok env) then (Raise OSError, p1, [saved])
        else
          let duration_ms := Z.of_nat (length pcm8) / 16 in
          let p2 := set_is_playing true p1 in
          let '(r, p3, evs) := play_try p2 env wav_path duration_ms in
          (Ok r, set_is_playing false p3, saved :: evs ++ [Unlink wav_path])
    end.

(** Calls made one after the other on a controller. *)
Inductive call : Type :=
  | Play (pcm_data : bytes) (sample_rate : Z) (env : play_env)
  | Stop (exec_ok : bool)
  | Close.

Definition do_call (p : fsplayback) (c : call) : fsplayback * list io_event :=
  match c with
  | Play pcm rate env =>
      let '(_, p', evs) := play_pcm p pcm rate env in (p', evs)
  | Stop ok => stop p ok
  | Close => (close p, [])
  end.

Definition run (p : fsplayback) (cs : list call) : fsplayback :=
  foldl (fun q c => fst (do_call q c)) p cs.

Definition is_sleep (e : io_event) : bool :=
  match e with Sleep => true | _ => false end.

Definition is_save (e : io_event) : bool :=
  match e with SaveWav _ _ _ => true | _ => false end.

Definition is_broadcast (e : io_event) : bool :=
  match e with
  | Exec cmd => has_prefix (cps "uuid_broadcast ") cmd
  | _ => false
  end.

(** What a sequence of calls does to the outside, call after call. *)
Fixpoint run_trace (p : fsplayback) (cs : list call) : list io_event :=
  match cs with
  | [] => []
  | c :: rest => let '(p', evs) := do_call p c in evs ++ run_trace p' rest
  end.

(** The scratch files a trace writes, in order. *)
Definition saved_path (e : io_event) : option str :=
  match e with SaveWav path _ _ => Some path | _ => None end.

Definition saved_paths (evs : list io_event) : list str :=
  omap saved_path evs.

(** The scratch files a trace leaves behind: written and not unlinked
    since. *)
Definition leftover (files : gset str) (evs : list io_event) : gset str :=
  foldl (fun fs e => match e with
                     | SaveWav path _ _ => fs ∪ {[path]}
                     | Unlink path => fs ∖ {[path]}
                     | _ => fs
                     end) files evs.

(** Every [save_wav] of the sequence succeeds. *)
Definition saves_succeed (c : call) : Prop :=
  match c with
  | Play _ _ env => save_wav_ok env = true
  | _ => True
  end.

(** Nothing else touches the controller while [play_pcm] runs. *)
Definition undisturbed (env : play_env) : Prop :=
  during_broadcast env = [] /\ forall tick, during_sleep env tick = [].

Definition count_sleeps (evs : list io_event) : nat :=
  length (filter (fun e => is_sleep e = true) evs).

(** What does not change the identity of the controller nor write or
    remove a file. *)
Definition bystander (p p' : fsplayback) (evs : list io_event) : Prop :=
  call_id p' = call_id p /\ uuid p' = uuid p /\
  file_counter p' = file_counter p /\
  saved_paths evs = [] /\ forall fs, leftover fs evs = fs.

End Playback.

(** ** tts/zvukogram.py *)
Module Zvukogram.

(** [char in '.!?։'] *)
Definition is_terminator (c : N) : bool :=
  ((c =? 46) || (c =? 33) || (c =? 63) || (c =? 1417))%N.

(** The first loop of [_split_text]: [(sentences, temp)] after each
    character. *)
Definition scan_char (acc : list str * str) (char : N) : list str * str :=
  let '(sentences, temp) := acc in
  let temp' := temp ++ [char] in
  if is_terminator char && (1 <? Z.of_nat (length temp')) then
    (sentences ++ [strip temp'], [])
  else (sentences, temp').

Definition split_sentences (text : str) : list str :=
  let '(sentences, temp) := foldl scan_char ([], []) text in
  if truthy (strip temp) then sentences ++ [strip temp] else sentences.

(** The second loop: [(chunks, current)] after each sentence. *)
Definition pack_sentence (max_len : Z) (acc : list str * str)
    (sentence : str) : list str * str :=
  let '(chunks, current) := acc in
  if Z.of_nat (length current) + Z.of_nat (length sentence) + 1 <=? max_len
  then
    (chunks,
     if truthy current then strip (current ++ cps " " ++ sentence)
     else sentence)
  else
    (if truthy current then chunks ++ [current] else chunks, sentence).

(** [text[:max_len]] *)
Definition py_prefix (text : str) (max_len : Z) : str :=
  if 0 <=? max_len then take (Z.to_nat max_len) text
  else take (Z.to_nat (Z.of_nat (length text) + max_len)) text.

Definition _split_text (text : str) (max_len : Z) : list str :=
  if Z.of_nat (length text) <=? max_len then [text]
  else
    let sentences := split_sentences text in
    let '(chunks, current) :=
      foldl (pack_sentence max_len) ([], []) sentences in
    let chunks := if truthy current then chunks ++ [current] else chunks in
    match chunks with
    | [] => [py_prefix text max_len]
    | _ => chunks
    end.

Record audio_result : Type := AudioResult {
  audio : bytes;
  sample_rate : Z
}.

(** [synthesize]: [synth_chunk k chunk] is what the [k]-th call of
    [_synthesize_chunk] returns (no bytes on any failure of the service). *)
Definition synthesize (cfg_sample_rate : Z) (synth_chunk : nat -> str -> bytes)
    (text : str) : result audio_result :=
  let chunks := _split_text text 900 in
  let all_pcm :=
    foldl (fun acc kc => let pcm := synth_chunk (fst kc) (snd kc) in
                         if truthy pcm then acc ++ pcm else acc)
          [] (imap (fun k c => (k, c)) chunks) in
  if negb (truthy all_pcm) then Raise RuntimeError
  else Ok {| audio := all_pcm; sample_rate := cfg_sample_rate |}.

(** A chunk within the limit. *)
Definition short (max_len : Z) (s : str) : Prop :=
  Z.of_nat (length s) <= max_len.

End Zvukogram.

(** ** run.py: the message loop of [handle_connection] *)
Module Server.

(** What [json.loads(message)] and the lookup of its [uuid] field come
    to for a text frame. *)
Inductive json_outcome : Type :=
  | DecodeError
  | HasUuid (u : str)
  | LacksUuid
  | OtherFault.

Inductive message : Type :=
  | Binary (payload : bytes)
  | Text (text : str) (parsed : json_outcome).

Inductive effect : Type :=
  | LogUuid (u : str)
  | SpawnStart
  | HandleAudio (payload : bytes)
  | LogFault.

(** [b.decode('ascii')] *)
Definition decode_ascii (b : bytes) : result str :=
  if forallb (fun x => Audio.byte_to_Z x <? 128) b
  then Ok (map Byte.to_N b)
  else Raise ValueError.

Definition has_dash (s : str) : bool := existsb (fun c => (c =? 45)%N) s.

(** One iteration of [async for message in websocket]: the new
    [session.uuid], what the iteration does, and whether the loop goes on
    ([false]: an exception left the loop). *)
Definition on_message (uuid : option str) (m : message)
  : option str * list effect * bool :=
  match m with
  | Binary payload =>
      let audio := (uuid, [HandleAudio payload], true) in
      match uuid with
      | None =>
          if 36 <? Z.of_nat (length payload) then
            match decode_ascii (take 36 payload) with
            | Ok possible_uuid =>
                if has_dash possible_uuid then
                  (Some possible_uuid, [LogUuid possible_uuid; SpawnStart],
                   true)
                else audio
            | Raise _ => audio
            end
          else audio
      | Some _ => audio
      end
  | Text text parsed =>
      match parsed with
      | HasUuid u => (Some u, [LogUuid u; SpawnStart], true)
      | LacksUuid => (uuid, [], true)
      | DecodeError =>
          if has_dash text && (Z.of_nat (length text) <? 50) then
            (Some (strip text), [LogUuid (strip text); SpawnStart], true)
          else (uuid, [], true)
      | OtherFault => (uuid, [LogFault], false)
      end
  end.

Definition is_handle_audio (e : effect) : bool :=
  match e with HandleAudio _ => true | _ => false end.

(** The loop [async for message in websocket] over the frames of a
    connection: the uuid at the end and what was done, in order. *)
Fixpoint serve (uuid : option str) (msgs : list message)
  : option str * list effect :=
  match msgs with
  | [] => (uuid, [])
  | m :: rest =>
      let '(uuid', effs, goes_on) := on_message uuid m in
      if goes_on : bool then
        let '(uuid'', effs') := serve uuid' rest in (uuid'', effs ++ effs')
      else (uuid', effs)
  end.

Definition is_binary (m : message) : Prop :=
  match m with Binary _ => True | Text _ _ => False end.

(** A binary frame too short to carry a uuid in front of audio. *)
Definition is_short_binary (m : message) : Prop :=
  match m with
  | Binary payload => (length payload <= 36)%nat
  | Text _ _ => False
  end.

Definition payload_of (m : message) : bytes :=
  match m with Binary payload => payload | Text _ _ => [] end.

Definition is_start (e : effect) : bool :=
  match e with SpawnStart => true | _ => false end.

Definition count_starts (effs : list effect) : nat :=
  length (List.filter is_start effs).

End Server.

(** ** db/storage.py over db/postgres.py, db/mongo.py, db/redis_client.py *)
Module Storage.

Inductive sink : Type := Relational | Document | Ephemeral.

#[global] Instance sink_eq_dec : EqDecision sink.
Proof. solve_decision. Defined.

(** A Python [float]: an IEEE 754 double. *)
Definition float := PrimFloat.float.

(** [int(x)] for a float: truncation towards zero, a [ValueError] for a
    NaN and an [OverflowError] for an infinity. *)
Definition int_of_float (x : float) : result Z :=
  match Prim2SF x with
  | S754_zero _ => Ok 0
  | S754_finite negative m e =>
      let magnitude :=
        if 0 <=? e then Z.pos m * 2 ^ e else Z.pos m / 2 ^ (- e) in
      Ok (if negative then - magnitude else magnitude)
  | S754_infinity _ => Raise OverflowError
  | S754_nan => Raise ValueError
  end.

(** [int(x * 1000)]: the product is rounded to a double first. *)
Definition int_of_millis (x : float) : result Z :=
  int_of_float (PrimFloat.mul x 1000%float).

(** Values of the documents handed to the back ends. *)
Inductive value : Type :=
  | VStr (s : str)
  | VInt (z : Z)
  | VFloat (x : float)
  | VTime (t : Z).

Definition doc := list (str * value).

(** Requests the relational and the document sink have accepted, oldest
    first; their effect inside the data base is the back end's. *)
Inductive pg_request : Type :=
  | InsertCall (call_id uuid caller : str) (scenario_id : option str)
               (mode robot_name language : str)
  | FinishCall (call_id : str) (duration_sec : float) (turns barge_ins : Z)
               (status : str).

Inductive mongo_request : Type :=
  | CreateTranscription (call_id language : str)
  | AddSegment (call_id : str) (segment : doc)
  | AddPipelineStep (call_id : str) (step : doc)
  | FinishTranscription (call_id : str) (total_duration_ms : Z).

(** The ephemeral store: hashes, lists (of the documents whose JSON text
    is pushed), expiry times and what was published on [call_events]. *)
Record redis_state : Type := Redis {
  hashes : gmap str (gmap str str);
  lists : gmap str (list doc);
  ttl : gmap str Z;
  published : list doc
}.

Record world : Type := World {
  pg : list pg_request;
  mongo : list mongo_request;
  redis : redis_state;
  attempts : sink -> nat;
  errors : list str
}.

Definition empty_redis : redis_state :=
  {| hashes := ∅; lists := ∅; ttl := ∅; published := [] |}.

Definition empty_world : world :=
  {| pg := []; mongo := []; redis := empty_redis;
     attempts := fun _ => O; errors := [] |}.

Definition SESSION_TTL : Z := 1800.

(** A computation on the world that returns or raises. *)
Definition M (A : Type) : Type := world -> result A * world.

Definition ret {A : Type} (a : A) : M A := fun w => (Ok a, w).

Definition bind {A B : Type} (m : M A) (k : A -> M B) : M B :=
  fun w => match m w with
           | (Ok a, w') => k a w'
           | (Raise e, w') => (Raise e, w')
           end.

#[global] Instance M_ret : MRet M := @ret.
#[global] Instance M_bind : MBind M := fun A B k m => bind m k.

Definition raise {A : Type} (e : exn) : M A := fun w => (Raise e, w).

Definition log_error (msg : str) : M unit :=
  fun w => (Ok tt, {| pg := pg w; mongo := mongo w; redis := redis w;
                      attempts := attempts w;
                      errors := errors w ++ [msg] |}).

(** [try: body except Exception as e: logger.error(msg)] *)
Definition try_except (body : M unit) (msg : str) : M unit :=
  fun w => match body w with
           | (Ok _, w') => (Ok tt, w')
           | (Raise _, w') => log_error msg w'
           end.

Definition bump (s : sink) (w : world) : world :=
  {| pg := pg w; mongo := mongo w; redis := redis w;
     attempts := fun s' => if decide (s' = s) then S (attempts w s')
                           else attempts w s';
     errors := errors w |}.

Definition with_pg (f : list pg_request -> list pg_request) (w : world)
  : world :=
  {| pg := f (pg w); mongo := mongo w; redis := redis w;
     attempts := attempts w; errors := errors w |}.

Definition with_mongo (f : list mongo_request -> list mongo_request)
    (w : world) : world :=
  {| pg := pg w; mongo := f (mongo w); redis := redis w;
     attempts := attempts w; errors := errors w |}.

Definition with_redis (f : redis_state -> redis_state) (w : world) : world :=
  {| pg := pg w; mongo := mongo w; redis := f (redis w);
     attempts := attempts w; errors := errors w |}.

(** [int(s)] for a [str]: whitespace around the literal is dropped, a sign
    may lead, single underscores may stand between digits, and a literal
    of more than [MAX_STR_DIGITS] digits is refused; anything that is not
    such a literal is a [ValueError].  The digits read are the ASCII
    ones. *)
Definition digit_of (c : N) : option Z :=
  if ((48 <=? c) && (c <=? 57))%N then Some (Z.of_N c - 48) else None.

Definition is_underscore (c : N) : bool := (c =? 95)%N.

(** The literal without its underscores, if each of them is followed by a
    digit. *)
Fixpoint drop_underscores (s : str) : option str :=
  match s with
  | [] => Some []
  | c :: rest =>
      if is_underscore c then
        match rest with
        | c' :: rest' =>
            match digit_of c' with
            | Some _ => option_map (cons c') (drop_underscores rest')
            | None => None
            end
        | [] => None
        end
      else option_map (cons c) (drop_underscores rest)
  end.

Fixpoint digits_value (acc : Z) (s : str) : option Z :=
  match s with
  | [] => Some acc
  | c :: rest =>
      match digit_of c with
      | Some d => digits_value (10 * acc + d) rest
      | None => None
      end
  end.

Definition int_of_str (s : str) : result Z :=
  let body := strip s in
  let '(neg, literal) :=
    match body with
    | 45%N :: ds => (true, ds)
    | 43%N :: ds => (false, ds)
    | _ => (false, body)
    end in
  match literal with
  | [] => Raise ValueError
  | c :: _ =>
      if is_underscore c then Raise ValueError
      else
        match drop_underscores literal with
        | None => Raise ValueError
        | Some ds =>
            if MAX_STR_DIGITS <? Z.of_nat (length ds) then Raise ValueError
            else
              match digits_value 0 ds with
              | Some v => Ok (if neg : bool then - v else v)
              | None => Raise ValueError
              end
        end
  end.

Section WithFaults.

(** [fails s k]: the [k]-th request ever sent to sink [s] raises. *)
Variable fails : sink -> nat -> bool.

(** One awaited request to a back end: it is counted, then it raises or
    takes effect. *)
Definition request {A : Type} (s : sink) (run : world -> A * world) : M A :=
  fun w =>
    let k := attempts w s in
    let w1 := bump s w in
    if fails s k then (Raise ProviderError, w1)
    else let '(a, w2) := run w1 in (Ok a, w2).

Definition effect (s : sink) (f : world -> world) : M unit :=
  request s (fun w => (tt, f w)).

(** *** PostgresClient *)
Definition insert_call (call_id uuid caller : str) (scenario_id : option str)
    (mode robot_name language : str) : M unit :=
  effect Relational (with_pg (fun l =>
    l ++ [InsertCall call_id uuid caller scenario_id mode robot_name
                     language])).

Definition finish_call (call_id : str) (duration_sec : float)
    (turns barge_ins : Z) (status : str) : M unit :=
  effect Relational (with_pg (fun l =>
    l ++ [FinishCall call_id duration_sec turns barge_ins status])).

(** *** MongoClient *)
Definition create_transcription (call_id language : str) : M unit :=
  effect Document (with_mongo (fun l =>
    l ++ [CreateTranscription call_id language])).

Definition add_segment (call_id : str) (segment : doc) : M unit :=
  effect Document (with_mongo (fun l => l ++ [AddSegment call_id segment])).

Definition add_pipeline_step (call_id : str) (step : doc) : M unit :=
  effect Document (with_mongo (fun l => l ++ [AddPipelineStep call_id step])).

Definition finish_transcription (call_id : str) (total_duration_ms : Z)
  : M unit :=
  effect Document (with_mongo (fun l =>
    l ++ [FinishTranscription call_id total_duration_ms])).

(** *** RedisClient *)
Definition session_key (call_id : str) : str := cps "call:" ++ call_id.
Definition history_key (call_id : str) : str :=
  cps "call:" ++ call_id ++ cps ":history".

(** [HSET key field value ...]: the fields are written over the hash. *)
Definition hset (key : str) (mapping : list (str * str)) (r : redis_state)
  : redis_state :=
  {| hashes :=
       <[key := foldl (fun h kv => <[fst kv := snd kv]> h)
                      (default ∅ (hashes r !! key)) mapping]> (hashes r);
     lists := lists r; ttl := ttl r; published := published r |}.

(** [EXPIRE key seconds]: only an existing key gets a time to live. *)
Definition expire (key : str) (seconds : Z) (r : redis_state) : redis_state :=
  if bool_decide (is_Some (hashes r !! key)) ||
     bool_decide (is_Some (lists r !! key))
  then {| hashes := hashes r; lists := lists r;
          ttl := <[key := seconds]> (ttl r); published := published r |}
  else r.

Definition rpush (key : str) (item : doc) (r : redis_state) : redis_state :=
  {| hashes := hashes r;
     lists := <[key := default [] (lists r !! key) ++ [item]]> (lists r);
     ttl := ttl r; published := published r |}.

Definition publish (payload : doc) (r : redis_state) : redis_state :=
  {| hashes := hashes r; lists := lists r; ttl := ttl r;
     published := published r ++ [payload] |}.

Definition create_session (call_id state mode robot_name language
    scenario_id caller : str) : M unit :=
  let key := session_key call_id in
  let mapping :=
    [ (cps "state", state); (cps "mode", mode);
      (cps "robot_name", robot_name); (cps "language", language);
      (cps "scenario_id", scenario_id); (cps "caller", caller);
      (cps "turns", cps "0"); (cps "barge_ins", cps "0") ] in
  effect Ephemeral (with_redis (hset key mapping)) ;;
  effect Ephemeral (with_redis (expire key SESSION_TTL)).

(** [update_session(call_id, **fields)]; every value goes through [str]. *)
Definition update_session (call_id : str) (fields : list (str * str))
  : M unit :=
  let key := session_key call_id in
  if truthy fields then effect Ephemeral (with_redis (hset key fields))
  else ret tt.

Definition get_session (call_id : str) : M (option (gmap str str)) :=
  let key := session_key call_id in
  request Ephemeral (fun w =>
    let data := default ∅ (hashes (redis w) !! key) in
    (if bool_decide (data = ∅) then None else Some data, w)).

Definition end_session (call_id : str) : M unit :=
  let key := session_key call_id in
  effect Ephemeral (with_redis (hset key [(cps "state", cps "ended")])) ;;
  effect Ephemeral (with_redis (expire key 60)).

Definition push_message (call_id : str) (message : doc) : M unit :=
  let key := history_key call_id in
  effect Ephemeral (with_redis (rpush key message)) ;;
  effect Ephemeral (with_redis (expire key SESSION_TTL)).

Definition publish_event (event_type : str) (data : doc) : M unit :=
  effect Ephemeral (with_redis
    (publish ((cps "type", VStr event_type) :: data))).

(** *** Storage *)
Definition tag (call_id : str) (what : string) : str :=
  cps "[" ++ call_id ++ cps "] " ++ cps what.

Definition on_call_start (call_id uuid caller mode robot_name language
    scenario_id : str) : M unit :=
  try_except
    (insert_call call_id uuid caller
       (if truthy scenario_id then Some scenario_id else None)
       mode robot_name language)
    (tag call_id "PG insert_call") ;;
  try_except
    (create_transcription call_id language)
    (tag call_id "Mongo create_transcription") ;;
  try_except
    (create_session call_id (cps "active") mode robot_name language
       scenario_id caller ;;
     publish_event (cps "call_started")
       [ (cps "call_id", VStr call_id); (cps "caller", VStr caller);
         (cps "mode", VStr mode); (cps "robot_name", VStr robot_name) ])
    (tag call_id "Redis create_session").

Definition on_user_speech (now : Z) (call_id text : str) (confidence : float)
    (asr_provider : str) (asr_latency_ms : Z) : M unit :=
  let segment :=
    [ (cps "role", VStr (cps "user")); (cps "text", VStr text);
      (cps "confidence", VFloat confidence);
      (cps "asr_provider", VStr asr_provider);
      (cps "asr_latency_ms", VInt asr_latency_ms);
      (cps "timestamp", VTime now) ] in
  let step :=
    [ (cps "step", VStr (cps "asr")); (cps "duration_ms", VInt asr_latency_ms);
      (cps "provider", VStr asr_provider);
      (cps "result", VStr (if truthy text then cps "ok" else cps "empty")) ] in
  try_except
    (add_segment call_id segment ;; add_pipeline_step call_id step)
    (tag call_id "Mongo user_speech") ;;
  try_except
    (push_message call_id
       [ (cps "role", VStr (cps "user")); (cps "text", VStr text) ] ;;
     update_session call_id
       [ (cps "turns", str_of_int asr_latency_ms) ])
    (tag call_id "Redis push_message").

Definition on_bot_response (now : Z) (call_id text llm_provider : str)
    (llm_latency_ms : Z) (tts_provider : str) (tts_latency_ms : Z) : M unit :=
  let segment :=
    [ (cps "role", VStr (cps "assistant")); (cps "text", VStr text);
      (cps "llm_provider", VStr llm_provider);
      (cps "llm_latency_ms", VInt llm_latency_ms);
      (cps "tts_provider", VStr tts_provider);
      (cps "tts_latency_ms", VInt tts_latency_ms);
      (cps "timestamp", VTime now) ] in
  try_except
    (add_segment call_id segment ;;
     add_pipeline_step call_id
       [ (cps "step", VStr (cps "llm")); (cps "duration_ms", VInt llm_latency_ms);
         (cps "provider", VStr llm_provider);
         (cps "result", VStr (cps "ok")) ] ;;
     if truthy tts_provider then
       add_pipeline_step call_id
         [ (cps "step", VStr (cps "tts"));
           (cps "duration_ms", VInt tts_latency_ms);
           (cps "provider", VStr tts_provider);
           (cps "result", VStr (cps "ok")) ]
     else ret tt)
    (tag call_id "Mongo bot_response") ;;
  try_except
    (push_message call_id
       [ (cps "role", VStr (cps "assistant")); (cps "text", VStr text) ])
    (tag call_id "Redis push_message").

Definition on_barge_in (call_id : str) : M unit :=
  try_except
    (add_pipeline_step call_id
       [ (cps "step", VStr (cps "barge_in")); (cps "duration_ms", VInt 0);
         (cps "provider", VStr (cps "vad"));
         (cps "result", VStr (cps "interrupted")) ])
    (tag call_id "Mongo barge_in") ;;
  try_except
    (session ← get_session call_id;
     match session with
     | Some fields =>
         match int_of_str (default (cps "0") (fields !! cps "barge_ins")) with
         | Ok n =>
             match str_of_int_limited (n + 1) with
             | Ok count => update_session call_id [ (cps "barge_ins", count) ]
             | Raise e => raise e
             end
         | Raise e => raise e
         end
     | None => ret tt
     end)
    (tag call_id "Redis barge_in").

Definition on_call_end (call_id : str) (duration_sec : float)
    (turns barge_ins : Z) (status : str) : M unit :=
  try_except
    (finish_call call_id duration_sec turns barge_ins status)
    (tag call_id "PG finish_call") ;;
  try_except
    (match int_of_millis duration_sec with
     | Ok total_duration_ms => finish_transcription call_id total_duration_ms
     | Raise e => raise e
     end)
    (tag call_id "Mongo finish_transcription") ;;
  try_except
    (end_session call_id ;;
     publish_event (cps "call_ended")
       [ (cps "call_id", VStr call_id);
         (cps "duration_sec", VFloat duration_sec);
         (cps "turns", VInt turns); (cps "status", VStr status) ])
    (tag call_id "Redis end_session").

(** The five operations of the recorder, as values. *)
Inductive operation : Type :=
  | OnCallStart (call_id uuid caller mode robot_name language
                 scenario_id : str)
  | OnUserSpeech (now : Z) (call_id text : str) (confidence : float)
                 (asr_provider : str) (asr_latency_ms : Z)
  | OnBotResponse (now : Z) (call_id text llm_provider : str)
                  (llm_latency_ms : Z) (tts_provider : str)
                  (tts_latency_ms : Z)
  | OnBargeIn (call_id : str)
  | OnCallEnd (call_id : str) (duration_sec : float) (turns barge_ins : Z)
              (status : str).

Definition perform (o : operation) : M unit :=
  match o with
  | OnCallStart c u ca m r l sc => on_call_start c u ca m r l sc
  | OnUserSpeech now c t conf p ms => on_user_speech now c t conf p ms
  | OnBotResponse now c t lp lms tp tms => on_bot_response now c t lp lms tp tms
  | OnBargeIn c => on_barge_in c
  | OnCallEnd c d t b st => on_call_end c d t b st
  end.

(** [get_history]: the whole list, oldest first. *)
Definition get_history (call_id : str) : M (list doc) :=
  let key := history_key call_id in
  request Ephemeral (fun w => (default [] (lists (redis w) !! key), w)).

End WithFaults.

(** *** The writes of an operation, sink by sink

    What an operation is to send to the relational and to the document
    sink, and what it is to do to the ephemeral store: the writes it
    performs in a sink that answers, to be compared with what [perform]
    leaves there when the other sinks fail. *)
Definition relational_writes (o : operation) : list pg_request :=
  match o with
  | OnCallStart call_id uuid caller mode robot_name language scenario_id =>
      [InsertCall call_id uuid caller
         (if truthy scenario_id then Some scenario_id else None)
         mode robot_name language]
  | OnCallEnd call_id duration_sec turns barge_ins status =>
      [FinishCall call_id duration_sec turns barge_ins status]
  | OnUserSpeech _ _ _ _ _ _ | OnBotResponse _ _ _ _ _ _ _ | OnBargeIn _ => []
  end.

Definition document_writes (o : operation) : list mongo_request :=
  match o with
  | OnCallStart call_id _ _ _ _ language _ =>
      [CreateTranscription call_id language]
  | OnUserSpeech now call_id text confidence asr_provider asr_latency_ms =>
      [AddSegment call_id
         [ (cps "role", VStr (cps "user")); (cps "text", VStr text);
           (cps "confidence", VFloat confidence);
           (cps "asr_provider", VStr asr_provider);
           (cps "asr_latency_ms", VInt asr_latency_ms);
           (cps "timestamp", VTime now) ];
       AddPipelineStep call_id
         [ (cps "step", VStr (cps "asr"));
           (cps "duration_ms", VInt asr_latency_ms);
           (cps "provider", VStr asr_provider);
           (cps "result",
            VStr (if truthy text then cps "ok" else cps "empty")) ]]
  | OnBotResponse now call_id text llm_provider llm_latency_ms tts_provider
                  tts_latency_ms =>
      [AddSegment call_id
         [ (cps "role", VStr (cps "assistant")); (cps "text", VStr text);
           (cps "llm_provider", VStr llm_provider);
           (cps "llm_latency_ms", VInt llm_latency_ms);
           (cps "tts_provider", VStr tts_provider);
           (cps "tts_latency_ms", VInt tts_latency_ms);
           (cps "timestamp", VTime now) ];
       AddPipelineStep call_id
         [ (cps "step", VStr (cps "llm"));
           (cps "duration_ms", VInt llm_latency_ms);
           (cps "provider", VStr llm_provider);
           (cps "result", VStr (cps "ok")) ]] ++
      (if truthy tts_provider then
         [AddPipelineStep call_id
            [ (cps "step", VStr (cps "tts"));
              (cps "duration_ms", VInt tts_latency_ms);
              (cps "provider", VStr tts_provider);
              (cps "result", VStr (cps "ok")) ]]
       else [])
  | OnBargeIn call_id =>
      [AddPipelineStep call_id
         [ (cps "step", VStr (cps "barge_in")); (cps "duration_ms", VInt 0);
           (cps "provider", VStr (cps "vad"));
           (cps "result", VStr (cps "interrupted")) ]]
  | OnCallEnd call_id duration_sec _ _ _ =>
      match int_of_millis duration_sec with
      | Ok total_duration_ms =>
          [FinishTranscription call_id total_duration_ms]
      | Raise _ => []
      end
  end.

Definition ephemeral_writes (o : operation) (r : redis_state) : redis_state :=
  match o with
  | OnCallStart call_id _ caller mode robot_name language scenario_id =>
      publish
        [ (cps "type", VStr (cps "call_started"));
          (cps "call_id", VStr call_id); (cps "caller", VStr caller);
          (cps "mode", VStr mode); (cps "robot_name", VStr robot_name) ]
        (expire (session_key call_id) SESSION_TTL
           (hset (session_key call_id)
              [ (cps "state", cps "active"); (cps "mode", mode);
                (cps "robot_name", robot_name); (cps "language", language);
                (cps "scenario_id", scenario_id); (cps "caller", caller);
                (cps "turns", cps "0"); (cps "barge_ins", cps "0") ] r))
  | OnUserSpeech _ call_id text _ _ asr_latency_ms =>
      hset (session_key call_id) [ (cps "turns", str_of_int asr_latency_ms) ]
        (expire (history_key call_id) SESSION_TTL
           (rpush (history_key call_id)
              [ (cps "role", VStr (cps "user")); (cps "text", VStr text) ]
              r))
  | OnBotResponse _ call_id text _ _ _ _ =>
      expire (history_key call_id) SESSION_TTL
        (rpush (history_key call_id)
           [ (cps "role", VStr (cps "assistant")); (cps "text", VStr text) ]
           r)
  | OnBargeIn call_id =>
      let session := default ∅ (hashes r !! session_key call_id) in
      if bool_decide (session = ∅) then r
      else
        match int_of_str (default (cps "0") (session !! cps "barge_ins")) with
        | Ok n =>
            match str_of_int_limited (n + 1) with
            | Ok count => hset (session_key call_id) [(cps "barge_ins", count)] r
            | Raise _ => r
            end
        | Raise _ => r
        end
  | OnCallEnd call_id duration_sec turns _ status =>
      publish
        [ (cps "type", VStr (cps "call_ended"));
          (cps "call_id", VStr call_id);
          (cps "duration_sec", VFloat duration_sec);
          (cps "turns", VInt turns); (cps "status", VStr status) ]
        (expire (session_key call_id) 60
           (hset (session_key call_id) [(cps "state", cps "ended")] r))
  end.

(** No request raises. *)
Definition no_faults : sink -> nat -> bool := fun _ _ => false.

(** What one sink holds. *)
Definition same_sink (s : sink) (w1 w2 : world) : Prop :=
  match s with
  | Relational => pg w1 = pg w2
  | Document => mongo w1 = mongo w2
  | Ephemeral => redis w1 = redis w2
  end.

(** Two worlds that a sink cannot tell apart: it holds the same and has
    been sent as many requests. *)
Definition agree (s : sink) (w1 w2 : world) : Prop :=
  same_sink s w1 w2 /\ attempts w1 s = attempts w2 s.

(** A computation that leaves a sink alone. *)
Definition frame {A : Type} (s : sink) (m : M A) : Prop :=
  forall w, agree s (snd (m w)) w.

(** Two outcomes with the same result that a sink cannot tell apart. *)
Definition sim {A : Type} (s : sink) (x y : result A * world) : Prop :=
  fst x = fst y /\ agree s (snd x) (snd y).

(** A field of the session hash of a call. *)
Definition session_field (w : world) (call_id field : str) : option str :=
  hashes (redis w) !! session_key call_id ≫= fun h => h !! field.

(** The dialog history kept for a call. *)
Definition history (w : world) (call_id : str) : list doc :=
  default [] (lists (redis w) !! history_key call_id).

(** The operations between the start and the end of a call. *)
Definition is_conversation (o : operation) : bool :=
  match o with
  | OnUserSpeech _ _ _ _ _ _ | OnBotResponse _ _ _ _ _ _ _ | OnBargeIn _ =>
      true
  | OnCallStart _ _ _ _ _ _ _ | OnCallEnd _ _ _ _ _ => false
  end.

End Storage.

(** ** core/sessions: [_process_speech] of the pipeline and script variants *)
Module Sessions.

Inductive role : Type := System | User | Assistant.

#[global] Instance role_eq_dec : EqDecision role.
Proof. solve_decision. Defined.

Record turn_metric : Type := TurnMetric {
  turn : Z;
  asr_ms : Z;
  text : str
}.

(** The fields of a session that [_process_speech] reads or writes. *)
Record session : Type := Session {
  is_active : bool;
  barge_in_triggered : bool;
  messages : list (role * str);
  transcript : list str;
  turn_metrics : list turn_metric;
  total_turns : Z;
  barge_in_count : Z;
  has_storage : bool
}.

(** What the handler asks of its collaborators, in program order.  The
    telemetry calls are the tasks it spawns. *)
Inductive action : Type :=
  | Recognize (audio_data : bytes)
  | LogError
  | LogWarning
  | LogInfo
  | TelemetryUserSpeech (text : str) (asr_latency_ms : Z)
  | ChatStream (context : list (role * str))
  | Chat (context : list (role * str))
  | Synthesize (sentence : str)
  | PlayPcm (pcm : bytes) (rate : Z)
  | TelemetryBotResponse (text : str) (llm_latency_ms : Z).

(** What another task of the same session does while the handler is
    suspended in an [await]: nothing, a barge-in seen by [handle_audio],
    or [stop()]. *)
Inductive disturbance : Type := Quiet | BargeIn | Stopped.

Definition disturb (d : disturbance) (s : session) : session :=
  match d with
  | Quiet => s
  | BargeIn =>
      {| is_active := is_active s; barge_in_triggered := true;
         messages := messages s; transcript := transcript s;
         turn_metrics := turn_metrics s; total_turns := total_turns s;
         barge_in_count := barge_in_count s + 1;
         has_storage := has_storage s |}
  | Stopped =>
      {| is_active := false; barge_in_triggered := barge_in_triggered s;
         messages := messages s; transcript := transcript s;
         turn_metrics := turn_metrics s; total_turns := total_turns s;
         barge_in_count := barge_in_count s;
         has_storage := has_storage s |}
  end.

(** The answer of [asr_engine.recognize]: the [text] field of the reply
    (empty when absent) or an exception, the measured latency, and what
    happened meanwhile. *)
Record asr_reply : Type := AsrReply {
  recognized : result str;
  measured_ms : Z;
  during_asr : disturbance
}.

Definition client_prefix : str := 129489%N :: cps "Client: ".
Definition bot_prefix : str := 129302%N :: cps "Bot: ".

(** [self.total_turns += 1; self.barge_in_triggered = False] *)
Definition begin_turn (s : session) : session :=
  {| is_active := is_active s; barge_in_triggered := false;
     messages := messages s; transcript := transcript s;
     turn_metrics := turn_metrics s; total_turns := total_turns s + 1;
     barge_in_count := barge_in_count s; has_storage := has_storage s |}.

Definition record_user (txt : str) (ms : Z) (s : session) : session :=
  {| is_active := is_active s; barge_in_triggered := barge_in_triggered s;
     messages := messages s ++ [(User, txt)];
     transcript := transcript s ++ [client_prefix ++ txt];
     turn_metrics := turn_metrics s ++
       [{| turn := total_turns s; asr_ms := ms; text := txt |}];
     total_turns := total_turns s;
     barge_in_count := barge_in_count s; has_storage := has_storage s |}.

Definition add_message (r : role) (txt : str) (s : session) : session :=
  {| is_active := is_active s; barge_in_triggered := barge_in_triggered s;
     messages := messages s ++ [(r, txt)];
     transcript := transcript s; turn_metrics := turn_metrics s;
     total_turns := total_turns s;
     barge_in_count := barge_in_count s; has_storage := has_storage s |}.

Definition add_transcript (line : str) (s : session) : session :=
  {| is_active := is_active s; barge_in_triggered := barge_in_triggered s;
     messages := messages s; transcript := transcript s ++ [line];
     turn_metrics := turn_metrics s; total_turns := total_turns s;
     barge_in_count := barge_in_count s; has_storage := has_storage s |}.

(** The ASR stage, the same text in both variants (up to the telemetry
    task for the user's line): [None] when the handler has returned. *)
Definition asr_stage (s : session) (audio_data : bytes) (a : asr_reply)
  : session * list action * option str :=
  let s1 := disturb (during_asr a) (begin_turn s) in
  match recognized a with
  | Raise _ => (s1, [Recognize audio_data; LogError], None)
  | Ok txt =>
      if negb (truthy txt) then
        (s1, [Recognize audio_data; LogWarning], None)
      else
        let s2 := record_user txt (measured_ms a) s1 in
        (s2,
         [Recognize audio_data; LogInfo] ++
         (if has_storage s2 then [TelemetryUserSpeech txt (measured_ms a)]
          else []),
         Some txt)
  end.

(** *** session_pipeline.py *)

(** One sentence of [llm_engine.chat_stream_sentences] with what follows
    it: the TTS answer ([audio], [sample_rate]) or its exception, whether
    [play_pcm] raised, and what other tasks did during the three awaits. *)
Record sentence_reply : Type := SentenceReply {
  sentence : str;
  during_llm : disturbance;
  tts : result (bytes * Z);
  during_tts : disturbance;
  play_raises : bool;
  during_play : disturbance
}.

Record pipeline_env : Type := PipelineEnv {
  asr : asr_reply;
  stream : list sentence_reply;
  stream_error : option exn;
  llm_total_ms : Z
}.

(** The body of [async for sentence in ...]: the session, the actions,
    [full_response], and whether the stream was read to its end.
    [first_audio] tells whether [first_audio_ms] has been set: the first
    synthesis that returns is logged once more. *)
Fixpoint reply_loop_from (first_audio : bool) (items : list sentence_reply)
    (s : session) (full_response : str)
  : session * list action * str * bool :=
  match items with
  | [] => (s, [], full_response, true)
  | item :: rest =>
      let s1 := disturb (during_llm item) s in
      if negb (is_active s1) || barge_in_triggered s1 then
        (s1, [LogInfo], full_response, false)
      else
        let full_response' :=
          full_response ++
          (if truthy full_response then cps " " else []) ++ sentence item in
        let s2 := disturb (during_tts item) s1 in
        let '(s3, acts, first_audio') :=
          match tts item with
          | Raise _ =>
              (s2, [Synthesize (sentence item); LogError], first_audio)
          | Ok (audio, rate) =>
              let logged :=
                [Synthesize (sentence item); LogInfo] ++
                (if first_audio then [] else [LogInfo]) in
              if truthy audio && is_active s2 && negb (barge_in_triggered s2)
              then
                (disturb (during_play item) s2,
                 logged ++ [PlayPcm audio rate] ++
                 (if play_raises item then [LogError] else []),
                 true)
              else (s2, logged, true)
          end in
        let '(s4, acts', full, finished) :=
          reply_loop_from first_audio' rest s3 full_response' in
        (s4, LogInfo :: acts ++ acts', full, finished)
  end.

(** The loop as [_process_speech] enters it: [first_audio_ms] is [None]. *)
Definition reply_loop (items : list sentence_reply) (s : session)
    (full_response : str) : session * list action * str * bool :=
  reply_loop_from false items s full_response.

Definition pipeline_process_speech (s : session) (audio_data : bytes)
    (env : pipeline_env) : session * list action :=
  match asr_stage s audio_data (asr env) with
  | (s1, acts, None) => (s1, acts)
  | (s1, acts, Some _) =>
      let '(s2, acts2, full_response, finished) :=
        reply_loop (stream env) s1 [] in
      let acts := acts ++ [ChatStream (messages s1)] ++ acts2 in
      match (if finished then stream_error env else None) with
      | Some _ => (s2, acts ++ [LogError])
      | None =>
          if truthy (strip full_response) then
            let s3 :=
              add_transcript (bot_prefix ++ strip full_response)
                (add_message Assistant (strip full_response) s2) in
            (s3,
             acts ++
             (if has_storage s3
              then [TelemetryBotResponse (strip full_response)
                                         (llm_total_ms env)]
              else []) ++ [LogInfo])
          else (s2, acts ++ [LogInfo])
      end
  end.

(** *** session_llm_script.py *)

Record script_env : Type := ScriptEnv {
  script_asr : asr_reply;
  chat : result str;
  llm_ms : Z;
  during_chat : disturbance;
  script_play_raises : bool
}.

Definition is_dquote (c : N) : bool := (c =? 34)%N.
Definition is_squote (c : N) : bool := (c =? 39)%N.

(** [raw_answer.strip()], then the double quotes, then the single quotes
    stripped from both ends, then [strip()] again. *)
Definition clean_answer (raw_answer : str) : str :=
  strip (strip_by is_squote (strip_by is_dquote (strip raw_answer))).

Definition script_process_speech (tracks : gmap str (bytes * Z))
    (s : session) (audio_data : bytes) (env : script_env)
  : result unit * session * list action :=
  match asr_stage s audio_data (script_asr env) with
  | (s1, acts, None) => (Ok tt, s1, acts)
  | (s1, acts, Some _) =>
      let acts := acts ++ [Chat (messages s1)] in
      let s2 := disturb (during_chat env) s1 in
      match chat env with
      | Raise _ => (Ok tt, s2, acts ++ [LogError])
      | Ok raw_answer =>
          let chosen_file := clean_answer raw_answer in
          let s3 := add_message Assistant chosen_file s2 in
          let acts :=
            acts ++ [LogInfo] ++
            (if has_storage s3
             then [TelemetryBotResponse chosen_file (llm_ms env)] else []) in
          match tracks !! chosen_file with
          | Some (pcm, rate) =>
              let s4 :=
                add_transcript
                  (bot_prefix ++ cps "[" ++ chosen_file ++ cps "]") s3 in
              if is_active s4 && negb (barge_in_triggered s4) then
                if script_play_raises env
                then (Raise OSError, s4, acts ++ [LogInfo; PlayPcm pcm rate])
                else (Ok tt, s4, acts ++ [LogInfo; PlayPcm pcm rate; LogInfo])
              else (Ok tt, s4, acts ++ [LogInfo; LogInfo])
          | None =>
              let s4 :=
                add_transcript
                  (bot_prefix ++ cps "[unknown: " ++ chosen_file ++ cps "]")
                  s3 in
              (Ok tt, s4, acts ++ [LogWarning; LogInfo])
          end
      end
  end.

Definition is_play (a : action) : bool :=
  match a with PlayPcm _ _ => true | _ => false end.

(** The session has been stopped or interrupted: what the reply loop
    tests before it takes a sentence. *)
Definition flagged (s : session) : bool :=
  negb (is_active s) || barge_in_triggered s.

(** Nothing happens in the other tasks while a sentence is handled. *)
Definition quiet (item : sentence_reply) : Prop :=
  during_llm item = Quiet /\ during_tts item = Quiet /\
  during_play item = Quiet.

(** The audio the TTS engine returned for the sentences, where it
    returned any. *)
Definition plays_of (items : list sentence_reply) : list action :=
  flat_map (fun item =>
              match tts item with
              | Ok (audio, rate) =>
                  if truthy audio then [PlayPcm audio rate] else []
              | Raise _ => []
              end) items.

End Sessions.

(** ** Text without its whitespace *)

(** The characters of a string that are not whitespace, in order. *)
Definition without_spaces (s : str) : str :=
  List.filter (fun c => negb (is_space c)) s.

(** A string that does not begin with a character for which [p] holds. *)
Definition no_lead (p : N -> bool) (s : str) : Prop :=
  match s with
  | c :: _ => p c = false
  | [] => True
  end.

(** ** llm/yandex.py: the replies of the chat completion stream *)
Module LLM.

(** One line of the response body as the loop reads it: a [data:] line
    whose JSON carries a content delta (empty when the field is absent),
    the [[DONE]] marker, a line that is skipped (no [data:] prefix, or
    JSON that does not parse or lacks [choices]), or a line on which
    another exception is raised. *)
Inductive sse_line : Type :=
  | Content (delta : str)
  | Done
  | Skipped
  | Fault (e : exn).

(** [ch in '.!?։:;'] *)
Definition is_ender (c : N) : bool :=
  ((c =? 46) || (c =? 33) || (c =? 63) || (c =? 1417) || (c =? 58) ||
   (c =? 59))%N.

(** [chat]: the deltas up to [[DONE]] joined and stripped. *)
Fixpoint chat_loop (lines : list sse_line) (full_response : str)
  : result str :=
  match lines with
  | [] => Ok full_response
  | Content delta :: rest =>
      chat_loop rest (if truthy delta then full_response ++ delta
                      else full_response)
  | Done :: _ => Ok full_response
  | Skipped :: rest => chat_loop rest full_response
  | Fault e :: _ => Raise e
  end.

Definition chat (status : Z) (lines : list sse_line) : result str :=
  if negb (status =? 200) then Raise RuntimeError
  else match chat_loop lines [] with
       | Ok full_response => Ok (strip full_response)
       | Raise e => Raise e
       end.

(** The index of the first sentence ender of [buffer] past index 5, the
    scan being at index [i]. *)
Fixpoint find_ender (i : nat) (buffer : str) : option nat :=
  match buffer with
  | [] => None
  | ch :: rest =>
      if is_ender ch && (5 <? i)%nat then Some i
      else find_ender (S i) rest
  end.

(** The [for i, ch in enumerate(buffer)] loop: the sentence it yields, if
    any, and the buffer it leaves. *)
Definition cut_sentence (buffer : str) : list str * str :=
  match find_ender 0 buffer with
  | Some i =>
      let sentence := strip (take (S i) buffer) in
      (if truthy sentence then [sentence] else [], strip (drop (S i) buffer))
  | None => ([], buffer)
  end.

(** [chat_stream_sentences] from the first line on: what it yields, and
    the exception that ends it if one does. *)
Fixpoint stream_loop (lines : list sse_line) (buffer : str)
  : list str * option exn :=
  let rest_of buffer :=
    (if truthy (strip buffer) then [strip buffer] else [], None) in
  match lines with
  | [] => rest_of buffer
  | Done :: _ => rest_of buffer
  | Skipped :: rest => stream_loop rest buffer
  | Fault e :: _ => ([], Some e)
  | Content delta :: rest =>
      if truthy delta then
        let '(now, buffer') := cut_sentence (buffer ++ delta) in
        let '(later, err) := stream_loop rest buffer' in
        (now ++ later, err)
      else stream_loop rest buffer
  end.

Definition chat_stream_sentences (status : Z) (lines : list sse_line)
  : list str * option exn :=
  if negb (status =? 200) then ([], Some RuntimeError)
  else stream_loop lines [].

(** The content deltas the loops read: those before [[DONE]]. *)
Fixpoint contents (lines : list sse_line) : list str :=
  match lines with
  | Content delta :: rest => delta :: contents rest
  | Skipped :: rest => contents rest
  | _ => []
  end.

(** No line raises before the stream is done. *)
Fixpoint faultless (lines : list sse_line) : bool :=
  match lines with
  | Content _ :: rest | Skipped :: rest => faultless rest
  | Fault _ :: _ => false
  | _ => true
  end.

End LLM.

(** ** core/sessions/session_realtime.py: the loop over the events of the
       realtime API *)
Module Realtime.

Record session : Type := Session {
  uuid : option str;
  call_id : str;
  is_active : bool;
  is_playing : bool;
  response_audio : bytes;
  last_response_text : str;
  transcript : list str;
  total_turns : Z;
  barge_in_count : Z;
  file_counter : Z;
  temp_files : list str;
  has_storage : bool
}.

Definition set_is_active (b : bool) (s : session) : session :=
  {| uuid := uuid s; call_id := call_id s; is_active := b;
     is_playing := is_playing s; response_audio := response_audio s;
     last_response_text := last_response_text s;
     transcript := transcript s; total_turns := total_turns s;
     barge_in_count := barge_in_count s; file_counter := file_counter s;
     temp_files := temp_files s; has_storage := has_storage s |}.

Definition set_is_playing (b : bool) (s : session) : session :=
  {| uuid := uuid s; call_id := call_id s; is_active := is_active s;
     is_playing := b; response_audio := response_audio s;
     last_response_text := last_response_text s;
     transcript := transcript s; total_turns := total_turns s;
     barge_in_count := barge_in_count s; file_counter := file_counter s;
     temp_files := temp_files s; has_storage := has_storage s |}.

Definition set_response_audio (b : bytes) (s : session) : session :=
  {| uuid := uuid s; call_id := call_id s; is_active := is_active s;
     is_playing := is_playing s; response_audio := b;
     last_response_text := last_response_text s;
     transcript := transcript s; total_turns := total_turns s;
     barge_in_count := barge_in_count s; file_counter := file_counter s;
     temp_files := temp_files s; has_storage := has_storage s |}.

Definition set_last_response_text (t : str) (s : session) : session :=
  {| uuid := uuid s; call_id := call_id s; is_active := is_active s;
     is_playing := is_playing s; response_audio := response_audio s;
     last_response_text := t;
     transcript := transcript s; total_turns := total_turns s;
     barge_in_count := barge_in_count s; file_counter := file_counter s;
     temp_files := temp_files s; has_storage := has_storage s |}.

Definition add_transcript (line : str) (s : session) : session :=
  {| uuid := uuid s; call_id := call_id s; is_active := is_active s;
     is_playing := is_playing s; response_audio := response_audio s;
     last_response_text := last_response_text s;
     transcript := transcript s ++ [line]; total_turns := total_turns s;
     barge_in_count := barge_in_count s; file_counter := file_counter s;
     temp_files := temp_files s; has_storage := has_storage s |}.

Definition count_turn (s : session) : session :=
  {| uuid := uuid s; call_id := call_id s; is_active := is_active s;
     is_playing := is_playing s; response_audio := response_audio s;
     last_response_text := last_response_text s;
     transcript := transcript s; total_turns := total_turns s + 1;
     barge_in_count := barge_in_count s; file_counter := file_counter s;
     temp_files := temp_files s; has_storage := has_storage s |}.

Definition count_barge_in (s : session) : session :=
  {| uuid := uuid s; call_id := call_id s; is_active := is_active s;
     is_playing := is_playing s; response_audio := response_audio s;
     last_response_text := last_response_text s;
     transcript := transcript s; total_turns := total_turns s;
     barge_in_count := barge_in_count s + 1; file_counter := file_counter s;
     temp_files := temp_files s; has_storage := has_storage s |}.

(** [idx = self._file_counter; self._file_counter += 1;
     self._temp_files.append(wav_path)] *)
Definition new_file (wav_path : str) (s : session) : session :=
  {| uuid := uuid s; call_id := call_id s; is_active := is_active s;
     is_playing := is_playing s; response_audio := response_audio s;
     last_response_text := last_response_text s;
     transcript := transcript s; total_turns := total_turns s;
     barge_in_count := barge_in_count s; file_counter := file_counter s + 1;
     temp_files := temp_files s ++ [wav_path]; has_storage := has_storage s |}.

Definition has_uuid (s : session) : bool :=
  match uuid s with Some u => truthy u | None => false end.

Definition uuid_text (s : session) : str :=
  match uuid s with Some u => u | None => cps "None" end.

(** What the loop does to the outside, in program order; the telemetry
    events are the tasks it spawns. *)
Inductive io_event : Type :=
  | SaveWav (path : str) (pcm : bytes) (rate : Z)
  | Exec (cmd : str)
  | Sleep
  | LogInfo
  | LogError
  | TelemetryBotResponse (text : str)
  | TelemetryUserSpeech (text : str)
  | TelemetryBargeIn.

(** What the environment answers to one [_play_response]: whether
    [save_wav] succeeds, the output of the broadcast command or its
    exception, and whether [stop()] runs in another task during the
    broadcast and during each sleep. *)
Record play_env : Type := PlayEnv {
  save_wav_ok : bool;
  broadcast : result str;
  stop_during_broadcast : bool;
  stop_during_sleep : nat -> bool
}.

Definition stopped (b : bool) (s : session) : session :=
  if b then set_is_active false s else s.

Definition wav_path_of (s : session) (idx : Z) : str :=
  Playback.TTS_DIR ++ cps "/" ++ call_id s ++ cps "_" ++ str_of_int idx
  ++ cps ".wav".

Definition broadcast_cmd (s : session) (wav_path : str) : str :=
  cps "uuid_broadcast " ++ uuid_text s ++ cps " " ++ wav_path ++ cps " aleg".

Definition break_cmd (s : session) : str :=
  cps "uuid_break " ++ uuid_text s ++ cps " all".

(** [while elapsed < duration_ms and self.is_playing and self.is_active:
       await asyncio.sleep(0.1); elapsed += 100] *)
Fixpoint wait_loop (fuel : nat) (env : play_env) (tick : nat)
    (elapsed duration_ms : Z) (s : session) : session * list io_event :=
  match fuel with
  | O => (s, [])
  | S fuel' =>
      if (elapsed <? duration_ms) && is_playing s && is_active s then
        let s1 := stopped (stop_during_sleep env tick) s in
        let '(s2, e2) :=
          wait_loop fuel' env (S tick) (elapsed + 100) duration_ms s1 in
        (s2, Sleep :: e2)
      else (s, [])
  end.

Definition wait_fuel (duration_ms : Z) : nat := S (Z.to_nat duration_ms).

(** [_play_response]: what it raises, if anything, the session and the
    events. *)
Definition _play_response (s : session) (audio_48k : bytes) (env : play_env)
  : result unit * session * list io_event :=
  if negb (has_uuid s) || negb (is_active s) then (Ok tt, s, [])
  else
    match Audio.downsample audio_48k 48000 8000 with
    | Raise e => (Raise e, s, [])
    | Ok audio_8k =>
        let wav_path := wav_path_of s (file_counter s) in
        let s1 := new_file wav_path s in
        let saved := SaveWav wav_path audio_8k 8000 in
        if negb (save_wav_ok env) then (Raise OSError, s1, [saved])
        else
          let duration_ms := Z.of_nat (length audio_8k) / 16 in
          let s2 := set_is_playing true s1 in
          let cmd := Exec (broadcast_cmd s2 wav_path) in
          let s3 := stopped (stop_during_broadcast env) s2 in
          match broadcast env with
          | Raise _ =>
              (Ok tt, set_is_playing false s3,
               [saved; LogInfo; cmd; LogError])
          | Ok stdout =>
              if negb (contains (cps "+OK") stdout) then
                (Ok tt, set_is_playing false s3, [saved; LogInfo; cmd])
              else
                let '(s4, e4) :=
                  wait_loop (wait_fuel duration_ms) env 0 0 duration_ms s3 in
                (Ok tt, set_is_playing false s4,
                 [saved; LogInfo; cmd] ++ e4)
          end
    end.

(** [_stop_playback], with whether its [fs_cli] process ran without
    raising. *)
Definition _stop_playback (s : session) (exec_ok : bool)
  : session * list io_event :=
  if has_uuid s && is_playing s then
    if exec_ok then (set_is_playing false s, [Exec (break_cmd s); LogInfo])
    else (s, [Exec (break_cmd s)])
  else (s, []).

(** One message of the realtime API as the loop reads it.  An audio delta
    carries the decoded bytes (none when the field is absent or empty) or
    the exception of the decoder; [Notice] stands for the types that are
    only logged, [Other] for the types the loop has no branch for, and
    [Malformed] for a message [json.loads] rejects. *)
Inductive ai_event : Type :=
  | AudioDelta (decoded : result bytes)
  | TextDelta (d : str)
  | ResponseDone (env : play_env)
  | TranscriptionCompleted (tr : str)
  | SpeechStarted (exec_ok : bool)
  | Notice (is_error : bool)
  | Other
  | Malformed.

(** The body of the loop for one message. *)
Definition on_event (s : session) (ev : ai_event)
  : result unit * session * list io_event :=
  match ev with
  | AudioDelta (Ok bs) =>
      (Ok tt, set_response_audio (response_audio s ++ bs) s, [])
  | AudioDelta (Raise e) => (Raise e, s, [])
  | TextDelta d =>
      if truthy d then
        (Ok tt, set_last_response_text (last_response_text s ++ d) s,
         [LogInfo])
      else (Ok tt, s, [])
  | ResponseDone env =>
      let played :=
        if truthy (response_audio s) then
          let '(r, s1, evs) := _play_response s (response_audio s) env in
          match r with
          | Ok _ => (Ok tt, set_response_audio [] s1, evs)
          | Raise e => (Raise e, s1, evs)
          end
        else (Ok tt, s, []) in
      match played with
      | (Raise e, s1, evs) => (Raise e, s1, LogInfo :: evs)
      | (Ok _, s1, evs) =>
          let s2 := count_turn s1 in
          let resp_text := last_response_text s2 in
          if truthy resp_text && has_storage s2 then
            (Ok tt,
             set_last_response_text []
               (add_transcript (Sessions.bot_prefix ++ resp_text) s2),
             LogInfo :: evs ++ [TelemetryBotResponse resp_text])
          else (Ok tt, set_last_response_text [] s2, LogInfo :: evs)
      end
  | TranscriptionCompleted tr =>
      if truthy tr then
        (Ok tt, add_transcript (Sessions.client_prefix ++ tr) s,
         LogInfo :: (if has_storage s then [TelemetryUserSpeech tr] else []))
      else (Ok tt, s, [])
  | SpeechStarted exec_ok =>
      let s1 := count_barge_in (set_response_audio [] s) in
      let '(s2, evs) := _stop_playback s1 exec_ok in
      (Ok tt, s2,
       LogInfo :: evs ++ (if has_storage s2 then [TelemetryBargeIn] else []))
  | Notice is_error => (Ok tt, s, [if is_error then LogError else LogInfo])
  | Other => (Ok tt, s, [])
  | Malformed => (Raise ValueError, s, [])
  end.

(** What reaches the loop: a message, [stop()] running in another task
    while the loop waits for the next one, or the connection breaking. *)
Inductive incoming : Type :=
  | Message (ev : ai_event)
  | StopCalled
  | ConnectionClosed.

(** [_handle_ai_response]; the end of the list is the normal end of the
    iteration. *)
Fixpoint _handle_ai_response (s : session) (msgs : list incoming)
  : session * list io_event :=
  match msgs with
  | [] => (set_is_active false s, [])
  | StopCalled :: rest => _handle_ai_response (set_is_active false s) rest
  | ConnectionClosed :: _ => (set_is_active false s, [LogInfo])
  | Message ev :: rest =>
      if negb (is_active s) then (set_is_active false s, [])
      else
        match on_event s ev with
        | (Ok _, s1, evs) =>
            let '(s2, evs') := _handle_ai_response s1 rest in
            (s2, evs ++ evs')
        | (Raise _, s1, evs) => (set_is_active false s1, evs ++ [LogError])
        end
  end.

Definition is_break (e : io_event) : bool :=
  match e with
  | Exec cmd => has_prefix (cps "uuid_break ") cmd
  | _ => false
  end.

Definition audio_deltas (chunks : list bytes) : list incoming :=
  map (fun bs => Message (AudioDelta (Ok bs))) chunks.

End Realtime.

(** ** core/config.py: [_deep_merge] *)
Module Config.

(** A configuration value: a [dict], its items in insertion order, or any
    other JSON value, kept as its text. *)
#[warnings="-register-all"]
Inductive value : Type :=
  | Atom (text : str)
  | Dict (items : list (str * value)).

(** [d.get(k)] *)
Fixpoint lookup (k : str) (d : list (str * value)) : option value :=
  match d with
  | [] => None
  | (k', v) :: rest => if decide (k' = k) then Some v else lookup k rest
  end.

(** [d[k] = v]: an existing key keeps its place, a new one goes last. *)
Fixpoint assign (k : str) (v : value) (d : list (str * value))
  : list (str * value) :=
  match d with
  | [] => [(k, v)]
  | (k', v') :: rest =>
      if decide (k' = k) then (k, v) :: rest else (k', v') :: assign k v rest
  end.

(** What [result[k]] becomes for the item [(k, v)] of the override, given
    what it was: the merge of the two when both are dicts, [v]
    otherwise. *)
Fixpoint merge_value (old : option value) (v : value) {struct v} : value :=
  match old, v with
  | Some (Dict base), Dict override =>
      Dict ((fix items (override result : list (str * value))
               {struct override} : list (str * value) :=
               match override with
               | [] => result
               | (k, v') :: rest =>
                   items rest
                     (assign k (merge_value (lookup k result) v') result)
               end) override base)
  | _, _ => v
  end.

(** [_deep_merge(base, override)] *)
Fixpoint _deep_merge (base override : list (str * value))
  : list (str * value) :=
  match override with
  | [] => base
  | (k, v) :: rest =>
      _deep_merge (assign k (merge_value (lookup k base) v) base) rest
  end.

(** [cfg[k1][k2]...]: the value at a path of keys, if every value on the
    way is a dict that has the next key. *)
Fixpoint get_path (v : value) (path : list str) : option value :=
  match path with
  | [] => Some v
  | k :: rest =>
      match v with
      | Dict d =>
          match lookup k d with
          | Some v' => get_path v' rest
          | None => None
          end
      | Atom _ => None
      end
  end.

(** No dict of the value has a key twice, as in every Python dict. *)
Fixpoint distinct_keys (v : value) : bool :=
  match v with
  | Atom _ => true
  | Dict d =>
      bool_decide (NoDup (map fst d)) &&
      (fix all (d : list (str * value)) : bool :=
         match d with
         | [] => true
         | (_, v') :: rest => distinct_keys v' && all rest
         end) d
  end.

End Config.

(** ** Concrete inputs used by the examples below *)

(** A four-byte buffer, two samples. *)
Definition two_samples : bytes := [x00; x00; x00; x00].

(** A loud frame (one sample of 1000) and a silent one, for a detector
    with the threshold 200. *)
Definition loud_frame : bytes := [xe8; x03].

Definition silent_frame : bytes := [x00; x00].

Definition quick_cfg : VAD.config :=
  {| VAD.energy_threshold := 200; VAD.silence_frames := 1;
     VAD.min_speech_frames := 1; VAD.enabled := true |}.

(** Two energetic frames are needed before speech starts; one silent
    frame ends it. *)
Definition strict_cfg : VAD.config :=
  {| VAD.energy_threshold := 200; VAD.silence_frames := 1;
     VAD.min_speech_frames := 2; VAD.enabled := true |}.

(** A controller for a call, two bytes of audio, and a telephony side
    that accepts the broadcast. *)
Definition demo_uuid : str := cps "aaaaaaaa-aaaa-aaaa-aaaa-aaaaaaaaaaaa".

Definition demo_playback : Playback.fsplayback :=
  Playback.init (Some demo_uuid) (cps "call-0001").

Definition accepting_env : Playback.play_env :=
  {| Playback.save_wav_ok := true;
     Playback.broadcast := Ok (cps "+OK Message sent");
     Playback.during_broadcast := [];
     Playback.during_sleep := fun _ => [] |}.

(** A text of a thousand letters without a sentence terminator. *)
Definition unbroken_text : str := replicate 1000 97%N.

Definition uuid_frame : bytes :=
  [ "a"; "a"; "a"; "a"; "a"; "a"; "a"; "a"; "-"; "a"; "a"; "a"; "a"; "-";
    "a"; "a"; "a"; "a"; "-"; "a"; "a"; "a"; "a"; "-"; "a"; "a"; "a"; "a";
    "a"; "a"; "a"; "a"; "a"; "a"; "a"; "a" ]%byte.

(** The document sink is down: every request to it raises. *)
Definition document_down : Storage.sink -> nat -> bool :=
  fun s _ => bool_decide (s = Storage.Document).

Definition demo_call_start : Storage.operation :=
  Storage.OnCallStart (cps "call-0001") demo_uuid (cps "1000")
    (cps "pipeline") (cps "demo") (cps "ru") [].

(** A session in its first listening window, and a recognizer that
    returns an empty text after 120 ms. *)
Definition fresh_session : Sessions.session :=
  {| Sessions.is_active := true; Sessions.barge_in_triggered := false;
     Sessions.messages := [(Sessions.System, cps "You are a bot.")];
     Sessions.transcript := []; Sessions.turn_metrics := [];
     Sessions.total_turns := 0; Sessions.barge_in_count := 0;
     Sessions.has_storage := true |}.

Definition empty_asr : Sessions.asr_reply :=
  {| Sessions.recognized := Ok []; Sessions.measured_ms := 120;
     Sessions.during_asr := Sessions.Quiet |}.

Definition empty_pipeline_env : Sessions.pipeline_env :=
  {| Sessions.asr := empty_asr; Sessions.stream := [];
     Sessions.stream_error := None; Sessions.llm_total_ms := 0 |}.

Definition empty_script_env : Sessions.script_env :=
  {| Sessions.script_asr := empty_asr; Sessions.chat := Ok [];
     Sessions.llm_ms := 0; Sessions.during_chat := Sessions.Quiet;
     Sessions.script_play_raises := false |}.

(** One turn of the pipeline: the recognizer hears [hello], the model
    streams two sentences, each synthesized and played. *)
Definition spoken (sentence : string) (d : Sessions.disturbance)
  : Sessions.sentence_reply :=
  {| Sessions.sentence := cps sentence; Sessions.during_llm := Sessions.Quiet;
     Sessions.tts := Ok (silent_frame, 8000);
     Sessions.during_tts := Sessions.Quiet; Sessions.play_raises := false;
     Sessions.during_play := d |}.

Definition heard (txt : string) : Sessions.asr_reply :=
  {| Sessions.recognized := Ok (cps txt); Sessions.measured_ms := 120;
     Sessions.during_asr := Sessions.Quiet |}.

Definition hello_env (d : Sessions.disturbance) : Sessions.pipeline_env :=
  {| Sessions.asr := heard "hello";
     Sessions.stream := [spoken "Hi there." d;
                         spoken "How are you?" Sessions.Quiet];
     Sessions.stream_error := None; Sessions.llm_total_ms := 300 |}.

(** A track catalog of two files and a model that answers with a name. *)
Definition two_tracks : gmap str (bytes * Z) :=
  <[cps "a.wav" := (loud_frame, 16000)]>
    (<[cps "b.wav" := (silent_frame, 8000)]> ∅).

Definition answer_env (answer : string) : Sessions.script_env :=
  {| Sessions.script_asr := heard "q"; Sessions.chat := Ok (cps answer);
     Sessions.llm_ms := 200; Sessions.during_chat := Sessions.Quiet;
     Sessions.script_play_raises := false |}.

(** A caller who interrupts during the first sleep of the polling loop. *)
Definition interrupted_env : Playback.play_env :=
  {| Playback.save_wav_ok := true;
     Playback.broadcast := Ok (cps "+OK Message sent");
     Playback.during_broadcast := [];
     Playback.during_sleep :=
       fun tick => match tick with
                   | O => [Playback.CStop true]
                   | _ => []
                   end |}.

(** A reply in three deltas, the second completing two sentences. *)
Definition reply_lines : list LLM.sse_line :=
  [ LLM.Content (cps "Hello ");
    LLM.Skipped;
    LLM.Content (cps "there. How are you? I am ");
    LLM.Content [];
    LLM.Content (cps "fine");
    LLM.Done;
    LLM.Content (cps "never read") ].

(** A realtime session of a call that has its uuid and no storage, and a
    FreeSWITCH that accepts the broadcast. *)
Definition realtime_session : Realtime.session :=
  {| Realtime.uuid := Some demo_uuid; Realtime.call_id := cps "call-0001";
     Realtime.is_active := true; Realtime.is_playing := false;
     Realtime.response_audio := []; Realtime.last_response_text := [];
     Realtime.transcript := []; Realtime.total_turns := 0;
     Realtime.barge_in_count := 0; Realtime.file_counter := 0;
     Realtime.temp_files := []; Realtime.has_storage := false |}.

Definition realtime_env : Realtime.play_env :=
  {| Realtime.save_wav_ok := true;
     Realtime.broadcast := Ok (cps "+OK Message sent");
     Realtime.stop_during_broadcast := false;
     Realtime.stop_during_sleep := fun _ => false |}.

(** Twelve bytes of audio at 48 kHz in two deltas, a text delta, the end
    of the response, then the caller speaking. *)
Definition realtime_messages : list Realtime.incoming :=
  [ Realtime.Message (Realtime.AudioDelta (Ok (loud_frame ++ loud_frame ++
                                               loud_frame)));
    Realtime.Message (Realtime.TextDelta (cps "Hello"));
    Realtime.Message (Realtime.AudioDelta (Ok (silent_frame ++ silent_frame ++
                                               silent_frame)));
    Realtime.Message (Realtime.ResponseDone realtime_env);
    Realtime.Message (Realtime.TranscriptionCompleted (cps "hi"));
    Realtime.Message (Realtime.SpeechStarted true) ].

(** Defaults with a nested [vad] section, and a file that overrides one
    of its settings and adds a key. *)
Definition default_config : list (str * Config.value) :=
  [ (cps "mode", Config.Atom (cps "pipeline"));
    (cps "vad", Config.Dict
       [ (cps "enabled", Config.Atom (cps "true"));
         (cps "energy_threshold", Config.Atom (cps "200")) ]) ].

Definition file_config : list (str * Config.value) :=
  [ (cps "vad", Config.Dict
       [ (cps "energy_threshold", Config.Atom (cps "350")) ]);
    (cps "greeting_text", Config.Atom (cps "hello")) ].

(** * Properties *)

Section AudioFacts.
Import Audio.

Lemma pack_h_length (out : list Z) :
  length (pack_h out) = (2 * length out)%nat.
Proof. induction out as [|v out IH]; simpl; lia. Qed.

Lemma py_range_length (start stop step : Z) :
  0 < step ->
  Z.of_nat (length (py_range start stop step)) =
  Z.max 0 ((stop - start + step - 1) / step).
Proof.
  intros Hstep. unfold py_range.
  destruct (Z.leb_spec stop start) as [Hle|Hlt].
  - simpl. assert ((stop - start + step - 1) / step <= 0); [|lia].
    assert ((stop - start + step - 1) / step < 1); [|lia].
    apply Z.div_lt_upper_bound; lia.
  - rewrite length_map, length_seq.
    assert (0 <= (stop - start + step - 1) / step).
    { apply Z.div_pos; lia. }
    lia.
Qed.

Lemma downsample_out_samples (n ratio : Z) :
  0 <= n -> 1 <= ratio ->
  Z.max 0 ((n - ratio + 1 - 0 + ratio - 1) / ratio) = n / ratio.
Proof.
  intros Hn Hr. replace (n - ratio + 1 - 0 + ratio - 1) with n by lia.
  assert (0 <= n / ratio) by (apply Z.div_pos; lia). lia.
Qed.

End AudioFacts.

(** ** Audio: the length of a downsampled buffer *)

(** C8, as stated, fails: from 16 kHz to 8 kHz two samples (four bytes)
    become one sample (two bytes), and twice that length is 4 while
    [floor(len(b)/2 / (r1/r2)) * 2] is 2. *)
Lemma downsample_length_doubled_fails :
  16000 > 8000 /\ 16000 mod 8000 = 0 /\
  Audio.downsample two_samples 16000 8000 = Ok [x00; x00] /\
  Z.of_nat (length [x00; x00]) * 2 <>
  Z.of_nat (length two_samples) / 2 / (16000 / 8000) * 2.
Proof. repeat split; vm_compute; congruence. Qed.

(** C8, amended: for rates [r1 > r2 > 0] with [r1 mod r2 = 0], downsample
    returns a buffer whose length in bytes is
    [floor(len(b)/2 / (r1/r2)) * 2]. *)
Theorem downsample_length (b : bytes) (r1 r2 : Z) :
  0 < r2 -> r2 < r1 -> r1 mod r2 = 0 ->
  exists out,
    Audio.downsample b r1 r2 = Ok out /\
    Z.of_nat (length out) = Z.of_nat (length b) / 2 / (r1 / r2) * 2.
Proof.
  intros Hpos Hlt Hmod. unfold Audio.downsample.
  destruct (Z.eqb_spec r1 r2) as [->|_]; [lia|].
  destruct (Z.eqb_spec r2 0) as [->|_]; [lia|].
  assert (Hratio : 1 <= r1 / r2).
  { apply Z.div_le_lower_bound; lia. }
  destruct (Z.ltb_spec (r1 / r2) 1) as [Hbad|_]; [lia|].
  eexists; split; [reflexivity|].
  rewrite pack_h_length, length_map.
  rewrite Nat2Z.inj_mul, py_range_length by lia.
  rewrite downsample_out_samples; [lia| |lia].
  apply Z.div_pos; lia.
Qed.

Lemma downsample_length_witness :
  exists out,
    Audio.downsample two_samples 16000 8000 = Ok out /\
    Z.of_nat (length out) =
    Z.of_nat (length two_samples) / 2 / (16000 / 8000) * 2.
Proof. apply (downsample_length two_samples 16000 8000); reflexivity. Defined.

(** Two samples of 100 and 200, then 300 and 400, are averaged pairwise;
    the mean of -1 and -2 is floored to -2. *)
Example downsample_means :
  Audio.downsample [x64; x00; xc8; x00; x2c; x01; x90; x01] 16000 8000
  = Ok [x96; x00; x5e; x01] /\
  Audio.downsample [xff; xff; xfe; xff] 16000 8000 = Ok [xfe; xff] /\
  Audio.downsample [xff; xff; xfe; xff] 8000 16000 = Ok [xff; xff; xfe; xff] /\
  Audio.downsample [xff; xff; xfe; xff] 8000 0 = Raise ZeroDivisionError.
Proof. repeat split; reflexivity. Qed.

(** A sample of 200 does not exceed the threshold 200, one of 201 does;
    nothing and a single byte have the energy 0. *)
Example rms_at_threshold :
  Audio.rms_exceeds [xc8; x00] 200 = false /\
  Audio.rms_exceeds [xc9; x00] 200 = true /\
  Audio.rms_exceeds [xc9; x00; x00; x00] 200 = false /\
  Audio.rms_exceeds [] 0 = false /\
  Audio.rms_exceeds [x01] 0 = false.
Proof. repeat split; reflexivity. Qed.

(** ** Energy VAD *)

(** An utterance: a lone loud frame is dropped, two in a row start the
    speech, one silent frame ends it. *)
Example vad_utterance :
  VAD.trace strict_cfg VAD.init
    (map VAD.Feed [loud_frame; silent_frame; loud_frame; loud_frame;
                   loud_frame; silent_frame; silent_frame])
  = [VAD.Silence; VAD.Silence; VAD.Silence; VAD.SpeechStart; VAD.Speaking;
     VAD.SpeechEnd (loud_frame ++ loud_frame ++ silent_frame); VAD.Silence].
Proof. reflexivity. Qed.

(** After a barge-in the detector is put into speech with the frame that
    interrupted, and the next silence ends that speech. *)
Example vad_after_barge_in :
  VAD.trace strict_cfg VAD.init
    [VAD.CheckBargeIn loud_frame; VAD.CheckBargeIn loud_frame;
     VAD.StartListening loud_frame; VAD.Feed loud_frame;
     VAD.Feed silent_frame]
  = [VAD.Speaking; VAD.SpeechEnd (loud_frame ++ loud_frame ++ silent_frame)].
Proof. reflexivity. Qed.

Section VADFacts.
Import VAD.
Variable cfg : config.

Lemma feed_all_snoc (pre : list bytes) (f : bytes) :
  feed_all cfg (pre ++ [f]) = fst (feed cfg (feed_all cfg pre) f).
Proof. unfold feed_all. rewrite foldl_app. reflexivity. Qed.

(** [speech_start] is only emitted by an idle detector, and leaves it
    speaking. *)
Lemma feed_start (st st' : state) (f : bytes) :
  feed cfg st f = (st', SpeechStart) ->
  is_speaking st = false /\ is_speaking st' = true.
Proof.
  unfold feed, reset, init.
  destruct (loud cfg f), (is_speaking st) eqn:Hsp; simpl;
    repeat case_match; intros [= <-]; auto.
Qed.

(** Every other event than the two boundaries leaves [is_speaking] as it
    was. *)
Lemma feed_inside (st st' : state) (f : bytes) (ev : event) :
  feed cfg st f = (st', ev) ->
  ev = Speaking \/ ev = Silence ->
  is_speaking st' = is_speaking st.
Proof.
  unfold feed, reset, init.
  destruct (loud cfg f), (is_speaking st) eqn:Hsp; simpl;
    repeat case_match; intros [= <- <-] [?|?]; simpl; congruence.
Qed.

Lemma exec_bracketed (st : state) (o : op) (open : bool) :
  (open = true -> is_speaking st = true) ->
  forall rest,
    (forall open', (open' = true -> is_speaking (fst (exec cfg st o)) = true) ->
                   bracketed open' rest = true) ->
    bracketed open (snd (exec cfg st o) ++ rest) = true.
Proof.
  intros Hopen rest Hrest. destruct o as [f|f|f]; simpl in *.
  - destruct (feed cfg st f) as [st' ev] eqn:Hfeed. simpl in *.
    destruct ev as [|audio| |].
    + apply feed_start in Hfeed as [Hidle Hnow].
      destruct open; [specialize (Hopen eq_refl); congruence|].
      simpl. apply Hrest. auto.
    + apply Hrest. discriminate.
    + apply Hrest. intros ->.
      rewrite (feed_inside _ _ _ _ Hfeed); auto.
    + apply Hrest. intros ->.
      rewrite (feed_inside _ _ _ _ Hfeed); auto.
  - apply Hrest. intros ->.
    unfold check_barge_in. repeat case_match; simpl; auto.
  - apply Hrest. reflexivity.
Qed.

Lemma trace_bracketed (ops : list op) :
  forall (st : state) (open : bool),
    (open = true -> is_speaking st = true) ->
    bracketed open (trace cfg st ops) = true.
Proof.
  induction ops as [|o ops IH]; intros st open Hopen; [reflexivity|].
  simpl. destruct (exec cfg st o) as [st' evs] eqn:Hexec.
  change evs with (snd (st', evs)). rewrite <- Hexec.
  apply exec_bracketed; [assumption|].
  intros open' Hopen'. apply IH. rewrite Hexec in Hopen'. exact Hopen'.
Qed.

End VADFacts.

(** A [speech_start] that is still open is closed before the next one. *)
Lemma bracketed_open_end (mid b : list VAD.event) :
  VAD.bracketed true (mid ++ VAD.SpeechStart :: b) = true ->
  exists audio, In (VAD.SpeechEnd audio) mid.
Proof.
  induction mid as [|ev mid IH]; simpl; [discriminate|].
  destruct ev as [|audio| |]; simpl.
  - discriminate.
  - intros _. exists audio. now left.
  - intros H. destruct (IH H) as [audio Hin]. exists audio. now right.
  - intros H. destruct (IH H) as [audio Hin]. exists audio. now right.
Qed.

Lemma bracketed_two_starts (a mid b : list VAD.event) :
  forall open,
    VAD.bracketed open (a ++ VAD.SpeechStart :: mid ++ VAD.SpeechStart :: b)
    = true ->
    exists audio, In (VAD.SpeechEnd audio) mid.
Proof.
  induction a as [|ev a IH]; intros open; simpl.
  - intros H. apply andb_true_iff in H as [_ H].
    exact (bracketed_open_end mid b H).
  - destruct ev; simpl; try apply IH.
    intros H. apply andb_true_iff in H as [_ H]. exact (IH _ H).
Qed.

(** C6: along any sequence of [feed], [check_barge_in] and
    [start_listening_after_barge_in] on a fresh detector, between two
    [speech_start] events [feed] has emitted a [speech_end]. *)
Theorem no_double_speech_start (cfg : VAD.config) (ops : list VAD.op)
    (a mid b : list VAD.event) :
  VAD.trace cfg VAD.init ops
  = a ++ VAD.SpeechStart :: mid ++ VAD.SpeechStart :: b ->
  exists audio, In (VAD.SpeechEnd audio) mid.
Proof.
  intros Htrace. apply (bracketed_two_starts a mid b false).
  rewrite <- Htrace. apply trace_bracketed. discriminate.
Qed.

Lemma no_double_speech_start_witness :
  exists audio,
    In (VAD.SpeechEnd audio) [VAD.SpeechEnd (loud_frame ++ silent_frame)].
Proof.
  apply (no_double_speech_start quick_cfg
           [VAD.Feed loud_frame; VAD.Feed silent_frame; VAD.Feed loud_frame]
           [] _ []).
  reflexivity.
Defined.

(** *** What [speech_end] carries *)
Section SpeechEndAudio.
Import VAD.
Variable cfg : config.

Lemma buffer_inv_step (pre : list bytes) (f : bytes) :
  buffer_inv cfg pre (feed_all cfg pre) ->
  buffer_inv cfg (pre ++ [f]) (feed_all cfg (pre ++ [f])).
Proof.
  intros Hinv. rewrite feed_all_snoc. unfold buffer_inv in *.
  assert (Hgrow : is_speaking (feed_all cfg pre) = true ->
    exists pre1 g blk,
      pre ++ [f] = pre1 ++ g :: blk /\
      emits cfg pre1 g = SpeechStart /\ loud cfg g = true /\
      audio_buffer (feed_all cfg pre) ++ f = g ++ concat blk).
  { intros Hsp. destruct (Hinv Hsp) as (pre1 & g & blk & -> & Hst & Hg & Hbuf).
    exists pre1, g, (blk ++ [f]). repeat split; auto.
    - now rewrite <- app_assoc.
    - rewrite Hbuf, concat_app. simpl. now rewrite app_nil_r, app_assoc. }
  unfold feed, reset, init.
  destruct (loud cfg f) eqn:Hloud.
  - destruct (is_speaking (feed_all cfg pre)) eqn:Hsp; simpl.
    + intros _. apply Hgrow. reflexivity.
    + destruct (min_speech_frames cfg <=? _) eqn:Hmin; simpl; [|discriminate].
      intros _. exists pre, f, []. repeat split; auto.
      * unfold emits, feed. rewrite Hloud, Hsp, Hmin. reflexivity.
      * simpl. now rewrite app_nil_r.
  - destruct (is_speaking (feed_all cfg pre)) eqn:Hsp; simpl; [|discriminate].
    destruct (silence_frames cfg <=? _); simpl; [discriminate|].
    intros _. apply Hgrow. reflexivity.
Qed.

Lemma buffer_inv_holds (pre : list bytes) :
  buffer_inv cfg pre (feed_all cfg pre).
Proof.
  induction pre as [|f pre IH] using rev_ind.
  - intros Hsp. discriminate.
  - apply buffer_inv_step, IH.
Qed.

(** A frame above a non-negative threshold holds at least one sample. *)
Lemma loud_frame_length (f : bytes) :
  0 <= energy_threshold cfg -> loud cfg f = true -> (2 <= length f)%nat.
Proof.
  unfold loud, Audio.rms_exceeds. intros Hthr.
  destruct (Z.ltb_spec (Z.of_nat (length f)) 2); [|lia].
  intros Hneg%Z.ltb_lt. lia.
Qed.

End SpeechEndAudio.

(** C2, amended: when [feed] emits [speech_end(audio)] in a run of [feed]
    calls from the initial state, [audio] is the frame on which
    [speech_start] was emitted, whose RMS exceeded the threshold, followed
    by every frame fed after it up to the one that ended the speech.  The
    energetic frames counted before [speech_start] are not in it. *)
Theorem speech_end_audio (cfg : VAD.config) (pre : list bytes)
    (f audio : bytes) :
  VAD.emits cfg pre f = VAD.SpeechEnd audio ->
  exists pre1 g blk,
    pre = pre1 ++ g :: blk /\
    VAD.emits cfg pre1 g = VAD.SpeechStart /\
    VAD.loud cfg g = true /\
    audio = g ++ concat blk ++ f.
Proof.
  unfold VAD.emits at 1. unfold VAD.feed. intros Hend.
  destruct (VAD.loud cfg f);
    destruct (VAD.is_speaking (VAD.feed_all cfg pre)) eqn:Hsp;
    simpl in Hend; repeat case_match; try discriminate.
  injection Hend as <-.
  destruct (buffer_inv_holds cfg pre Hsp) as (pre1 & g & blk & -> & ? & ? & ->).
  exists pre1, g, blk. repeat split; auto. now rewrite app_assoc.
Qed.

Lemma speech_end_audio_witness :
  exists pre1 g blk,
    [loud_frame; loud_frame] = pre1 ++ g :: blk /\
    VAD.emits strict_cfg pre1 g = VAD.SpeechStart /\
    VAD.loud strict_cfg g = true /\
    loud_frame ++ silent_frame = g ++ concat blk ++ silent_frame.
Proof.
  apply (speech_end_audio strict_cfg [loud_frame; loud_frame] silent_frame).
  reflexivity.
Defined.

Lemma count_loud_cons (cfg : VAD.config) (f : bytes) (fs : list bytes) :
  VAD.count_loud cfg (f :: fs) =
  (if VAD.loud cfg f then 1 else 0) + VAD.count_loud cfg fs.
Proof.
  unfold VAD.count_loud. rewrite filter_cons.
  destruct (VAD.loud cfg f); case_decide; simpl; try congruence; lia.
Qed.

(** Frames that are loud take up room in their concatenation: two bytes
    each, and the bytes of the last loud frame end the concatenation of
    the frames up to it. *)
Lemma loud_frames_room (cfg : VAD.config) (fs : list bytes) :
  0 <= VAD.energy_threshold cfg ->
  2 * VAD.count_loud cfg fs <= Z.of_nat (length (concat fs)).
Proof.
  intros Hthr. induction fs as [|f fs IH].
  - simpl. unfold VAD.count_loud. simpl. lia.
  - rewrite count_loud_cons. simpl. rewrite length_app.
    destruct (VAD.loud cfg f) eqn:Hloud; [|lia].
    pose proof (loud_frame_length cfg f Hthr Hloud). lia.
Qed.

Lemma two_loud_frames_split (cfg : VAD.config) (fs : list bytes) :
  0 <= VAD.energy_threshold cfg ->
  2 <= VAD.count_loud cfg fs ->
  Z.of_nat (length (concat fs)) = 4 ->
  exists g, VAD.loud cfg g = true /\ drop 2 (concat fs) = g.
Proof.
  intros Hthr. induction fs as [|f fs IH]; intros Hcount Hlen.
  - unfold VAD.count_loud in Hcount. simpl in Hcount. lia.
  - rewrite count_loud_cons in Hcount. simpl in Hlen. rewrite length_app in Hlen.
    pose proof (loud_frames_room cfg fs Hthr) as Hroom.
    destruct (VAD.loud cfg f) eqn:Hloud.
    + pose proof (loud_frame_length cfg f Hthr Hloud) as Hf.
      assert (Hlenf : length f = 2%nat) by lia.
      assert (Hone : VAD.count_loud cfg fs = 1) by lia.
      simpl. rewrite drop_app_length' by lia.
      clear IH Hcount. assert (Hrest : length (concat fs) = 2%nat) by lia.
      clear Hlen Hroom Hlenf Hf Hloud f.
      induction fs as [|h fs IH].
      * simpl in Hrest. lia.
      * rewrite count_loud_cons in Hone. simpl in *.
        rewrite length_app in Hrest.
        pose proof (loud_frames_room cfg fs Hthr) as Hroom.
        destruct (VAD.loud cfg h) eqn:Hh.
        -- pose proof (loud_frame_length cfg h Hthr Hh).
           assert (Hnil : concat fs = []) by (apply length_zero_iff_nil; lia).
           rewrite Hnil, app_nil_r. eauto.
        -- assert (Hh0 : h = []).
           { apply length_zero_iff_nil. lia. }
           subst h. simpl. apply IH; [lia | simpl in Hrest; lia].
    + assert (Hf0 : f = []) by (apply length_zero_iff_nil; lia).
      subst f. simpl. apply IH; [lia | simpl in Hlen; lia].
Qed.

(** C2, as stated, fails: with [min_speech_frames = 2] and
    [silence_frames = 1], two loud frames and a silent one make [feed] emit
    [speech_end] with the second loud frame and the silent frame only, and
    however these four bytes are cut into frames, fewer than two of them
    exceed the threshold. *)
Lemma speech_end_min_frames_fails :
  VAD.emits strict_cfg [loud_frame; loud_frame] silent_frame
  = VAD.SpeechEnd (loud_frame ++ silent_frame) /\
  ~ exists fs : list bytes,
      concat fs = loud_frame ++ silent_frame /\
      VAD.min_speech_frames strict_cfg <= VAD.count_loud strict_cfg fs.
Proof.
  split; [reflexivity|].
  intros (fs & Hcat & Hcount).
  destruct (two_loud_frames_split strict_cfg fs) as (g & Hloud & Hg).
  - simpl. lia.
  - exact Hcount.
  - now rewrite Hcat.
  - rewrite Hcat in Hg. simpl in Hg. subst g. vm_compute in Hloud.
    discriminate.
Qed.

(** ** Playback controller *)
Section PlaybackFacts.
Import Playback.

(** Bringing the audio to 8 kHz never raises. *)
Lemma resample_returns (pcm_data : bytes) (sample_rate : Z) :
  exists pcm8,
    (if negb (sample_rate =? 8000)
     then Audio.downsample pcm_data sample_rate 8000 else Ok pcm_data)
    = Ok pcm8.
Proof.
  destruct (sample_rate =? 8000) eqn:Hrate; simpl; [eauto|].
  unfold Audio.downsample. rewrite Hrate. simpl.
  destruct (_ <? 1); eauto.
Qed.

Lemma stop_is_active (p : fsplayback) (ok : bool) :
  is_active (fst (stop p ok)) = is_active p.
Proof. unfold stop. repeat case_match; reflexivity. Qed.

Lemma stop_no_sleep (p : fsplayback) (ok : bool) :
  existsb is_sleep (snd (stop p ok)) = false.
Proof. unfold stop. repeat case_match; reflexivity. Qed.

(** Nothing another task does gives [is_active] back, and none of it is a
    sleep of the polling loop. *)
Lemma interfere_inactive (cs : list concurrent) :
  forall p, is_active p = false ->
            is_active (fst (interfere p cs)) = false /\
            existsb is_sleep (snd (interfere p cs)) = false.
Proof.
  induction cs as [|c cs IH]; intros p Hp; simpl; [auto|].
  destruct (interfere_one p c) as [p1 e1] eqn:H1.
  destruct (interfere p1 cs) as [p2 e2] eqn:H2. simpl.
  assert (Hone : is_active p1 = false /\ existsb is_sleep e1 = false).
  { destruct c as [ok|]; simpl in H1.
    - pose proof (stop_is_active p ok). pose proof (stop_no_sleep p ok).
      rewrite H1 in *. simpl in *. split; congruence.
    - injection H1 as <- <-. auto. }
  destruct Hone as [Hact He1]. specialize (IH p1 Hact).
  rewrite H2 in IH. simpl in IH. destruct IH as [IHa IHe].
  split; [assumption|]. rewrite existsb_app, He1, IHe. reflexivity.
Qed.

(** The polling loop of an inactive controller does not run. *)
Lemma wait_loop_inactive (fuel : nat) (env : play_env) (tick : nat)
    (elapsed duration_ms : Z) (p : fsplayback) :
  is_active p = false ->
  wait_loop fuel env tick elapsed duration_ms p = (p, []).
Proof.
  intros Hp. destruct fuel as [|fuel]; simpl; [reflexivity|].
  rewrite Hp, andb_false_r. reflexivity.
Qed.

(** The fuel of the polling loop never runs out: once [elapsed] is within
    [50 * fuel] of the duration, more fuel changes nothing. *)
Lemma wait_loop_fuel (env : play_env) (duration_ms : Z) (fuel : nat) :
  forall (tick : nat) (elapsed : Z) (p : fsplayback) (more : nat),
    duration_ms - elapsed < 50 * Z.of_nat fuel ->
    wait_loop (fuel + more) env tick elapsed duration_ms p =
    wait_loop fuel env tick elapsed duration_ms p.
Proof.
  induction fuel as [|fuel IH]; intros tick elapsed p more Hfuel.
  - destruct more as [|more]; simpl; [reflexivity|].
    destruct (Z.ltb_spec elapsed duration_ms); [lia|]. reflexivity.
  - simpl. destruct (_ && _ && _); [|reflexivity].
    destruct (interfere p (during_sleep env tick)) as [p1 e1].
    rewrite IH by lia. reflexivity.
Qed.

Lemma wait_fuel_enough (env : play_env) (duration_ms : Z) (p : fsplayback)
    (more : nat) :
  wait_loop (wait_fuel duration_ms + more) env 0 0 duration_ms p =
  wait_loop (wait_fuel duration_ms) env 0 0 duration_ms p.
Proof. apply wait_loop_fuel. unfold wait_fuel. lia. Qed.

Lemma play_try_not_playing_inactive (p : fsplayback) (env : play_env)
    (wav_path : str) (duration_ms : Z) :
  is_active p = false ->
  existsb is_sleep (snd (play_try p env wav_path duration_ms)) = false.
Proof.
  intros Hp. unfold play_try.
  destruct (interfere_inactive (during_broadcast env) p Hp) as [Hact Hev].
  destruct (interfere p (during_broadcast env)) as [p1 e1].
  simpl in Hact, Hev.
  destruct (broadcast env) as [stdout|e].
  - destruct (negb _); [exact Hev|].
    rewrite wait_loop_inactive by assumption.
    cbn [snd existsb is_sleep orb]. now rewrite app_nil_r.
  - cbn [snd existsb is_sleep orb]. now rewrite existsb_app, Hev.
Qed.

(** The first thing the [try] block does is the broadcast command. *)
Lemma play_try_starts_with_broadcast (p : fsplayback) (env : play_env)
    (wav_path : str) (duration_ms : Z) :
  exists rest,
    snd (play_try p env wav_path duration_ms)
    = Exec (broadcast_cmd p wav_path) :: rest.
Proof.
  unfold play_try.
  destruct (interfere p (during_broadcast env)) as [p1 e1].
  destruct (broadcast env) as [stdout|e]; [destruct (negb _)|];
    [| destruct (wait_loop _ _ _ _ _ _) |]; eexists; reflexivity.
Qed.

(** Whatever happens inside, [play_pcm] that gets past its first test
    hands the controller back with [is_playing] cleared or untouched. *)
Lemma play_pcm_is_playing (p : fsplayback) (pcm_data : bytes)
    (sample_rate : Z) (env : play_env) :
  is_playing p = false ->
  is_playing (snd (fst (play_pcm p pcm_data sample_rate env))) = false.
Proof.
  intros Hp. unfold play_pcm.
  destruct (negb (truthy pcm_data) || negb (has_uuid p)); [assumption|].
  destruct (if negb (sample_rate =? 8000) then _ else _) as [pcm8|e];
    [|assumption].
  destruct (negb (save_wav_ok env)); [assumption|].
  destruct (play_try _ _ _ _) as [[r p3] evs]. reflexivity.
Qed.

Lemma do_call_is_playing (p : fsplayback) (c : call) :
  is_playing p = false -> is_playing (fst (do_call p c)) = false.
Proof.
  intros Hp. destruct c as [pcm rate env|ok|]; simpl.
  - pose proof (play_pcm_is_playing p pcm rate env Hp) as H.
    destruct (play_pcm p pcm rate env) as [[r p'] evs]. exact H.
  - unfold stop. rewrite Hp, andb_false_r. assumption.
  - assumption.
Qed.

Lemma run_is_playing (cs : list call) :
  forall p, is_playing p = false -> is_playing (run p cs) = false.
Proof.
  induction cs as [|c cs IH]; intros p Hp; simpl; [assumption|].
  apply IH, do_call_is_playing, Hp.
Qed.

(** Past the first test and the save, [finally:] clears [is_playing]
    whatever it was on entry. *)
Lemma play_pcm_finally (p : fsplayback) (pcm_data : bytes)
    (sample_rate : Z) (env : play_env) :
  truthy pcm_data = true -> has_uuid p = true -> save_wav_ok env = true ->
  is_playing (snd (fst (play_pcm p pcm_data sample_rate env))) = false.
Proof.
  intros Hpcm Huuid Hsave. unfold play_pcm. rewrite Hpcm, Huuid, Hsave. simpl.
  destruct (resample_returns pcm_data sample_rate) as [pcm8 ->].
  destruct (play_try _ _ _ _) as [[r p3] evs]. reflexivity.
Qed.

(** The early return does not touch the controller. *)
Lemma play_pcm_early_return (p : fsplayback) (pcm_data : bytes)
    (sample_rate : Z) (env : play_env) :
  truthy pcm_data = false \/ has_uuid p = false ->
  play_pcm p pcm_data sample_rate env = (Ok false, p, []).
Proof.
  intros [H|H]; unfold play_pcm; rewrite H; simpl;
    [|rewrite orb_true_r]; reflexivity.
Qed.

End PlaybackFacts.

(** A tenth of a second of audio plays through two sleeps and returns
    true; a [stop()] during the first sleep makes it return false after
    one.  Both leave the scratch file unlinked. *)
Example playback_runs_or_is_preempted :
  let '(r1, p1, e1) :=
    Playback.play_pcm demo_playback (replicate 1600 x00) 8000 accepting_env in
  let '(r2, p2, e2) :=
    Playback.play_pcm demo_playback (replicate 1600 x00) 8000
      interrupted_env in
  r1 = Ok true /\ length (filter (fun e => Playback.is_sleep e = true) e1) = 2%nat /\
  r2 = Ok false /\ length (filter (fun e => Playback.is_sleep e = true) e2) = 1%nat /\
  last e1 = Some (Playback.Unlink (cps "/tmp/voice_pipeline/call-0001_0.wav")) /\
  last e2 = last e1 /\
  Playback.file_counter p1 = 1.
Proof. vm_compute. repeat split; reflexivity. Qed.

(** C9: whenever [play_pcm] is called on a controller, after any calls
    made one after the other since its creation and whatever other tasks
    do while it waits, it hands the controller back with [is_playing]
    false; so it is on each path: early return, failed save, rejected or
    failing broadcast, completed or preempted wait. *)
Theorem play_pcm_clears_is_playing (uuid : option str) (call_id : str)
    (cs : list Playback.call) (pcm_data : bytes) (sample_rate : Z)
    (env : Playback.play_env) :
  Playback.is_playing
    (snd (fst (Playback.play_pcm
                 (Playback.run (Playback.init uuid call_id) cs)
                 pcm_data sample_rate env))) = false.
Proof.
  apply play_pcm_is_playing, run_is_playing. reflexivity.
Qed.

(** C3, as stated, fails: after [close()], [play_pcm] with audio and a
    uuid writes the scratch file, issues the broadcast and returns true. *)
Lemma play_after_close_still_plays :
  let '(r, p, evs) :=
    Playback.play_pcm (Playback.close demo_playback) silent_frame 8000
                      accepting_env in
  Playback.is_active (Playback.close demo_playback) = false /\
  r = Ok true /\
  existsb Playback.is_save evs = true /\
  existsb Playback.is_broadcast evs = true.
Proof. vm_compute. repeat split; reflexivity. Qed.

(** C3, amended: after [close()] has cleared [is_active], a [play_pcm]
    call never waits, its polling loop does not sleep once; given audio
    and a uuid it still writes the scratch file, and when that succeeds it
    still issues the broadcast command. *)
Theorem play_after_close_never_waits (p : Playback.fsplayback)
    (pcm_data : bytes) (sample_rate : Z) (env : Playback.play_env) :
  Playback.is_active p = false ->
  let evs := snd (Playback.play_pcm p pcm_data sample_rate env) in
  existsb Playback.is_sleep evs = false /\
  (truthy pcm_data = true -> Playback.has_uuid p = true ->
   existsb Playback.is_save evs = true /\
   (Playback.save_wav_ok env = true ->
    existsb Playback.is_broadcast evs = true)).
Proof.
  intros Hp. unfold Playback.play_pcm.
  destruct (truthy pcm_data) eqn:Hpcm; simpl;
    [|split; [reflexivity | discriminate]].
  destruct (Playback.has_uuid p) eqn:Huuid; simpl;
    [|split; [reflexivity | discriminate]].
  destruct (resample_returns pcm_data sample_rate) as [pcm8 ->].
  destruct (Playback.save_wav_ok env) eqn:Hsave; simpl.
  - set (p2 := Playback.set_is_playing true _).
    pose proof (play_try_not_playing_inactive p2 env
      (Playback.wav_path_of p (Playback.file_counter p))
      (Z.of_nat (length pcm8) / 16) Hp) as Hno.
    destruct (play_try_starts_with_broadcast p2 env
      (Playback.wav_path_of p (Playback.file_counter p))
      (Z.of_nat (length pcm8) / 16)) as [rest Hfirst].
    destruct (Playback.play_try _ _ _ _) as [[r p3] evs].
    simpl in Hno, Hfirst. subst evs. cbn [snd existsb Playback.is_save].
    rewrite existsb_app, Hno. split; [reflexivity|].
    intros _ _. split; [reflexivity|]. intros _. reflexivity.
  - split; [reflexivity|]. intros _ _. split; [reflexivity | discriminate].
Qed.

Lemma play_after_close_never_waits_witness :
  let evs := snd (Playback.play_pcm (Playback.close demo_playback)
                    silent_frame 8000 accepting_env) in
  existsb Playback.is_sleep evs = false /\
  (truthy silent_frame = true ->
   Playback.has_uuid (Playback.close demo_playback) = true ->
   existsb Playback.is_save evs = true /\
   (Playback.save_wav_ok accepting_env = true ->
    existsb Playback.is_broadcast evs = true)).
Proof.
  apply (play_after_close_never_waits (Playback.close demo_playback)
           silent_frame 8000 accepting_env).
  reflexivity.
Defined.

(** ** Zvukogram TTS: splitting a long text *)
Section SplitFacts.
Import Zvukogram.

(** What [synthesize] gathers is the audio of the chunks, one after the
    other in the order of the chunks. *)
Lemma gather_in_order (synth_chunk : nat -> str -> bytes)
    (pairs : list (nat * str)) :
  forall acc : bytes,
    foldl (fun acc kc => let pcm := synth_chunk (fst kc) (snd kc) in
                         if truthy pcm then acc ++ pcm else acc)
          acc pairs
    = acc ++ concat (map (fun kc => synth_chunk (fst kc) (snd kc)) pairs).
Proof.
  induction pairs as [|kc pairs IH]; intros acc; simpl.
  - now rewrite app_nil_r.
  - rewrite IH. destruct (synth_chunk (fst kc) (snd kc)) as [|b pcm]; simpl.
    + reflexivity.
    + now rewrite <- app_assoc.
Qed.

Lemma map_imap_pairs (g : nat -> str -> bytes) (chunks : list str) :
  forall (p : nat -> str -> nat * str) (g' : nat -> str -> bytes),
    (forall k c, g (fst (p k c)) (snd (p k c)) = g' k c) ->
    map (fun kc => g (fst kc) (snd kc)) (imap p chunks) = imap g' chunks.
Proof.
  induction chunks as [|c chunks IH]; intros p g' Hg; simpl.
  - reflexivity.
  - f_equal; [apply Hg|]. apply IH. intros k c'. apply Hg.
Qed.

Lemma synthesize_concatenates (rate : Z) (synth_chunk : nat -> str -> bytes)
    (text : str) (r : audio_result) :
  synthesize rate synth_chunk text = Ok r ->
  audio r = concat (imap synth_chunk (_split_text text 900)).
Proof.
  unfold synthesize. rewrite gather_in_order. simpl.
  destruct (negb _); [discriminate|]. intros [= <-]. simpl.
  f_equal. apply map_imap_pairs. reflexivity.
Qed.

Lemma lstrip_by_length (p : N -> bool) (s : str) :
  (length (lstrip_by p s) <= length s)%nat.
Proof.
  induction s as [|c s IH]; simpl; [lia|]. destruct (p c); simpl; lia.
Qed.

Lemma strip_length (s : str) : (length (strip s) <= length s)%nat.
Proof.
  unfold strip, strip_by. rewrite length_rev.
  etransitivity; [apply lstrip_by_length|].
  rewrite length_rev. apply lstrip_by_length.
Qed.

Lemma pack_sentences_short (max_len : Z) (sentences : list str) :
  Forall (short max_len) sentences ->
  forall chunks current,
    Forall (short max_len) chunks -> short max_len current ->
    Forall (short max_len)
      (fst (foldl (pack_sentence max_len) (chunks, current) sentences)) /\
    short max_len
      (snd (foldl (pack_sentence max_len) (chunks, current) sentences)).
Proof.
  induction 1 as [|sentence sentences Hs _ IH]; intros chunks current Hc Hcur;
    simpl; [auto|].
  destruct (Z.leb_spec
    (Z.of_nat (length current) + Z.of_nat (length sentence) + 1) max_len)
    as [Hfit|Hover]; apply IH; try assumption.
  - destruct (truthy current); [|assumption].
    unfold short. pose proof (strip_length (current ++ cps " " ++ sentence)).
    rewrite !length_app in *. simpl in *. lia.
  - destruct (truthy current); [|assumption].
    apply Forall_app. split; [assumption|]. now constructor.
Qed.

(** Where every sentence fits, every chunk fits: the limit is only broken
    by a sentence that is itself too long. *)
Lemma split_text_short (text : str) (max_len : Z) :
  0 <= max_len ->
  Forall (short max_len) (split_sentences text) ->
  Forall (short max_len) (_split_text text max_len).
Proof.
  intros Hmax Hs. unfold _split_text.
  destruct (Z.leb_spec (Z.of_nat (length text)) max_len) as [Hfit|Hlong].
  - now repeat constructor.
  - destruct (pack_sentences_short max_len _ Hs [] []) as [Hc Hcur].
    + constructor.
    + unfold short. simpl. lia.
    + destruct (foldl _ _ _) as [chunks current]. simpl in *.
      assert (Hall : Forall (short max_len)
                (if truthy current then chunks ++ [current] else chunks)).
      { destruct (truthy current); [|assumption].
        apply Forall_app. split; [assumption|]. now constructor. }
      destruct (if truthy current then _ else _) as [|c cs]; [|assumption].
      repeat constructor. unfold short, py_prefix.
      destruct (Z.leb_spec 0 max_len); [|lia].
      rewrite length_take. lia.
Qed.

End SplitFacts.

(** Sentences are packed into chunks while they fit. *)
Example split_text_packs_sentences :
  Zvukogram._split_text (cps "One. Two. Three. Four.") 10
  = [cps "One. Two."; cps "Three."; cps "Four."] /\
  Zvukogram._split_text (cps "One. Two. Three. Four.") 900
  = [cps "One. Two. Three. Four."].
Proof. split; reflexivity. Qed.

(** C7, the code at the failing input: a sentence longer than the limit is
    kept whole, so [_split_text] returns a chunk of 1000 characters for
    [max_len = 900], against its own documentation. *)
Theorem split_text_overlong_chunk :
  Zvukogram._split_text unbroken_text 900 = [unbroken_text] /\
  Z.of_nat (length unbroken_text) = 1000.
Proof. split; vm_compute; reflexivity. Qed.

(** ** Server front: the first frames of a connection *)

(** C4, as stated, fails: a binary frame of exactly 36 bytes that spell a
    UUID leaves [session.uuid] unset, starts nothing and goes to
    [handle_audio]. *)
Lemma uuid_frame_of_36_bytes_is_audio :
  length uuid_frame = 36%nat /\
  Server.decode_ascii (take 36 uuid_frame) = Ok demo_uuid /\
  Server.on_message None (Server.Binary uuid_frame)
  = (None, [Server.HandleAudio uuid_frame], true).
Proof. repeat split; vm_compute; reflexivity. Qed.

(** C4, amended: a binary frame of more than 36 bytes that arrives while
    [session.uuid] is unset and whose first 36 bytes are ASCII with a dash
    sets the uuid from them and spawns [session.start]; the frame is not
    passed to [handle_audio]. *)
Theorem binary_uuid_frame_starts_session (payload : bytes) (u : str) :
  (36 < length payload)%nat ->
  Server.decode_ascii (take 36 payload) = Ok u ->
  Server.has_dash u = true ->
  Server.on_message None (Server.Binary payload)
  = (Some u, [Server.LogUuid u; Server.SpawnStart], true) /\
  existsb Server.is_handle_audio
    (snd (fst (Server.on_message None (Server.Binary payload)))) = false.
Proof.
  intros Hlen Hdec Hdash. unfold Server.on_message.
  destruct (Z.ltb_spec 36 (Z.of_nat (length payload))); [|lia].
  rewrite Hdec, Hdash. split; reflexivity.
Qed.

Lemma binary_uuid_frame_starts_session_witness :
  Server.on_message None (Server.Binary (uuid_frame ++ silent_frame))
  = (Some demo_uuid, [Server.LogUuid demo_uuid; Server.SpawnStart], true) /\
  existsb Server.is_handle_audio
    (snd (fst (Server.on_message None
                 (Server.Binary (uuid_frame ++ silent_frame))))) = false.
Proof.
  apply (binary_uuid_frame_starts_session (uuid_frame ++ silent_frame)
           demo_uuid).
  - simpl. lia.
  - reflexivity.
  - reflexivity.
Defined.

(** ** Telemetry fan-out *)
Section StorageFacts.
Import Storage.

Lemma agree_refl (s : sink) (w : world) : agree s w w.
Proof. destruct s; split; reflexivity. Qed.

Lemma agree_sym (s : sink) (w1 w2 : world) : agree s w1 w2 -> agree s w2 w1.
Proof. destruct s; intros [H1 H2]; split; simpl in *; congruence. Qed.

Lemma agree_trans (s : sink) (w1 w2 w3 : world) :
  agree s w1 w2 -> agree s w2 w3 -> agree s w1 w3.
Proof. destruct s; intros [H1 H2] [H3 H4]; split; simpl in *; congruence. Qed.

Lemma agree_bump (s x : sink) (w1 w2 : world) :
  agree s w1 w2 -> agree s (bump x w1) (bump x w2).
Proof.
  destruct s; intros [H1 H2]; split; simpl in *; try assumption;
    case_decide; congruence.
Qed.

Lemma agree_bump_other (s x : sink) (w : world) :
  x <> s -> agree s (bump x w) w.
Proof.
  intros Hx. destruct s; split; simpl; try reflexivity;
    case_decide; congruence.
Qed.

Lemma agree_log (s : sink) (msg : str) (w : world) :
  agree s (snd (log_error msg w)) w.
Proof. destruct s; split; reflexivity. Qed.

(** *** Computations that leave a sink alone *)
Section Frame.
Variable fails : sink -> nat -> bool.
Variable s : sink.

Lemma frame_ret {A : Type} (a : A) : frame s (ret a).
Proof. intros w. apply agree_refl. Qed.

Lemma frame_raise {A : Type} (e : exn) : frame s (@raise A e).
Proof. intros w. apply agree_refl. Qed.

Lemma frame_bind {A B : Type} (m : M A) (k : A -> M B) :
  frame s m -> (forall a, frame s (k a)) -> frame s (bind m k).
Proof.
  intros Hm Hk w. unfold bind. specialize (Hm w).
  destruct (m w) as [[a|e] w1]; simpl in *; [|assumption].
  eapply agree_trans; [apply Hk | assumption].
Qed.

Lemma frame_try (body : M unit) (msg : str) :
  frame s body -> frame s (try_except body msg).
Proof.
  intros Hb w. unfold try_except. specialize (Hb w).
  destruct (body w) as [[[]|e] w1]; simpl in *; [assumption|].
  eapply agree_trans; [apply agree_log | assumption].
Qed.

Lemma frame_request {A : Type} (x : sink) (run : world -> A * world) :
  x <> s -> (forall w, agree s (snd (run w)) w) ->
  frame s (request fails x run).
Proof.
  intros Hx Hrun w. unfold request.
  destruct (fails x (attempts w x)); simpl.
  - now apply agree_bump_other.
  - specialize (Hrun (bump x w)). destruct (run (bump x w)) as [a w2].
    simpl in *. eapply agree_trans; [eassumption|]. now apply agree_bump_other.
Qed.

Lemma frame_effect (x : sink) (f : world -> world) :
  x <> s -> (forall w, agree s (f w) w) -> frame s (effect fails x f).
Proof. intros Hx Hf. apply frame_request; assumption. Qed.

End Frame.

Lemma with_pg_frame (s : sink) f (w : world) :
  s <> Relational -> agree s (with_pg f w) w.
Proof. destruct s; intros Hs; [congruence| |]; split; reflexivity. Qed.

Lemma with_mongo_frame (s : sink) f (w : world) :
  s <> Document -> agree s (with_mongo f w) w.
Proof. destruct s; intros Hs; [|congruence|]; split; reflexivity. Qed.

Lemma with_redis_frame (s : sink) f (w : world) :
  s <> Ephemeral -> agree s (with_redis f w) w.
Proof. destruct s; intros Hs; [| |congruence]; split; reflexivity. Qed.

(** *** Computations that treat a sink alike under two fault patterns *)
Section Sim.
Variables f1 f2 : sink -> nat -> bool.
Variable s : sink.
Hypothesis same_faults : forall k, f1 s k = f2 s k.

Lemma sim_ret {A : Type} (a : A) (w1 w2 : world) :
  agree s w1 w2 -> sim s (ret a w1) (ret a w2).
Proof. intros H. split; [reflexivity | exact H]. Qed.

Lemma sim_raise {A : Type} (e : exn) (w1 w2 : world) :
  agree s w1 w2 -> sim s (@raise A e w1) (@raise A e w2).
Proof. intros H. split; [reflexivity | exact H]. Qed.

Lemma sim_bind {A B : Type} (m1 m2 : M A) (k1 k2 : A -> M B)
    (w1 w2 : world) :
  sim s (m1 w1) (m2 w2) ->
  (forall a v1 v2, agree s v1 v2 -> sim s (k1 a v1) (k2 a v2)) ->
  sim s (bind m1 k1 w1) (bind m2 k2 w2).
Proof.
  intros [Hr Hw] Hk. unfold bind.
  destruct (m1 w1) as [[a1|e1] v1], (m2 w2) as [[a2|e2] v2];
    simpl in *; try discriminate.
  - injection Hr as ->. now apply Hk.
  - injection Hr as ->. split; [reflexivity | assumption].
Qed.

Lemma sim_try (b1 b2 : M unit) (msg : str) (w1 w2 : world) :
  sim s (b1 w1) (b2 w2) ->
  sim s (try_except b1 msg w1) (try_except b2 msg w2).
Proof.
  intros [Hr Hw]. unfold try_except.
  destruct (b1 w1) as [[[]|e1] v1], (b2 w2) as [[[]|e2] v2];
    simpl in *; try discriminate.
  - split; [reflexivity | assumption].
  - split; [reflexivity|].
    eapply agree_trans; [apply agree_log|].
    eapply agree_trans; [eassumption|]. apply agree_sym, agree_log.
Qed.

Lemma sim_try_frame (b1 b2 : M unit) (msg : str) (w1 w2 : world) :
  frame s b1 -> frame s b2 -> agree s w1 w2 ->
  sim s (try_except b1 msg w1) (try_except b2 msg w2).
Proof.
  intros H1 H2 Hw.
  pose proof (frame_try s b1 msg H1 w1) as F1.
  pose proof (frame_try s b2 msg H2 w2) as F2.
  unfold try_except in *.
  destruct (b1 w1) as [[[]|e1] v1], (b2 w2) as [[[]|e2] v2]; simpl in *;
    (split; [reflexivity|]);
    (eapply agree_trans; [exact F1|]);
    (eapply agree_trans; [exact Hw|]); apply agree_sym; exact F2.
Qed.

Lemma sim_request {A : Type} (run : world -> A * world) (w1 w2 : world) :
  (forall v1 v2, agree s v1 v2 ->
                 fst (run v1) = fst (run v2) /\
                 agree s (snd (run v1)) (snd (run v2))) ->
  agree s w1 w2 ->
  sim s (request f1 s run w1) (request f2 s run w2).
Proof.
  intros Hrun Hw. unfold request.
  destruct Hw as [Hs Hn]. rewrite Hn, same_faults.
  assert (Hb : agree s (bump s w1) (bump s w2)).
  { apply agree_bump. split; assumption. }
  destruct (f2 s (attempts w2 s)).
  - split; [reflexivity | exact Hb].
  - destruct (Hrun _ _ Hb) as [Hr Ha].
    destruct (run (bump s w1)) as [a1 v1], (run (bump s w2)) as [a2 v2].
    simpl in *. subst a2. split; [reflexivity | exact Ha].
Qed.

Lemma sim_effect (f : world -> world) (w1 w2 : world) :
  (forall v1 v2, agree s v1 v2 -> agree s (f v1) (f v2)) ->
  agree s w1 w2 ->
  sim s (effect f1 s f w1) (effect f2 s f w2).
Proof.
  intros Hf Hw. apply sim_request; [|assumption].
  intros v1 v2 Hv. split; [reflexivity | now apply Hf].
Qed.

End Sim.

Lemma with_pg_agree f (w1 w2 : world) :
  agree Relational w1 w2 -> agree Relational (with_pg f w1) (with_pg f w2).
Proof. intros [H1 H2]; split; simpl in *; congruence. Qed.

Lemma with_mongo_agree f (w1 w2 : world) :
  agree Document w1 w2 -> agree Document (with_mongo f w1) (with_mongo f w2).
Proof. intros [H1 H2]; split; simpl in *; congruence. Qed.

Lemma with_redis_agree f (w1 w2 : world) :
  agree Ephemeral w1 w2 -> agree Ephemeral (with_redis f w1) (with_redis f w2).
Proof. intros [H1 H2]; split; simpl in *; congruence. Qed.

Ltac unfold_ops :=
  unfold perform, on_call_start, on_user_speech, on_bot_response,
    on_barge_in, on_call_end, insert_call, finish_call,
    create_transcription, add_segment, add_pipeline_step,
    finish_transcription, create_session, update_session, get_session,
    end_session, push_message, publish_event, mbind, M_bind, mret, M_ret.

Ltac split_branch :=
  match goal with
  | |- context [if ?c then _ else _] => destruct c
  | |- context [match ?x with Some _ => _ | None => _ end] => destruct x
  | |- context [match ?x with Ok _ => _ | Raise _ => _ end] => destruct x
  end.

(** A block that talks to another sink leaves this one alone. *)
Ltac frame_tac :=
  repeat first
    [ apply frame_ret
    | apply frame_raise
    | apply frame_bind; [|intros ?]
    | apply frame_effect;
      [ discriminate
      | intros ?;
        first [apply with_pg_frame | apply with_mongo_frame
              | apply with_redis_frame]; discriminate ]
    | apply frame_request; [discriminate | intros ?; apply agree_refl]
    | split_branch ].

(** A block that talks to this sink does the same under both patterns. *)
Ltac sim_tac H :=
  repeat first
    [ assumption
    | apply sim_ret
    | apply sim_raise
    | apply sim_bind; [|intros ? ? ? ?]
    | apply sim_effect;
      [ exact H
      | intros ? ? ?;
        first [apply with_pg_agree | apply with_mongo_agree
              | apply with_redis_agree]; assumption
      | ]
    | apply sim_request;
      [ exact H
      | let Hv := fresh in
        intros ? ? Hv; split; [|exact Hv];
        destruct Hv as [Hv _]; simpl in Hv |- *; rewrite Hv; reflexivity
      | ]
    | split_branch ].

Ltac block_tac H :=
  first
    [ apply sim_try_frame; [solve [frame_tac] | solve [frame_tac] | assumption]
    | apply sim_try; solve [sim_tac H] ].

(** What an operation does to a sink depends on the faults of that sink
    only. *)
Lemma perform_sim (f1 f2 : sink -> nat -> bool) (s : sink) (o : operation)
    (w1 w2 : world) :
  (forall k, f1 s k = f2 s k) ->
  agree s w1 w2 ->
  sim s (perform f1 o w1) (perform f2 o w2).
Proof.
  intros H Hw. destruct o; unfold_ops; destruct s;
    repeat first [ block_tac H | apply sim_bind; [|intros [] ? ? ?] ].
Qed.

(** Every operation of the recorder returns normally. *)
Lemma try_except_returns (body : M unit) (msg : str) (w : world) :
  fst (try_except body msg w) = Ok tt.
Proof. unfold try_except. destruct (body w) as [[[]|e] w1]; reflexivity. Qed.

Lemma bind_returns (m : M unit) (k : unit -> M unit) (w : world) :
  (forall v, fst (m v) = Ok tt) -> (forall v, fst (k tt v) = Ok tt) ->
  fst (bind m k w) = Ok tt.
Proof.
  intros Hm Hk. unfold bind. specialize (Hm w).
  destruct (m w) as [[[]|e] w1]; simpl in *; [apply Hk | discriminate].
Qed.

Lemma perform_returns (fails : sink -> nat -> bool) (o : operation)
    (w : world) :
  fst (perform fails o w) = Ok tt.
Proof.
  destruct o; unfold perform, on_call_start, on_user_speech, on_bot_response,
    on_barge_in, on_call_end, mbind, M_bind;
    repeat first [ apply try_except_returns
                 | apply bind_returns; intros ? ].
Qed.

End StorageFacts.

(** What the operations leave in the three sinks when no request raises:
    their writes. *)
Lemma perform_writes (o : Storage.operation) (w : Storage.world) :
  Storage.pg (snd (Storage.perform Storage.no_faults o w))
  = Storage.pg w ++ Storage.relational_writes o /\
  Storage.mongo (snd (Storage.perform Storage.no_faults o w))
  = Storage.mongo w ++ Storage.document_writes o /\
  Storage.redis (snd (Storage.perform Storage.no_faults o w))
  = Storage.ephemeral_writes o (Storage.redis w).
Proof.
  destruct o;
    cbv beta iota zeta delta
      [Storage.perform Storage.on_call_start Storage.on_user_speech
       Storage.on_bot_response Storage.on_barge_in Storage.on_call_end
       Storage.insert_call Storage.finish_call Storage.create_transcription
       Storage.add_segment Storage.add_pipeline_step
       Storage.finish_transcription Storage.create_session
       Storage.update_session Storage.get_session Storage.end_session
       Storage.push_message Storage.publish_event
       Storage.relational_writes Storage.document_writes
       Storage.ephemeral_writes
       mbind Storage.M_bind mret Storage.M_ret Storage.bind Storage.ret
       Storage.raise Storage.try_except Storage.log_error Storage.effect
       Storage.request Storage.no_faults Storage.bump Storage.with_pg
       Storage.with_mongo Storage.with_redis Storage.pg Storage.mongo
       Storage.redis Storage.attempts Storage.errors fst snd truthy].
  all: repeat match goal with
       | |- context [bool_decide ?P] => destruct (bool_decide P)
       | |- context [Storage.int_of_str ?x] => destruct (Storage.int_of_str x)
       | |- context [str_of_int_limited ?x] => destruct (str_of_int_limited x)
       | |- context [Storage.int_of_millis ?x] =>
           destruct (Storage.int_of_millis x)
       | |- context [match ?t with [] => _ | _ :: _ => _ end] =>
           is_var t; destruct t
       end;
    repeat apply conj; rewrite <- ?app_assoc, ?app_nil_r; reflexivity.
Qed.

(** C5: whatever requests to one sink raise, each of the five operations
    returns normally and performs its writes to each of the other sinks:
    the relational sink has got the requests of [relational_writes], the
    document sink those of [document_writes], the ephemeral store is what
    [ephemeral_writes] makes of it, and each of them holds what it holds
    when no request raises at all. *)
Theorem sink_failure_is_isolated (fails : Storage.sink -> nat -> bool)
    (s : Storage.sink) (o : Storage.operation) (w : Storage.world) :
  (forall s' k, s' <> s -> fails s' k = false) ->
  fst (Storage.perform fails o w) = Ok tt /\
  (s <> Storage.Relational ->
   Storage.pg (snd (Storage.perform fails o w))
   = Storage.pg w ++ Storage.relational_writes o) /\
  (s <> Storage.Document ->
   Storage.mongo (snd (Storage.perform fails o w))
   = Storage.mongo w ++ Storage.document_writes o) /\
  (s <> Storage.Ephemeral ->
   Storage.redis (snd (Storage.perform fails o w))
   = Storage.ephemeral_writes o (Storage.redis w)) /\
  forall s', s' <> s ->
    Storage.same_sink s'
      (snd (Storage.perform fails o w))
      (snd (Storage.perform Storage.no_faults o w)).
Proof.
  intros Hother.
  assert (forall s', s' <> s ->
            Storage.same_sink s'
              (snd (Storage.perform fails o w))
              (snd (Storage.perform Storage.no_faults o w))) as Hsame.
  { intros s' Hs'.
    apply (perform_sim fails Storage.no_faults s' o w w).
    - intros k. now apply Hother.
    - apply agree_refl. }
  destruct (perform_writes o w) as (Hpg & Hmongo & Hredis).
  split; [apply perform_returns|].
  repeat split; try assumption.
  - intros Hs. rewrite <- Hpg.
    exact (Hsame Storage.Relational (not_eq_sym Hs)).
  - intros Hs. rewrite <- Hmongo.
    exact (Hsame Storage.Document (not_eq_sym Hs)).
  - intros Hs. rewrite <- Hredis.
    exact (Hsame Storage.Ephemeral (not_eq_sym Hs)).
Qed.

Lemma sink_failure_is_isolated_witness :
  fst (Storage.perform document_down demo_call_start Storage.empty_world)
  = Ok tt /\
  (Storage.Document <> Storage.Relational ->
   Storage.pg (snd (Storage.perform document_down demo_call_start
                      Storage.empty_world))
   = Storage.pg Storage.empty_world
     ++ Storage.relational_writes demo_call_start) /\
  (Storage.Document <> Storage.Document ->
   Storage.mongo (snd (Storage.perform document_down demo_call_start
                         Storage.empty_world))
   = Storage.mongo Storage.empty_world
     ++ Storage.document_writes demo_call_start) /\
  (Storage.Document <> Storage.Ephemeral ->
   Storage.redis (snd (Storage.perform document_down demo_call_start
                         Storage.empty_world))
   = Storage.ephemeral_writes demo_call_start
       (Storage.redis Storage.empty_world)) /\
  forall s', s' <> Storage.Document ->
    Storage.same_sink s'
      (snd (Storage.perform document_down demo_call_start
              Storage.empty_world))
      (snd (Storage.perform Storage.no_faults demo_call_start
              Storage.empty_world)).
Proof.
  apply (sink_failure_is_isolated document_down Storage.Document
           demo_call_start Storage.empty_world).
  intros s' k Hs'. destruct s'; [reflexivity | congruence | reflexivity].
Defined.

(** With the document sink down, the relational and the ephemeral sink
    have got the call all the same, and one error is logged. *)
Example call_start_document_down :
  let w := snd (Storage.perform document_down demo_call_start
                  Storage.empty_world) in
  length (Storage.pg w) = 1%nat /\
  Storage.mongo w = [] /\
  Storage.session_field w (cps "call-0001") (cps "state")
  = Some (cps "active") /\
  length (Storage.published (Storage.redis w)) = 1%nat /\
  length (Storage.errors w) = 1%nat.
Proof. vm_compute. repeat split; reflexivity. Qed.

(** *** The [turns] field of the session hash *)
Section TurnsField.
Import Storage.
Variable fails : sink -> nat -> bool.
Hypothesis redis_up : forall k, fails Ephemeral k = false.

Lemma effect_redis_up (f : world -> world) (w : world) :
  effect fails Ephemeral f w = (Ok tt, f (bump Ephemeral w)).
Proof. unfold effect, request. now rewrite redis_up. Qed.

Lemma hset_field (key field v : str) (mapping : list (str * str))
    (r : redis_state) :
  (forall h : gmap str str,
     foldl (fun h kv => <[fst kv := snd kv]> h) h mapping !! field = Some v) ->
  hashes (hset key mapping r) !! key ≫= (fun h => h !! field) = Some v.
Proof.
  intros Hfold. unfold hset. simpl. rewrite lookup_insert_eq. simpl.
  apply Hfold.
Qed.

Lemma expire_hashes (key : str) (seconds : Z) (r : redis_state) :
  hashes (expire key seconds r) = hashes r.
Proof. unfold expire. destruct (_ || _); reflexivity. Qed.

Lemma create_session_turns (call_id state mode robot_name language
    scenario_id caller : str) (w : world) :
  session_field
    (snd (create_session fails call_id state mode robot_name language
            scenario_id caller w))
    call_id (cps "turns") = Some (cps "0").
Proof.
  unfold create_session, mbind, M_bind, bind.
  rewrite effect_redis_up, effect_redis_up. unfold session_field.
  cbn [snd redis with_redis bump].
  rewrite expire_hashes. apply hset_field. intros h. cbn [foldl fst snd].
  rewrite lookup_insert_ne by (vm_compute; congruence).
  apply lookup_insert_eq.
Qed.

Lemma on_user_speech_turns (now : Z) (call_id text : str)
    (confidence : float) (asr_provider : str) (asr_latency_ms : Z)
    (w : world) :
  session_field
    (snd (on_user_speech fails now call_id text confidence asr_provider
            asr_latency_ms w))
    call_id (cps "turns") = Some (str_of_int asr_latency_ms).
Proof.
  unfold on_user_speech, mbind, M_bind. unfold bind at 1.
  match goal with
  | |- context [try_except ?b ?m w] =>
      pose proof (try_except_returns b m w) as Hret;
      destruct (try_except b m w) as [r w1]
  end.
  simpl in Hret. subst r.
  unfold try_except, push_message, update_session, mbind, M_bind, bind.
  cbn [truthy]. rewrite !effect_redis_up. unfold session_field.
  cbn [snd redis with_redis bump].
  apply hset_field. intros h. cbn [foldl fst snd]. apply lookup_insert_eq.
Qed.

End TurnsField.

(** C10: while the ephemeral sink answers, [create_session] sets the
    [turns] field of the session hash to the string 0, and
    [on_user_speech] overwrites it with the string form of
    [asr_latency_ms]: the field then holds the latency of the last
    utterance, not a count of turns. *)
Theorem user_speech_puts_latency_in_turns (fails : Storage.sink -> nat -> bool)
    (now : Z) (call_id state mode robot_name language scenario_id caller
     text asr_provider : str) (confidence : Storage.float)
    (asr_latency_ms : Z) (w w' : Storage.world) :
  (forall k, fails Storage.Ephemeral k = false) ->
  Storage.session_field
    (snd (Storage.create_session fails call_id state mode robot_name language
            scenario_id caller w))
    call_id (cps "turns") = Some (cps "0") /\
  Storage.session_field
    (snd (Storage.on_user_speech fails now call_id text confidence
            asr_provider asr_latency_ms w'))
    call_id (cps "turns") = Some (str_of_int asr_latency_ms).
Proof.
  intros Hup. split.
  - now apply create_session_turns.
  - now apply on_user_speech_turns.
Qed.

Lemma user_speech_puts_latency_in_turns_witness :
  Storage.session_field
    (snd (Storage.create_session Storage.no_faults (cps "call-0001")
            (cps "active") (cps "pipeline") (cps "demo") (cps "ru") []
            (cps "1000") Storage.empty_world))
    (cps "call-0001") (cps "turns") = Some (cps "0") /\
  Storage.session_field
    (snd (Storage.on_user_speech Storage.no_faults 0 (cps "call-0001")
            (cps "hello") 0%float (cps "yandex") 280
            Storage.empty_world))
    (cps "call-0001") (cps "turns") = Some (str_of_int 280).
Proof.
  apply (user_speech_puts_latency_in_turns Storage.no_faults).
  intros k. reflexivity.
Defined.

(** One utterance recognized in 280 ms on a fresh call: the field reads
    280, where a count of turns would read 1. *)
Example turns_after_one_utterance :
  let w1 := snd (Storage.perform Storage.no_faults demo_call_start
                   Storage.empty_world) in
  let w2 := snd (Storage.on_user_speech Storage.no_faults 0 (cps "call-0001")
                   (cps "hello") 0%float (cps "yandex") 280
                   w1) in
  Storage.session_field w1 (cps "call-0001") (cps "turns") = Some (cps "0") /\
  Storage.session_field w2 (cps "call-0001") (cps "turns") = Some (cps "280").
Proof. vm_compute. split; reflexivity. Qed.

(** ** Sessions: an utterance in which nothing is recognized *)
Section EmptyRecognition.
Import Sessions.

Lemma disturb_keeps (d : disturbance) (s : session) :
  total_turns (disturb d s) = total_turns s /\
  messages (disturb d s) = messages s /\
  transcript (disturb d s) = transcript s /\
  turn_metrics (disturb d s) = turn_metrics s.
Proof. destruct d; repeat split; reflexivity. Qed.

(** The ASR stage on an empty text: the turn has been counted, nothing
    else is recorded, and the handler is told to return. *)
Lemma asr_stage_empty (s : session) (audio_data : bytes) (a : asr_reply) :
  recognized a = Ok [] ->
  asr_stage s audio_data a
  = (disturb (during_asr a) (begin_turn s),
     [Recognize audio_data; LogWarning], None).
Proof. intros Hrec. unfold asr_stage. rewrite Hrec. reflexivity. Qed.

End EmptyRecognition.

(** One turn of each variant: the user's line and the bot's are recorded,
    the sentences are played in order; a barge-in during the first
    sentence cuts the reply short; an unknown file is not played. *)
Example pipeline_turn :
  let '(s1, acts) :=
    Sessions.pipeline_process_speech fresh_session loud_frame
      (hello_env Sessions.Quiet) in
  Sessions.total_turns s1 = 1 /\
  Sessions.transcript s1
  = [Sessions.client_prefix ++ cps "hello";
     Sessions.bot_prefix ++ cps "Hi there. How are you?"] /\
  filter (fun a => Sessions.is_play a = true) acts
  = [Sessions.PlayPcm silent_frame 8000; Sessions.PlayPcm silent_frame 8000].
Proof. vm_compute. repeat split; reflexivity. Qed.

Example pipeline_turn_interrupted :
  let '(s1, acts) :=
    Sessions.pipeline_process_speech fresh_session loud_frame
      (hello_env Sessions.BargeIn) in
  Sessions.transcript s1
  = [Sessions.client_prefix ++ cps "hello";
     Sessions.bot_prefix ++ cps "Hi there."] /\
  Sessions.barge_in_triggered s1 = true.
Proof. vm_compute. split; reflexivity. Qed.

Example script_turn :
  let '(_, s1, acts1) :=
    Sessions.script_process_speech two_tracks fresh_session loud_frame
      (answer_env " 'a.wav' ") in
  let '(_, s2, acts2) :=
    Sessions.script_process_speech two_tracks fresh_session loud_frame
      (answer_env "c.wav") in
  Sessions.transcript s1
  = [Sessions.client_prefix ++ cps "q";
     Sessions.bot_prefix ++ cps "[a.wav]"] /\
  In (Sessions.PlayPcm loud_frame 16000) acts1 /\
  Sessions.transcript s2
  = [Sessions.client_prefix ++ cps "q";
     Sessions.bot_prefix ++ cps "[unknown: c.wav]"] /\
  ~ In (Sessions.PlayPcm loud_frame 16000) acts2.
Proof.
  vm_compute. repeat split; try reflexivity.
  - tauto.
  - intros H. repeat (destruct H as [H|H]; [discriminate|]). exact H.
Qed.

(** C1, as stated, fails: the turn counter is incremented before the
    recognizer is called, so an empty recognition leaves it one higher,
    in the pipeline and in the script variant. *)
Lemma empty_recognition_counts_a_turn :
  Sessions.recognized (Sessions.asr empty_pipeline_env) = Ok [] /\
  Sessions.total_turns fresh_session = 0 /\
  Sessions.total_turns
    (fst (Sessions.pipeline_process_speech fresh_session loud_frame
            empty_pipeline_env)) = 1 /\
  Sessions.total_turns
    (snd (fst (Sessions.script_process_speech ∅ fresh_session loud_frame
                 empty_script_env))) = 1.
Proof. repeat split; reflexivity. Qed.

(** C1, amended: when ASR succeeds with an empty text, [_process_speech]
    of the pipeline and of the script variant logs a warning and returns
    with [total_turns] one higher than before; the dialog context, the
    transcript and the turn metrics are as they were, and nothing but the
    recognizer has been called. *)
Theorem empty_recognition_records_nothing (s : Sessions.session)
    (audio_data : bytes) (penv : Sessions.pipeline_env)
    (tracks : gmap str (bytes * Z)) (senv : Sessions.script_env) :
  Sessions.recognized (Sessions.asr penv) = Ok [] ->
  Sessions.recognized (Sessions.script_asr senv) = Ok [] ->
  let '(s1, acts1) := Sessions.pipeline_process_speech s audio_data penv in
  let '(r2, s2, acts2) :=
    Sessions.script_process_speech tracks s audio_data senv in
  (Sessions.total_turns s1 = Sessions.total_turns s + 1 /\
   Sessions.messages s1 = Sessions.messages s /\
   Sessions.transcript s1 = Sessions.transcript s /\
   Sessions.turn_metrics s1 = Sessions.turn_metrics s /\
   acts1 = [Sessions.Recognize audio_data; Sessions.LogWarning]) /\
  (r2 = Ok tt /\
   Sessions.total_turns s2 = Sessions.total_turns s + 1 /\
   Sessions.messages s2 = Sessions.messages s /\
   Sessions.transcript s2 = Sessions.transcript s /\
   Sessions.turn_metrics s2 = Sessions.turn_metrics s /\
   acts2 = [Sessions.Recognize audio_data; Sessions.LogWarning]).
Proof.
  intros Hp Hs.
  unfold Sessions.pipeline_process_speech, Sessions.script_process_speech.
  rewrite (asr_stage_empty s audio_data _ Hp).
  rewrite (asr_stage_empty s audio_data _ Hs).
  split.
  - destruct (disturb_keeps (Sessions.during_asr (Sessions.asr penv))
                (Sessions.begin_turn s)) as (-> & -> & -> & ->).
    repeat split; reflexivity.
  - destruct (disturb_keeps (Sessions.during_asr (Sessions.script_asr senv))
                (Sessions.begin_turn s)) as (-> & -> & -> & ->).
    repeat split; reflexivity.
Qed.

Lemma empty_recognition_records_nothing_witness :
  let '(s1, acts1) :=
    Sessions.pipeline_process_speech fresh_session loud_frame
      empty_pipeline_env in
  let '(r2, s2, acts2) :=
    Sessions.script_process_speech ∅ fresh_session loud_frame
      empty_script_env in
  (Sessions.total_turns s1 = Sessions.total_turns fresh_session + 1 /\
   Sessions.messages s1 = Sessions.messages fresh_session /\
   Sessions.transcript s1 = Sessions.transcript fresh_session /\
   Sessions.turn_metrics s1 = Sessions.turn_metrics fresh_session /\
   acts1 = [Sessions.Recognize loud_frame; Sessions.LogWarning]) /\
  (r2 = Ok tt /\
   Sessions.total_turns s2 = Sessions.total_turns fresh_session + 1 /\
   Sessions.messages s2 = Sessions.messages fresh_session /\
   Sessions.transcript s2 = Sessions.transcript fresh_session /\
   Sessions.turn_metrics s2 = Sessions.turn_metrics fresh_session /\
   acts2 = [Sessions.Recognize loud_frame; Sessions.LogWarning]).
Proof.
  apply (empty_recognition_records_nothing fresh_session loud_frame
           empty_pipeline_env ∅ empty_script_env); reflexivity.
Defined.

(** ** Audio: packing, unpacking and what downsample computes *)
Section PackFacts.
Import Audio.

Lemma byte_to_of_Z (z : Z) : byte_to_Z (byte_of_Z z) = z mod 256.
Proof.
  unfold byte_to_Z, byte_of_Z.
  assert (Hb : 0 <= z mod 256 < 256) by (apply Z.mod_pos_bound; lia).
  destruct (Byte.of_N (Z.to_N (z mod 256))) as [b|] eqn:Hof.
  - apply Byte.to_of_N in Hof. rewrite Hof. lia.
  - apply Byte.of_N_None_iff in Hof. lia.
Qed.

Lemma byte_of_to_Z (b : byte) : byte_of_Z (byte_to_Z b) = b.
Proof.
  unfold byte_to_Z, byte_of_Z.
  pose proof (Byte.to_N_bounded b) as Hb.
  rewrite Z.mod_small by lia. rewrite N2Z.id, Byte.of_to_N. reflexivity.
Qed.

Lemma byte_to_Z_bounds (b : byte) : 0 <= byte_to_Z b < 256.
Proof. unfold byte_to_Z. pose proof (Byte.to_N_bounded b). lia. Qed.

(** The sample two bytes spell. *)
Lemma sample_in_range (lo hi : byte) :
  in_range16 (let u := byte_to_Z lo + 256 * byte_to_Z hi in
              if 32768 <=? u then u - 65536 else u).
Proof.
  pose proof (byte_to_Z_bounds lo). pose proof (byte_to_Z_bounds hi).
  unfold in_range16. simpl. destruct (Z.leb_spec 32768 (byte_to_Z lo + 256 * byte_to_Z hi)); lia.
Qed.

Lemma unpack_h_in_range (data : bytes) : Forall in_range16 (unpack_h data).
Proof.
  induction data as [data IH] using (induction_ltof1 _ (@length byte)).
  unfold ltof in IH.
  destruct data as [|lo [|hi rest]]; simpl; try constructor.
  - apply sample_in_range.
  - apply IH. simpl. lia.
Qed.

Lemma unpack_h_length (data : bytes) :
  Z.of_nat (length (unpack_h data)) = Z.of_nat (length data) / 2.
Proof.
  induction data as [data IH] using (induction_ltof1 _ (@length byte)).
  unfold ltof in IH.
  destruct data as [|lo [|hi rest]]; simpl length.
  - reflexivity.
  - reflexivity.
  - specialize (IH rest). simpl in IH.
    replace (Z.of_nat (S (S (length rest)))) with (Z.of_nat (length rest) + 1 * 2) by lia.
    rewrite Z.div_add by lia. simpl. rewrite Nat2Z.inj_succ, IH; simpl; lia.
Qed.

Lemma unpack_pack_bytes (samples : list Z) :
  Forall in_range16 samples -> unpack_h (pack_h samples) = samples.
Proof.
  induction 1 as [|v samples Hv _ IH]; simpl; [reflexivity|].
  rewrite IH. f_equal.
  rewrite !byte_to_of_Z. unfold in_range16 in Hv.
  destruct (Z.leb_spec 32768 (v mod 256 + 256 * ((v / 256) mod 256)));
    Z.div_mod_to_equations; lia.
Qed.

Lemma byte_of_Z_mod (z : Z) (b : byte) :
  z mod 256 = byte_to_Z b -> byte_of_Z z = b.
Proof.
  intros H. unfold byte_of_Z. rewrite H. unfold byte_to_Z.
  rewrite N2Z.id, Byte.of_to_N. reflexivity.
Qed.

Lemma pack_unpack_pair (lo hi : byte) (rest : list Z) :
  pack_h ((let u := byte_to_Z lo + 256 * byte_to_Z hi in
           if 32768 <=? u then u - 65536 else u) :: rest)
  = lo :: hi :: pack_h rest.
Proof.
  pose proof (byte_to_Z_bounds lo) as Hlo.
  pose proof (byte_to_Z_bounds hi) as Hhi.
  simpl. f_equal; [|f_equal]; apply byte_of_Z_mod;
    destruct (Z.leb_spec 32768 (byte_to_Z lo + 256 * byte_to_Z hi));
    Z.div_mod_to_equations; lia.
Qed.

(** Unpacking bytes and packing the samples gives the bytes back, without
    the odd byte at the end if there is one. *)
Lemma pack_unpack_bytes (data : bytes) :
  pack_h (unpack_h data) = take (2 * (length data / 2)) data.
Proof.
  induction data as [data IH] using (induction_ltof1 _ (@length byte)).
  unfold ltof in IH.
  destruct data as [|lo [|hi rest]].
  - reflexivity.
  - reflexivity.
  - change (unpack_h (lo :: hi :: rest)) with
      ((let u := byte_to_Z lo + 256 * byte_to_Z hi in
        if 32768 <=? u then u - 65536 else u) :: unpack_h rest).
    rewrite pack_unpack_pair, IH by (simpl; lia).
    replace (length (lo :: hi :: rest)) with (length rest + 1 * 2)%nat
      by (simpl; lia).
    rewrite Nat.div_add by lia.
    replace (2 * (length rest / 2 + 1))%nat
      with (S (S (2 * (length rest / 2)))) by lia.
    reflexivity.
Qed.

End PackFacts.

(** X1: packing samples that fit 16 bits and unpacking the bytes gives the
    samples back. *)
Theorem unpack_pack_samples (samples : list Z) :
  Forall Audio.in_range16 samples ->
  Audio.unpack_h (Audio.pack_h samples) = samples.
Proof. apply unpack_pack_bytes. Qed.

Lemma unpack_pack_samples_witness :
  Audio.unpack_h (Audio.pack_h [-32768; -1; 0; 1000; 32767])
  = [-32768; -1; 0; 1000; 32767].
Proof.
  apply (unpack_pack_samples [-32768; -1; 0; 1000; 32767]).
  repeat constructor; unfold Audio.in_range16; simpl; lia.
Defined.

Section DownsampleFacts.
Import Audio.

Lemma sum_Z_bounds (l : list Z) :
  Forall in_range16 l ->
  -32768 * Z.of_nat (length l) <= sum_Z l <= 32767 * Z.of_nat (length l).
Proof.
  induction 1 as [|v l Hv _ IH]; simpl; [lia|].
  unfold in_range16 in Hv. unfold sum_Z in *. simpl. lia.
Qed.

Lemma slice_in_range (samples : list Z) (i j : Z) :
  Forall in_range16 samples -> Forall in_range16 (slice samples i j).
Proof.
  intros H. unfold slice. apply Forall_take, Forall_drop, H.
Qed.

Lemma slice_length (samples : list Z) (i ratio : Z) :
  0 <= i -> 0 <= ratio -> i + ratio <= Z.of_nat (length samples) ->
  Z.of_nat (length (slice samples i (i + ratio))) = ratio.
Proof.
  intros Hi Hr Hfit. unfold slice. rewrite length_take, length_drop. lia.
Qed.

(** The start of every group lies so that the whole group is inside. *)
Lemma py_range_elem (n ratio i : Z) :
  1 <= ratio -> In i (py_range 0 (n - ratio + 1) ratio) ->
  0 <= i /\ i + ratio <= n.
Proof.
  intros Hr. unfold py_range.
  destruct (Z.leb_spec (n - ratio + 1) 0) as [|Hpos]; [intros []|].
  rewrite in_map_iff. intros (k & <- & Hk%in_seq).
  replace (n - ratio + 1 - 0 + ratio - 1) with n in Hk by lia.
  assert (Z.of_nat k < n / ratio).
  { assert (0 <= n / ratio) by (apply Z.div_pos; lia). lia. }
  assert (ratio * (n / ratio) <= n) by (apply Z.mul_div_le; lia).
  nia.
Qed.

Lemma group_mean_in_range (samples : list Z) (ratio i : Z) :
  Forall in_range16 samples -> 1 <= ratio ->
  0 <= i -> i + ratio <= Z.of_nat (length samples) ->
  in_range16 (group_mean samples ratio i).
Proof.
  intros Hs Hr Hi Hfit. unfold group_mean, in_range16.
  pose proof (sum_Z_bounds _ (slice_in_range samples i (i + ratio) Hs)) as Hb.
  rewrite slice_length in Hb by lia.
  split.
  - apply Z.div_le_lower_bound; lia.
  - apply Z.div_le_upper_bound; lia.
Qed.

Lemma clamp16_in_range (v : Z) : in_range16 (clamp16 v).
Proof. unfold clamp16, in_range16. lia. Qed.

Lemma clamp16_id (v : Z) : in_range16 v -> clamp16 v = v.
Proof. unfold clamp16, in_range16. lia. Qed.

End DownsampleFacts.

(** X2: when it resamples, downsample never saturates: each output sample
    is exactly the floored mean of its group of [ratio] input samples,
    and the output holds one sample for each whole group. *)
Theorem downsample_exact_means (data : bytes) (from_rate to_rate : Z) :
  0 < to_rate -> to_rate < from_rate ->
  exists out,
    Audio.downsample data from_rate to_rate = Ok out /\
    Audio.unpack_h out =
    map (Audio.group_mean (Audio.unpack_h data) (from_rate / to_rate))
        (Audio.py_range 0
           (Z.of_nat (length data) / 2 - from_rate / to_rate + 1)
           (from_rate / to_rate)).
Proof.
  intros Hto Hlt. unfold Audio.downsample.
  destruct (Z.eqb_spec from_rate to_rate) as [->|_]; [lia|].
  destruct (Z.eqb_spec to_rate 0) as [->|_]; [lia|].
  assert (Hratio : 1 <= from_rate / to_rate).
  { apply Z.div_le_lower_bound; lia. }
  destruct (Z.ltb_spec (from_rate / to_rate) 1) as [Hbad|_]; [lia|].
  eexists; split; [reflexivity|].
  rewrite unpack_pack_bytes.
  - apply map_ext_in. intros i Hi.
    apply py_range_elem in Hi as [Hi0 Hi1]; [|assumption].
    apply clamp16_id, group_mean_in_range; try assumption.
    + apply unpack_h_in_range.
    + rewrite unpack_h_length. exact Hi1.
  - apply Forall_forall. intros v Hv.
    apply list_elem_of_In, in_map_iff in Hv as (i & <- & _).
    apply clamp16_in_range.
Qed.

Lemma downsample_exact_means_witness :
  exists out,
    Audio.downsample [x64; x00; xc8; x00; x2c; x01; x90; x01] 16000 8000
    = Ok out /\
    Audio.unpack_h out =
    map (Audio.group_mean
           (Audio.unpack_h [x64; x00; xc8; x00; x2c; x01; x90; x01])
           (16000 / 8000))
        (Audio.py_range 0 (Z.of_nat 8 / 2 - 16000 / 8000 + 1) (16000 / 8000)).
Proof.
  apply (downsample_exact_means
           [x64; x00; xc8; x00; x2c; x01; x90; x01] 16000 8000); lia.
Defined.

Section RatioOne.
Import Audio.

Lemma singleton_groups (l : list Z) :
  forall pre : list Z,
    map (fun k => clamp16 (sum_Z (slice (pre ++ l) (0 + Z.of_nat k * 1)
                                    (0 + Z.of_nat k * 1 + 1)) / 1))
        (seq (length pre) (length l))
    = map clamp16 l.
Proof.
  induction l as [|x l IH]; intros pre; simpl; [reflexivity|].
  f_equal.
  - unfold slice.
    replace (Z.to_nat (0 + Z.of_nat (length pre) * 1 + 1
                       - (0 + Z.of_nat (length pre) * 1))) with 1%nat by lia.
    replace (Z.to_nat (0 + Z.of_nat (length pre) * 1)) with (length pre) by lia.
    rewrite drop_app_length. simpl. rewrite Z.div_1_r. f_equal. lia.
  - specialize (IH (pre ++ [x])).
    rewrite <- app_assoc, length_app in IH. simpl in IH.
    rewrite Nat.add_1_r in IH. exact IH.
Qed.

End RatioOne.

(** X3: between two rates less than a factor two apart the ratio is 1 and
    nothing is resampled: downsample returns its input as it is, without
    the odd last byte if there is one. *)
Theorem downsample_ratio_one (data : bytes) (from_rate to_rate : Z) :
  0 < to_rate -> to_rate < from_rate -> from_rate < 2 * to_rate ->
  Audio.downsample data from_rate to_rate
  = Ok (take (2 * (length data / 2)) data).
Proof.
  intros Hto Hlt Hlt2. unfold Audio.downsample.
  destruct (Z.eqb_spec from_rate to_rate) as [->|_]; [lia|].
  destruct (Z.eqb_spec to_rate 0) as [->|_]; [lia|].
  assert (Hratio : from_rate / to_rate = 1).
  { symmetry. apply (Z.div_unique from_rate to_rate 1 (from_rate - to_rate)); lia. }
  rewrite Hratio. simpl (1 <? 1). cbv iota.
  f_equal. rewrite <- pack_unpack_bytes. f_equal.
  unfold Audio.py_range.
  pose proof (unpack_h_length data) as Hlen.
  destruct (Z.leb_spec (Z.of_nat (length data) / 2 - 1 + 1) 0) as [Hnone|Hsome].
  - destruct (Audio.unpack_h data); [reflexivity | simpl in Hlen; lia].
  - rewrite map_map.
    replace (Z.to_nat ((Z.of_nat (length data) / 2 - 1 + 1 - 0 + 1 - 1) / 1))
      with (length (Audio.unpack_h data))
      by (rewrite Z.div_1_r; lia).
    pose proof (singleton_groups (Audio.unpack_h data) []) as Hone.
    simpl in Hone. rewrite Hone.
    rewrite <- (map_id (Audio.unpack_h data)) at 2.
    apply map_ext_in. intros v Hv. apply clamp16_id.
    pose proof (unpack_h_in_range data) as Hall.
    rewrite Forall_forall in Hall. apply Hall, list_elem_of_In, Hv.
Qed.

Lemma downsample_ratio_one_witness :
  Audio.downsample [x64; x00; xc8; x00; x2c] 12000 8000
  = Ok (take (2 * (length [x64; x00; xc8; x00; x2c] / 2))
             [x64; x00; xc8; x00; x2c]).
Proof.
  apply (downsample_ratio_one [x64; x00; xc8; x00; x2c] 12000 8000); lia.
Defined.

(** ** Energy VAD: utterances, trailing silence, barge-in *)
Section VADMore.
Import VAD.
Variable cfg : config.

Lemma feed_all_app (pre more : list bytes) :
  feed_all cfg (pre ++ more)
  = foldl (fun st f => fst (feed cfg st f)) (feed_all cfg pre) more.
Proof. unfold feed_all. apply foldl_app. Qed.

(** [speech_end] leaves the detector as it was created. *)
Lemma feed_end_resets (st st' : state) (f audio : bytes) :
  feed cfg st f = (st', SpeechEnd audio) -> st' = init.
Proof.
  unfold feed, reset. repeat case_match; intros [= <-]; try discriminate.
  reflexivity.
Qed.

Ltac reassoc :=
  repeat (rewrite <- ?app_assoc, ?concat_app, ?app_nil_r; simpl);
  try reflexivity.

Lemma last_snoc_default (mid : list bytes) (f g : bytes) :
  List.last (mid ++ [f]) g = f.
Proof. apply last_last. Qed.

Lemma silence_inv_step (pre : list bytes) (f : bytes) :
  silence_inv cfg pre (feed_all cfg pre) ->
  silence_inv cfg (pre ++ [f]) (feed_all cfg (pre ++ [f])).
Proof.
  intros Hinv. rewrite feed_all_snoc. unfold silence_inv in *.
  unfold feed, reset, init.
  destruct (loud cfg f) eqn:Hloud.
  - destruct (is_speaking (feed_all cfg pre)) eqn:Hsp; simpl.
    + intros _.
      destruct (Hinv eq_refl)
        as (pre1 & g & mid & tail & -> & Hg & Hlast & Hq & Hsc & Hlt & Hbuf).
      exists pre1, g, (mid ++ tail ++ [f]), []. simpl.
      rewrite !app_nil_r. repeat split; auto.
      * reassoc.
      * now rewrite app_assoc, last_snoc_default.
      * rewrite Hbuf. reassoc.
    + destruct (min_speech_frames cfg <=? _); simpl; [|discriminate].
      intros _. exists pre, f, [], []. simpl.
      rewrite !app_nil_r. repeat split; auto.
  - destruct (is_speaking (feed_all cfg pre)) eqn:Hsp; simpl; [|discriminate].
    destruct (Z.leb_spec (silence_frames cfg)
                (silence_count (feed_all cfg pre) + 1)) as [Hend|Hgo];
      simpl; [discriminate|].
    intros _.
    destruct (Hinv eq_refl)
      as (pre1 & g & mid & tail & -> & Hg & Hlast & Hq & Hsc & Hlt & Hbuf).
    exists pre1, g, mid, (tail ++ [f]). repeat split; auto.
    + reassoc.
    + apply Forall_app. split; [assumption|]. now constructor.
    + rewrite length_app. simpl. lia.
    + rewrite Hbuf. reassoc.
Qed.

Lemma silence_inv_holds (pre : list bytes) :
  silence_inv cfg pre (feed_all cfg pre).
Proof.
  induction pre as [|f pre IH] using rev_ind.
  - intros Hsp. discriminate.
  - apply silence_inv_step, IH.
Qed.

Lemma trailing_run_snoc (p : bytes -> bool) (frames : list bytes) (f : bytes) :
  trailing_run p (frames ++ [f])
  = if p f then S (trailing_run p frames) else O.
Proof. unfold trailing_run. rewrite rev_app_distr. reflexivity. Qed.

Lemma barge_all_snoc (st : state) (frames : list bytes) (f : bytes) :
  barge_all cfg st (frames ++ [f])
  = fst (check_barge_in cfg (barge_all cfg st frames) f).
Proof. unfold barge_all. rewrite foldl_app. reflexivity. Qed.

(** [check_barge_in] keeps in [speech_count] the length of the run of loud
    frames it has just seen. *)
Lemma barge_all_count (st : state) (frames : list bytes) :
  enabled cfg = true -> speech_count st = 0 ->
  speech_count (barge_all cfg st frames)
  = Z.of_nat (trailing_run (loud cfg) frames).
Proof.
  intros Hen Hzero. induction frames as [|f frames IH] using rev_ind.
  - exact Hzero.
  - rewrite barge_all_snoc, trailing_run_snoc. unfold check_barge_in.
    rewrite Hen. simpl. destruct (loud cfg f); simpl; lia.
Qed.

(** Fed to a speaking detector, frames are appended to its buffer until
    the first [speech_end], which carries them all. *)
Lemma speaking_run_audio (fs : list bytes) :
  forall (st : state) (evs : list event) (audio : bytes),
    is_speaking st = true ->
    trace cfg st (map Feed fs) = evs ++ [SpeechEnd audio] ->
    (forall a, ~ In (SpeechEnd a) evs) ->
    audio = audio_buffer st ++ concat fs.
Proof.
  induction fs as [|f fs IH]; intros st evs audio Hsp Htr Hno.
  - destruct evs; discriminate.
  - simpl in Htr. destruct (feed cfg st f) as [st' ev] eqn:Hfeed.
    simpl in Htr.
    assert (Hcases :
      (ev = SpeechEnd (audio_buffer st ++ f)) \/
      (ev = Speaking /\ is_speaking st' = true /\
       audio_buffer st' = audio_buffer st ++ f)).
    { revert Hfeed. unfold feed, reset, init. rewrite Hsp. simpl.
      repeat case_match; intros [= <- <-]; auto. }
    destruct Hcases as [->|(-> & Hsp' & Hbuf)].
    + destruct evs as [|e evs].
      * simpl in Htr. injection Htr as <- Hnil.
        destruct fs as [|b fs];
          [|simpl in Hnil; destruct (feed cfg st' b); discriminate].
        simpl. now rewrite app_nil_r.
      * injection Htr as <- _. exfalso. apply (Hno (audio_buffer st ++ f)).
        now left.
    + destruct evs as [|e evs]; [discriminate|].
      injection Htr as <- Htr.
      rewrite (IH st' evs audio Hsp' Htr).
      * rewrite Hbuf. simpl. now rewrite app_assoc.
      * intros a Ha. apply (Hno a). now right.
Qed.

End VADMore.

(** X4: a [speech_end] leaves the detector as new, so the frames after an
    utterance are judged as by a fresh detector: what was fed before the
    end of the utterance has no influence. *)
Theorem detector_fresh_after_speech_end (cfg : VAD.config)
    (pre more : list bytes) (f g audio : bytes) :
  VAD.emits cfg pre f = VAD.SpeechEnd audio ->
  VAD.emits cfg (pre ++ f :: more) g = VAD.emits cfg more g.
Proof.
  intros Hend. unfold VAD.emits in *.
  replace (pre ++ f :: more) with ((pre ++ [f]) ++ more)
    by now rewrite <- app_assoc.
  rewrite feed_all_app, feed_all_snoc.
  destruct (VAD.feed cfg (VAD.feed_all cfg pre) f) as [st' ev] eqn:Hfeed.
  simpl in Hend. subst ev. apply feed_end_resets in Hfeed as ->.
  reflexivity.
Qed.

Lemma detector_fresh_after_speech_end_witness :
  VAD.emits strict_cfg ([loud_frame; loud_frame] ++ silent_frame :: [loud_frame])
    loud_frame
  = VAD.emits strict_cfg [loud_frame] loud_frame.
Proof.
  apply (detector_fresh_after_speech_end strict_cfg [loud_frame; loud_frame]
           [loud_frame] silent_frame loud_frame (loud_frame ++ silent_frame)).
  reflexivity.
Defined.

(** X5: the audio of a [speech_end] ends with the trailing silence: after
    a loud frame come exactly [max(1, silence_frames)] frames at or below
    the threshold, the last of them the frame that ended the speech. *)
Theorem speech_end_trailing_silence (cfg : VAD.config) (pre : list bytes)
    (f audio : bytes) :
  VAD.emits cfg pre f = VAD.SpeechEnd audio ->
  exists pre1 g mid tail,
    pre ++ [f] = pre1 ++ g :: mid ++ tail /\
    VAD.loud cfg (List.last mid g) = true /\
    Forall (fun q => VAD.loud cfg q = false) tail /\
    Z.of_nat (length tail) = Z.max 1 (VAD.silence_frames cfg) /\
    audio = g ++ concat mid ++ concat tail.
Proof.
  unfold VAD.emits, VAD.feed. intros Hend.
  destruct (VAD.loud cfg f) eqn:Hloud;
    destruct (VAD.is_speaking (VAD.feed_all cfg pre)) eqn:Hsp;
    simpl in Hend; repeat case_match; try discriminate.
  injection Hend as <-.
  destruct (silence_inv_holds cfg pre Hsp)
    as (pre1 & g & mid & tail & -> & Hg & Hlast & Hq & Hsc & Hlt & Hbuf).
  exists pre1, g, mid, (tail ++ [f]). repeat split; auto.
  - repeat (rewrite <- ?app_assoc; simpl). reflexivity.
  - apply Forall_app. split; [assumption|]. now constructor.
  - rewrite length_app. simpl.
    match goal with H : (_ <=? _) = true |- _ => apply Z.leb_le in H end.
    lia.
  - rewrite Hbuf.
    repeat (rewrite <- ?app_assoc, ?concat_app, ?app_nil_r; simpl).
    reflexivity.
Qed.

Lemma speech_end_trailing_silence_witness :
  exists pre1 g mid tail,
    [loud_frame; loud_frame] ++ [silent_frame] = pre1 ++ g :: mid ++ tail /\
    VAD.loud strict_cfg (List.last mid g) = true /\
    Forall (fun q => VAD.loud strict_cfg q = false) tail /\
    Z.of_nat (length tail) = Z.max 1 (VAD.silence_frames strict_cfg) /\
    loud_frame ++ silent_frame = g ++ concat mid ++ concat tail.
Proof.
  apply (speech_end_trailing_silence strict_cfg [loud_frame; loud_frame]
           silent_frame).
  reflexivity.
Defined.

(** X6: with a threshold that is not negative, a detector that is speaking
    after any sequence of [feed] calls holds at least one sample in its
    buffer. *)
Theorem speaking_buffer_not_empty (cfg : VAD.config) (pre : list bytes) :
  0 <= VAD.energy_threshold cfg ->
  VAD.is_speaking (VAD.feed_all cfg pre) = true ->
  (2 <= length (VAD.audio_buffer (VAD.feed_all cfg pre)))%nat.
Proof.
  intros Hthr Hsp.
  destruct (buffer_inv_holds cfg pre Hsp) as (pre1 & g & blk & _ & _ & Hg & ->).
  pose proof (loud_frame_length cfg g Hthr Hg). rewrite length_app. lia.
Qed.

Lemma speaking_buffer_not_empty_witness :
  (2 <= length (VAD.audio_buffer
                  (VAD.feed_all strict_cfg [loud_frame; loud_frame])))%nat.
Proof.
  apply (speaking_buffer_not_empty strict_cfg [loud_frame; loud_frame]).
  - simpl. lia.
  - reflexivity.
Defined.

(** X7: an enabled detector whose counter is at zero reports a barge-in on
    a frame exactly when that frame is loud and completes a run of at
    least [min_speech_frames] loud frames in a row. *)
Theorem barge_in_after_loud_run (cfg : VAD.config) (st : VAD.state)
    (frames : list bytes) (f : bytes) :
  VAD.enabled cfg = true -> VAD.speech_count st = 0 ->
  snd (VAD.check_barge_in cfg (VAD.barge_all cfg st frames) f)
  = VAD.loud cfg f &&
    (VAD.min_speech_frames cfg
     <=? Z.of_nat (VAD.trailing_run (VAD.loud cfg) (frames ++ [f]))).
Proof.
  intros Hen Hzero. unfold VAD.check_barge_in. rewrite Hen. simpl.
  rewrite trailing_run_snoc.
  rewrite (barge_all_count cfg st frames Hen Hzero).
  destruct (VAD.loud cfg f); simpl; [|reflexivity].
  f_equal. lia.
Qed.

Lemma barge_in_after_loud_run_witness :
  snd (VAD.check_barge_in strict_cfg
         (VAD.barge_all strict_cfg VAD.init [silent_frame; loud_frame])
         loud_frame)
  = VAD.loud strict_cfg loud_frame &&
    (VAD.min_speech_frames strict_cfg
     <=? Z.of_nat (VAD.trailing_run (VAD.loud strict_cfg)
                     ([silent_frame; loud_frame] ++ [loud_frame]))).
Proof.
  apply (barge_in_after_loud_run strict_cfg VAD.init
           [silent_frame; loud_frame] loud_frame); reflexivity.
Defined.

(** X8: the frame that interrupted is not lost: after
    [start_listening_after_barge_in(g)] the first [speech_end] that
    [feed] emits carries [g] followed by every frame fed since. *)
Theorem barge_in_frame_kept (cfg : VAD.config) (st : VAD.state)
    (g : bytes) (fs : list bytes) (evs : list VAD.event) (audio : bytes) :
  VAD.trace cfg st (VAD.StartListening g :: map VAD.Feed fs)
  = evs ++ [VAD.SpeechEnd audio] ->
  (forall a, ~ In (VAD.SpeechEnd a) evs) ->
  audio = g ++ concat fs.
Proof.
  simpl. intros Htr Hno.
  apply (speaking_run_audio cfg fs
           (VAD.start_listening_after_barge_in st g) evs audio);
    [reflexivity | exact Htr | exact Hno].
Qed.

Lemma barge_in_frame_kept_witness :
  loud_frame ++ loud_frame ++ silent_frame
  = loud_frame ++ concat [loud_frame; silent_frame].
Proof.
  apply (barge_in_frame_kept strict_cfg VAD.init loud_frame
           [loud_frame; silent_frame] [VAD.Speaking]).
  - reflexivity.
  - intros a [H|[]]. discriminate.
Defined.

(** ** Playback controller: scratch files and the wait *)
Section PlaybackMore.
Import Playback.

Lemma saved_paths_app (e1 e2 : list io_event) :
  saved_paths (e1 ++ e2) = saved_paths e1 ++ saved_paths e2.
Proof. apply omap_app. Qed.

Lemma leftover_app (fs : gset str) (e1 e2 : list io_event) :
  leftover fs (e1 ++ e2) = leftover (leftover fs e1) e2.
Proof. apply foldl_app. Qed.

Lemma bystander_refl (p : fsplayback) : bystander p p [].
Proof. repeat split. Qed.

Lemma bystander_trans (p1 p2 p3 : fsplayback) (e1 e2 : list io_event) :
  bystander p1 p2 e1 -> bystander p2 p3 e2 -> bystander p1 p3 (e1 ++ e2).
Proof.
  intros (A1 & A2 & A3 & A4 & A5) (B1 & B2 & B3 & B4 & B5).
  repeat split; try congruence.
  - now rewrite saved_paths_app, A4, B4.
  - intros fs. now rewrite leftover_app, A5, B5.
Qed.

Lemma stop_bystander (p : fsplayback) (ok : bool) :
  bystander p (fst (stop p ok)) (snd (stop p ok)).
Proof. unfold stop. repeat case_match; repeat split. Qed.

Lemma interfere_bystander (cs : list concurrent) :
  forall p, bystander p (fst (interfere p cs)) (snd (interfere p cs)).
Proof.
  induction cs as [|c cs IH]; intros p; simpl; [apply bystander_refl|].
  destruct (interfere_one p c) as [p1 e1] eqn:H1.
  specialize (IH p1). destruct (interfere p1 cs) as [p2 e2]. simpl in *.
  apply (bystander_trans p p1 p2); [|exact IH].
  destruct c as [ok|]; simpl in H1.
  - pose proof (stop_bystander p ok) as Hs. now rewrite H1 in Hs.
  - injection H1 as <- <-. repeat split.
Qed.

Lemma wait_loop_bystander (env : play_env) (duration_ms : Z) (fuel : nat) :
  forall (tick : nat) (elapsed : Z) (p : fsplayback),
    bystander p (fst (wait_loop fuel env tick elapsed duration_ms p))
                (snd (wait_loop fuel env tick elapsed duration_ms p)).
Proof.
  induction fuel as [|fuel IH]; intros tick elapsed p; simpl;
    [apply bystander_refl|].
  destruct (_ && _ && _); [|apply bystander_refl].
  pose proof (interfere_bystander (during_sleep env tick) p) as H1.
  destruct (interfere p (during_sleep env tick)) as [p1 e1].
  specialize (IH (S tick) (elapsed + 50) p1).
  destruct (wait_loop fuel env (S tick) (elapsed + 50) duration_ms p1)
    as [p2 e2]. simpl in *.
  pose proof (bystander_trans p p1 p2 e1 e2 H1 IH) as (A1 & A2 & A3 & A4 & A5).
  repeat split; auto.
Qed.

(** The [try] block neither writes nor removes a scratch file. *)
Lemma play_try_bystander (p : fsplayback) (env : play_env) (wav_path : str)
    (duration_ms : Z) :
  bystander (set_is_playing false p)
            (set_is_playing false
               (snd (fst (play_try p env wav_path duration_ms))))
            (snd (play_try p env wav_path duration_ms)).
Proof.
  unfold play_try.
  pose proof (interfere_bystander (during_broadcast env) p) as H1.
  destruct (interfere p (during_broadcast env)) as [p1 e1]. simpl in H1.
  destruct (broadcast env) as [stdout|e]; [destruct (negb _)|].
  - destruct H1 as (A1 & A2 & A3 & A4 & A5). repeat split; auto.
  - pose proof (wait_loop_bystander env duration_ms (wait_fuel duration_ms)
                  0%nat 0 p1) as H2.
    destruct (wait_loop _ _ _ _ _ _) as [p2 e2]. simpl in *.
    pose proof (bystander_trans p p1 p2 e1 e2 H1 H2)
      as (A1 & A2 & A3 & A4 & A5).
    repeat split; auto.
  - destruct H1 as (A1 & A2 & A3 & A4 & A5). repeat split; auto.
    + simpl. now rewrite saved_paths_app, A4.
    + intros fs. simpl. now rewrite leftover_app, A5.
Qed.

(** One call: it writes no file, or the file numbered by the counter,
    which it then advances. *)
Lemma do_call_saves (p : fsplayback) (c : call) :
  call_id (fst (do_call p c)) = call_id p /\
  ((file_counter (fst (do_call p c)) = file_counter p /\
    saved_paths (snd (do_call p c)) = []) \/
   (file_counter (fst (do_call p c)) = file_counter p + 1 /\
    saved_paths (snd (do_call p c)) = [wav_path_of p (file_counter p)])).
Proof.
  destruct c as [pcm rate env|ok|]; simpl.
  - unfold play_pcm.
    destruct (negb (truthy pcm) || negb (has_uuid p)); simpl; [auto|].
    destruct (resample_returns pcm rate) as [pcm8 ->].
    destruct (negb (save_wav_ok env)); simpl; [auto|].
    pose proof (play_try_bystander
      (set_is_playing true (set_file_counter (file_counter p + 1) p))
      env (wav_path_of p (file_counter p))
      (Z.of_nat (length pcm8) / 16)) as (A1 & A2 & A3 & A4 & A5).
    destruct (play_try _ _ _ _) as [[r p3] evs]. simpl in *.
    split; [assumption|]. right. split; [assumption|].
    unfold saved_paths in *. simpl. rewrite omap_app, A4. reflexivity.
  - destruct (stop_bystander p ok) as (A1 & A2 & A3 & A4 & A5). auto.
  - auto.
Qed.

Lemma wav_path_of_call_id (p q : fsplayback) (idx : Z) :
  call_id p = call_id q -> wav_path_of p idx = wav_path_of q idx.
Proof. unfold wav_path_of. now intros ->. Qed.

Lemma run_trace_saves (cs : list call) :
  forall p,
    file_counter p <= file_counter (run p cs) /\
    saved_paths (run_trace p cs)
    = map (fun k => wav_path_of p (file_counter p + Z.of_nat k))
          (seq 0 (Z.to_nat (file_counter (run p cs) - file_counter p))).
Proof.
  induction cs as [|c cs IH]; intros p; simpl.
  - rewrite Z.sub_diag. split; [lia | reflexivity].
  - destruct (do_call_saves p c) as [Hid Hcase].
    destruct (do_call p c) as [p' evs] eqn:Hcall. simpl in *.
    destruct (IH p') as [Hle Hpaths].
    rewrite saved_paths_app, Hpaths.
    destruct Hcase as [[Hc ->]|[Hc ->]]; rewrite Hc in *.
    + split; [lia|]. simpl. apply map_ext. intros k.
      now apply wav_path_of_call_id.
    + split; [lia|].
      replace (Z.to_nat (file_counter (run p' cs) - file_counter p))
        with (S (Z.to_nat (file_counter (run p' cs) - (file_counter p + 1))))
        by lia.
      simpl. f_equal; [f_equal; lia|].
      rewrite <- seq_shift, map_map. apply map_ext. intros k.
      rewrite (wav_path_of_call_id p' p) by assumption. f_equal. lia.
Qed.

Lemma cps_inj (s t : string) : cps s = cps t -> s = t.
Proof.
  revert t. induction s as [|a s IH]; intros [|b t]; simpl; try discriminate.
  - reflexivity.
  - intros [= Hab Hst]. f_equal; [|now apply IH].
    rewrite <- (Ascii.ascii_N_embedding a), <- (Ascii.ascii_N_embedding b).
    now rewrite Hab.
Qed.

(** The name of a scratch file tells its number. *)
Lemma wav_path_of_inj (p : fsplayback) (i j : Z) :
  wav_path_of p i = wav_path_of p j -> i = j.
Proof.
  unfold wav_path_of. intros H.
  do 4 apply app_inv_head in H. apply app_inv_tail in H.
  apply cps_inj in H. now apply (inj pretty).
Qed.

Lemma play_pcm_leftover (p : fsplayback) (pcm : bytes) (rate : Z)
    (env : play_env) :
  save_wav_ok env = true ->
  leftover ∅ (snd (play_pcm p pcm rate env)) = ∅.
Proof.
  intros Hsave. unfold play_pcm.
  destruct (negb (truthy pcm) || negb (has_uuid p)); simpl; [reflexivity|].
  destruct (resample_returns pcm rate) as [pcm8 ->]. rewrite Hsave. simpl.
  pose proof (play_try_bystander
    (set_is_playing true (set_file_counter (file_counter p + 1) p))
    env (wav_path_of p (file_counter p))
    (Z.of_nat (length pcm8) / 16)) as (A1 & A2 & A3 & A4 & A5).
  destruct (play_try _ _ _ _) as [[r p3] evs]. simpl in *.
  unfold leftover in *. rewrite foldl_app, A5. simpl.
  now rewrite union_empty_l_L, difference_diag_L.
Qed.

End PlaybackMore.

(** X9: the scratch files of a controller never collide: along any
    sequence of calls, the [k]-th file it writes is named after the
    counter value [k] past the one it started from, so no name is written
    twice. *)
Theorem scratch_files_are_distinct (p : Playback.fsplayback)
    (cs : list Playback.call) :
  Playback.saved_paths (Playback.run_trace p cs)
  = map (fun k => Playback.wav_path_of p
                    (Playback.file_counter p + Z.of_nat k))
        (seq 0 (Z.to_nat (Playback.file_counter (Playback.run p cs)
                          - Playback.file_counter p))) /\
  NoDup (Playback.saved_paths (Playback.run_trace p cs)).
Proof.
  destruct (run_trace_saves cs p) as [_ Hpaths]. split; [exact Hpaths|].
  rewrite Hpaths. apply NoDup_fmap_2_strong; [|apply NoDup_ListNoDup, seq_NoDup].
  intros i j _ _ H. apply wav_path_of_inj in H. lia.
Qed.

(** X10: when no [save_wav] fails, a sequence of calls leaves no scratch
    file behind: each [play_pcm] unlinks the file it wrote before it
    returns, whatever the broadcast answers and whoever interrupts. *)
Theorem scratch_files_are_removed (p : Playback.fsplayback)
    (cs : list Playback.call) :
  Forall Playback.saves_succeed cs ->
  Playback.leftover ∅ (Playback.run_trace p cs) = ∅.
Proof.
  intros Hall. revert p. induction Hall as [|c cs Hc _ IH]; intros p; simpl.
  - reflexivity.
  - destruct (Playback.do_call p c) as [p' evs] eqn:Hcall.
    rewrite leftover_app.
    assert (Hevs : Playback.leftover ∅ evs = ∅).
    { destruct c as [pcm rate env|ok|]; simpl in *.
      - pose proof (play_pcm_leftover p pcm rate env Hc) as H.
        destruct (Playback.play_pcm p pcm rate env) as [[r q] e].
        injection Hcall as _ <-. exact H.
      - destruct (stop_bystander p ok) as (_ & _ & _ & _ & H).
        rewrite Hcall in H. apply H.
      - injection Hcall as _ <-. reflexivity. }
    rewrite Hevs. apply IH.
Qed.

Lemma scratch_files_are_removed_witness :
  Playback.leftover ∅
    (Playback.run_trace demo_playback
       [Playback.Play (replicate 1600 x00) 8000 interrupted_env;
        Playback.Stop true;
        Playback.Play silent_frame 16000 accepting_env;
        Playback.Close]) = ∅.
Proof.
  apply (scratch_files_are_removed demo_playback).
  repeat constructor.
Defined.

Section PlaybackWait.
Import Playback.

(** Left alone, the polling loop of a controller that is playing sleeps
    once for every 50 ms of the duration that are left, the last one
    begun counting as whole, and leaves the controller as it is. *)
Lemma wait_loop_undisturbed (env : play_env) (duration_ms : Z) (fuel : nat) :
  (forall tick, during_sleep env tick = []) ->
  forall (tick : nat) (elapsed : Z) (p : fsplayback),
    is_playing p = true -> is_active p = true ->
    duration_ms - elapsed < 50 * Z.of_nat fuel ->
    wait_loop fuel env tick elapsed duration_ms p
    = (p, replicate (Z.to_nat ((duration_ms - elapsed + 49) / 50)) Sleep).
Proof.
  intros Hquiet. induction fuel as [|fuel IH];
    intros tick elapsed p Hplay Hact Hfuel.
  - simpl. replace (Z.to_nat _) with 0%nat; [reflexivity|].
    assert ((duration_ms - elapsed + 49) / 50 <= 0); [|lia].
    Z.div_mod_to_equations; lia.
  - simpl. rewrite Hplay, Hact, !andb_true_r.
    destruct (Z.ltb_spec elapsed duration_ms) as [Hlt|Hge].
    + rewrite Hquiet. simpl. rewrite IH by (assumption || lia).
      replace (duration_ms - elapsed + 49)
        with (duration_ms - (elapsed + 50) + 49 + 1 * 50) by lia.
      rewrite Z.div_add by lia.
      assert (0 <= (duration_ms - (elapsed + 50) + 49) / 50)
        by (apply Z.div_pos; lia).
      rewrite Z2Nat.inj_add by lia. simpl.
      rewrite Nat.add_1_r. reflexivity.
    + replace (Z.to_nat _) with 0%nat; [reflexivity|].
      assert ((duration_ms - elapsed + 49) / 50 <= 0); [|lia].
      Z.div_mod_to_equations; lia.
Qed.

Lemma count_sleeps_replicate (n : nat) :
  count_sleeps (replicate n Sleep) = n.
Proof.
  unfold count_sleeps. induction n as [|n IH]; simpl; [reflexivity|].
  now rewrite IH.
Qed.

Lemma count_sleeps_other (e : io_event) :
  is_sleep e = false -> count_sleeps [e] = 0%nat.
Proof. destruct e; (discriminate || reflexivity). Qed.

Lemma count_sleeps_app (e1 e2 : list io_event) :
  count_sleeps (e1 ++ e2) = (count_sleeps e1 + count_sleeps e2)%nat.
Proof. unfold count_sleeps. now rewrite filter_app, length_app. Qed.

End PlaybackWait.

(** X11: a playback nobody interrupts runs to its end: with audio at
    8 kHz, a uuid, an active controller and a broadcast answered [+OK],
    [play_pcm] sleeps once for every 50 ms begun of the duration
    [len(pcm) // 16] and returns true. *)
Theorem play_pcm_runs_to_completion (p : Playback.fsplayback)
    (pcm_data : bytes) (env : Playback.play_env) (stdout : str) :
  truthy pcm_data = true -> Playback.has_uuid p = true ->
  Playback.is_active p = true ->
  Playback.save_wav_ok env = true ->
  Playback.broadcast env = Ok stdout -> contains (cps "+OK") stdout = true ->
  Playback.undisturbed env ->
  fst (fst (Playback.play_pcm p pcm_data 8000 env)) = Ok true /\
  Playback.count_sleeps (snd (Playback.play_pcm p pcm_data 8000 env))
  = Z.to_nat ((Z.of_nat (length pcm_data) / 16 + 49) / 50).
Proof.
  intros Hpcm Huuid Hact Hsave Hb Hok [Hq1 Hq2].
  unfold Playback.play_pcm. rewrite Hpcm, Huuid, Hsave. simpl.
  unfold Playback.play_try. rewrite Hq1, Hb, Hok. simpl negb. cbv iota.
  cbn [Playback.interfere].
  rewrite (wait_loop_undisturbed env _ _ Hq2) by
    (try reflexivity; try assumption; unfold Playback.wait_fuel;
     pose proof (Z.div_pos (Z.of_nat (length pcm_data)) 16); lia).
  rewrite Z.sub_0_r. split; [reflexivity|].
  cbn [snd app].
  change (Playback.SaveWav ?a ?b ?c :: ?l) with ([Playback.SaveWav a b c] ++ l).
  change (Playback.Exec ?a :: ?l) with ([Playback.Exec a] ++ l).
  rewrite !count_sleeps_app, count_sleeps_replicate.
  rewrite !count_sleeps_other by reflexivity. lia.
Qed.

Lemma play_pcm_runs_to_completion_witness :
  fst (fst (Playback.play_pcm demo_playback (replicate 1600 x00) 8000
              accepting_env)) = Ok true /\
  Playback.count_sleeps
    (snd (Playback.play_pcm demo_playback (replicate 1600 x00) 8000
            accepting_env))
  = Z.to_nat ((Z.of_nat (length (replicate 1600 x00)) / 16 + 49) / 50).
Proof.
  apply (play_pcm_runs_to_completion demo_playback (replicate 1600 x00)
           accepting_env (cps "+OK Message sent")); try reflexivity.
  split; reflexivity.
Defined.

(** ** Text: what stripping keeps *)
Section StripFacts.

Lemma without_spaces_app (s t : str) :
  without_spaces (s ++ t) = without_spaces s ++ without_spaces t.
Proof. apply List.filter_app. Qed.

Lemma without_spaces_rev (s : str) :
  without_spaces (rev s) = rev (without_spaces s).
Proof.
  unfold without_spaces. induction s as [|c s IH]; simpl; [reflexivity|].
  rewrite List.filter_app, IH. simpl. destruct (negb (is_space c)); simpl.
  - reflexivity.
  - now rewrite app_nil_r.
Qed.

Lemma without_spaces_lstrip (s : str) :
  without_spaces (lstrip_by is_space s) = without_spaces s.
Proof.
  induction s as [|c s IH]; simpl; [reflexivity|].
  destruct (is_space c) eqn:Hc; simpl; [exact IH|].
  now rewrite Hc.
Qed.

(** Stripping removes whitespace only. *)
Lemma without_spaces_strip (s : str) :
  without_spaces (strip s) = without_spaces s.
Proof.
  unfold strip, strip_by.
  rewrite without_spaces_rev, without_spaces_lstrip, without_spaces_rev,
    without_spaces_lstrip.
  apply rev_involutive.
Qed.

Lemma without_spaces_nil (s : str) : s = [] -> without_spaces s = [].
Proof. now intros ->. Qed.

Lemma truthy_false {A : Type} (l : list A) : truthy l = false -> l = [].
Proof. destruct l; [reflexivity | discriminate]. Qed.

(** What a conditional append of a stripped string keeps. *)
Lemma without_spaces_if_strip (s : str) :
  without_spaces (concat (if truthy (strip s) then [strip s] else []))
  = without_spaces s.
Proof.
  destruct (truthy (strip s)) eqn:Ht; simpl.
  - now rewrite app_nil_r, without_spaces_strip.
  - apply truthy_false in Ht. rewrite <- without_spaces_strip, Ht. reflexivity.
Qed.

Lemma lstrip_by_no_lead (p : N -> bool) (s : str) :
  no_lead p (lstrip_by p s).
Proof.
  induction s as [|c s IH]; simpl; [exact I|].
  destruct (p c) eqn:Hc; [exact IH | exact Hc].
Qed.

Lemma lstrip_by_id (p : N -> bool) (s : str) :
  no_lead p s -> lstrip_by p s = s.
Proof. destruct s as [|c s]; simpl; [reflexivity|]. now intros ->. Qed.

(** What is stripped from the left is a prefix. *)
Lemma lstrip_by_suffix (p : N -> bool) (s : str) :
  exists pre, s = pre ++ lstrip_by p s.
Proof.
  induction s as [|c s [pre IH]]; simpl; [now exists []|].
  destruct (p c); [|now exists []].
  exists (c :: pre). simpl. now f_equal.
Qed.

(** Stripping the right end of a string keeps its first character. *)
Lemma rstrip_no_lead (p : N -> bool) (t : str) :
  no_lead p t -> no_lead p (rev (lstrip_by p (rev t))).
Proof.
  intros Ht. destruct (lstrip_by_suffix p (rev t)) as [pre Hpre].
  apply (f_equal (@rev N)) in Hpre. rewrite rev_involutive, rev_app_distr in Hpre.
  destruct (rev (lstrip_by p (rev t))) as [|c x]; [exact I|].
  rewrite Hpre in Ht. exact Ht.
Qed.

(** A stripped string is not changed by stripping it again. *)
Lemma strip_by_idem (p : N -> bool) (s : str) :
  strip_by p (strip_by p s) = strip_by p s.
Proof.
  unfold strip_by.
  rewrite (lstrip_by_id p (rev (lstrip_by p (rev (lstrip_by p s))))).
  - rewrite rev_involutive.
    rewrite (lstrip_by_id p (lstrip_by p (rev (lstrip_by p s)))); [reflexivity|].
    apply lstrip_by_no_lead.
  - apply rstrip_no_lead, lstrip_by_no_lead.
Qed.

End StripFacts.

(** ** Zvukogram TTS: what splitting keeps *)
Section SplitKeeps.
Import Zvukogram.

Lemma scan_char_keeps (acc : list str * str) (char : N) :
  without_spaces (concat (fst (scan_char acc char))
                  ++ snd (scan_char acc char))
  = without_spaces (concat (fst acc) ++ snd acc) ++ without_spaces [char].
Proof.
  destruct acc as [sentences temp]. unfold scan_char.
  destruct (is_terminator char && _); simpl fst; simpl snd.
  - rewrite concat_app. simpl concat. rewrite !app_nil_r.
    rewrite !without_spaces_app, without_spaces_strip, without_spaces_app.
    now rewrite app_assoc.
  - now rewrite !without_spaces_app, app_assoc.
Qed.

Lemma scan_keeps (text : str) :
  forall acc,
    without_spaces (concat (fst (foldl scan_char acc text))
                    ++ snd (foldl scan_char acc text))
    = without_spaces (concat (fst acc) ++ snd acc) ++ without_spaces text.
Proof.
  induction text as [|c text IH]; intros acc; simpl foldl.
  - now rewrite app_nil_r.
  - rewrite IH, scan_char_keeps, <- app_assoc, <- without_spaces_app.
    reflexivity.
Qed.

Lemma split_sentences_keeps (text : str) :
  without_spaces (concat (split_sentences text)) = without_spaces text.
Proof.
  unfold split_sentences. pose proof (scan_keeps text ([], [])) as H.
  destruct (foldl scan_char ([], []) text) as [sentences temp].
  simpl in H. rewrite <- H, without_spaces_app.
  destruct (truthy (strip temp)) eqn:Ht.
  - rewrite concat_app, without_spaces_app. simpl.
    now rewrite app_nil_r, without_spaces_strip.
  - apply truthy_false in Ht.
    rewrite <- (without_spaces_strip temp), Ht. simpl. now rewrite app_nil_r.
Qed.

Lemma without_spaces_blank (s : str) :
  without_spaces (cps " " ++ s) = without_spaces s.
Proof. reflexivity. Qed.

Lemma pack_sentence_keeps (max_len : Z) (acc : list str * str)
    (sentence : str) :
  without_spaces (concat (fst (pack_sentence max_len acc sentence))
                  ++ snd (pack_sentence max_len acc sentence))
  = without_spaces (concat (fst acc) ++ snd acc) ++ without_spaces sentence.
Proof.
  destruct acc as [chunks current]. unfold pack_sentence.
  destruct (_ <=? max_len); cbn [fst snd].
  - destruct current as [|c current]; cbn [truthy].
    + now rewrite app_nil_r, without_spaces_app.
    + rewrite without_spaces_app, without_spaces_strip.
      rewrite (without_spaces_app (c :: current)), without_spaces_blank.
      now rewrite !without_spaces_app, app_assoc.
  - destruct current as [|c current]; cbn [truthy].
    + now rewrite app_nil_r, without_spaces_app.
    + rewrite concat_app. cbn [concat].
      now rewrite app_nil_r, !without_spaces_app.
Qed.

Lemma pack_keeps (max_len : Z) (sentences : list str) :
  forall acc,
    without_spaces
      (concat (fst (foldl (pack_sentence max_len) acc sentences))
       ++ snd (foldl (pack_sentence max_len) acc sentences))
    = without_spaces (concat (fst acc) ++ snd acc)
      ++ without_spaces (concat sentences).
Proof.
  induction sentences as [|s sentences IH]; intros acc; simpl foldl.
  - simpl. now rewrite app_nil_r.
  - rewrite IH, pack_sentence_keeps. simpl concat.
    now rewrite (without_spaces_app s), app_assoc.
Qed.

(** A prefix of a text that is all whitespace is all whitespace. *)
Lemma without_spaces_take (n : nat) (text : str) :
  without_spaces text = [] -> without_spaces (take n text) = [].
Proof.
  revert n. induction text as [|c text IH]; intros [|n]; simpl; auto.
  unfold without_spaces in *. simpl.
  destruct (negb (is_space c)); [discriminate|]. apply IH.
Qed.

End SplitKeeps.

(** X12: splitting loses nothing but whitespace: the characters of the
    chunks of [_split_text], taken in order and without whitespace, are
    those of the text. *)
Theorem split_text_keeps_characters (text : str) (max_len : Z) :
  without_spaces (concat (Zvukogram._split_text text max_len))
  = without_spaces text.
Proof.
  unfold Zvukogram._split_text.
  destruct (_ <=? max_len); [simpl; now rewrite app_nil_r|].
  pose proof (pack_keeps max_len (Zvukogram.split_sentences text) ([], []))
    as Hpack.
  rewrite split_sentences_keeps in Hpack. simpl in Hpack.
  destruct (foldl _ _ _) as [chunks current]. simpl in Hpack.
  assert (Hall : without_spaces
            (concat (if truthy current then chunks ++ [current] else chunks))
          = without_spaces text).
  { rewrite <- Hpack. destruct current as [|c current]; cbn [truthy].
    - now rewrite app_nil_r.
    - rewrite concat_app. cbn [concat]. now rewrite app_nil_r. }
  destruct (if truthy current then _ else _) as [|c cs]; [|exact Hall].
  simpl in Hall. simpl. rewrite app_nil_r.
  unfold Zvukogram.py_prefix.
  destruct (0 <=? max_len); rewrite without_spaces_take; auto.
Qed.

(** ** LLM adapter: the sentence stream *)
Section StreamFacts.
Import LLM.

Lemma cut_sentence_keeps (buffer : str) :
  without_spaces (concat (fst (cut_sentence buffer)))
  ++ without_spaces (snd (cut_sentence buffer))
  = without_spaces buffer.
Proof.
  unfold cut_sentence. destruct (find_ender 0 buffer) as [i|]; cbn [fst snd].
  - rewrite without_spaces_if_strip, without_spaces_strip,
      <- without_spaces_app, take_drop. reflexivity.
  - reflexivity.
Qed.

Lemma stream_loop_keeps (lines : list sse_line) :
  faultless lines = true ->
  forall buffer,
    without_spaces (concat (fst (stream_loop lines buffer)))
    = without_spaces buffer ++ without_spaces (concat (contents lines)) /\
    snd (stream_loop lines buffer) = None.
Proof.
  induction lines as [|line lines IH]; intros Hok buffer.
  - simpl. rewrite without_spaces_if_strip, app_nil_r. auto.
  - destruct line as [delta| | |e]; simpl in Hok |- *.
    + cbn [concat]. rewrite (without_spaces_app delta).
      destruct (truthy delta) eqn:Hd.
      * pose proof (cut_sentence_keeps (buffer ++ delta)) as Hcut.
        destruct (cut_sentence (buffer ++ delta)) as [now buffer'].
        destruct (IH Hok buffer') as [H1 H2].
        destruct (stream_loop lines buffer') as [later err].
        cbn [fst snd] in *. split; [|exact H2].
        rewrite concat_app, without_spaces_app, H1, app_assoc, Hcut.
        now rewrite without_spaces_app, app_assoc.
      * apply truthy_false in Hd. subst delta.
        destruct (IH Hok buffer) as [H1 H2]. auto.
    + rewrite without_spaces_if_strip, app_nil_r. auto.
    + apply IH, Hok.
    + discriminate.
Qed.

Lemma chat_loop_keeps (lines : list sse_line) :
  forall acc full,
    chat_loop lines acc = Ok full ->
    faultless lines = true /\
    without_spaces full
    = without_spaces acc ++ without_spaces (concat (contents lines)).
Proof.
  induction lines as [|line lines IH]; intros acc full; simpl.
  - intros [= <-]. now rewrite app_nil_r.
  - destruct line as [delta| | |e].
    + intros H. apply IH in H as [Hok H]. split; [exact Hok|].
      rewrite H. cbn [concat]. rewrite (without_spaces_app delta).
      destruct (truthy delta) eqn:Hd.
      * now rewrite without_spaces_app, app_assoc.
      * apply truthy_false in Hd. now subst delta.
    + intros [= <-]. now rewrite app_nil_r.
    + apply IH.
    + discriminate.
Qed.

Lemma cut_sentence_stripped (buffer : str) :
  Forall (fun s => s <> [] /\ strip s = s) (fst (cut_sentence buffer)).
Proof.
  unfold cut_sentence. destruct (find_ender 0 buffer) as [i|]; cbn [fst];
    [|constructor].
  destruct (truthy _) eqn:Ht; constructor; [|constructor].
  split.
  - intros Hnil. rewrite Hnil in Ht. discriminate.
  - apply strip_by_idem.
Qed.

Lemma rest_stripped (buffer : str) :
  Forall (fun s => s <> [] /\ strip s = s)
         (if truthy (strip buffer) then [strip buffer] else []).
Proof.
  destruct (truthy _) eqn:Ht; constructor; [|constructor].
  split.
  - intros Hnil. rewrite Hnil in Ht. discriminate.
  - apply strip_by_idem.
Qed.

Lemma stream_loop_stripped (lines : list sse_line) :
  forall buffer,
    Forall (fun s => s <> [] /\ strip s = s) (fst (stream_loop lines buffer)).
Proof.
  induction lines as [|line lines IH]; intros buffer; simpl.
  - apply rest_stripped.
  - destruct line as [delta| | |e]; cbn [fst].
    + destruct (truthy delta); [|apply IH].
      pose proof (cut_sentence_stripped (buffer ++ delta)) as Hcut.
      destruct (cut_sentence (buffer ++ delta)) as [now buffer'].
      specialize (IH buffer').
      destruct (stream_loop lines buffer') as [later err].
      cbn [fst] in *. apply Forall_app. split; assumption.
    + apply rest_stripped.
    + apply IH.
    + constructor.
Qed.

Lemma cut_sentence_one (buffer : str) :
  (length (fst (cut_sentence buffer)) <= 1)%nat.
Proof.
  unfold cut_sentence. destruct (find_ender 0 buffer); cbn [fst];
    [destruct (truthy _)|]; simpl; lia.
Qed.

Lemma stream_loop_count (lines : list sse_line) :
  forall buffer,
    (length (fst (stream_loop lines buffer))
     <= length (filter (fun d => truthy d = true) (contents lines)) + 1)%nat.
Proof.
  induction lines as [|line lines IH]; intros buffer; simpl.
  - destruct (truthy _); simpl; lia.
  - destruct line as [delta| | |e]; cbn [fst].
    + rewrite filter_cons.
      destruct (truthy delta) eqn:Hd; case_decide; try congruence.
      * pose proof (cut_sentence_one (buffer ++ delta)) as Hcut.
        destruct (cut_sentence (buffer ++ delta)) as [now buffer'].
        specialize (IH buffer').
        destruct (stream_loop lines buffer') as [later err].
        simpl in IH, Hcut |- *. rewrite length_app. unfold str in *. lia.
      * apply IH.
    + destruct (truthy _); simpl; lia.
    + apply IH.
    + simpl. lia.
Qed.

End StreamFacts.

(** X13: the sentence stream loses nothing but whitespace: when the reply
    has status 200 and no line raises, the sentences it yields, taken in
    order and without whitespace, are the content deltas received before
    the end marker, and the stream ends without an exception. *)
Theorem stream_keeps_characters (lines : list LLM.sse_line) :
  LLM.faultless lines = true ->
  without_spaces (concat (fst (LLM.chat_stream_sentences 200 lines)))
  = without_spaces (concat (LLM.contents lines)) /\
  snd (LLM.chat_stream_sentences 200 lines) = None.
Proof.
  intros Hok. unfold LLM.chat_stream_sentences. simpl.
  apply (stream_loop_keeps lines Hok []).
Qed.

(** X14: whatever the lines, every sentence the stream yields is not empty
    and has no whitespace at either end. *)
Theorem stream_sentences_are_stripped (status : Z)
    (lines : list LLM.sse_line) :
  Forall (fun s => s <> [] /\ strip s = s)
         (fst (LLM.chat_stream_sentences status lines)).
Proof.
  unfold LLM.chat_stream_sentences. destruct (negb _); [constructor|].
  apply stream_loop_stripped.
Qed.

(** X15: the stream yields at most one sentence for each non-empty content
    delta, and one more for what is left at the end: a delta that
    completes several sentences releases only the first of them. *)
Theorem stream_one_sentence_per_delta (status : Z)
    (lines : list LLM.sse_line) :
  (length (fst (LLM.chat_stream_sentences status lines))
   <= length (filter (fun d => truthy d = true) (LLM.contents lines)) + 1)%nat.
Proof.
  unfold LLM.chat_stream_sentences. destruct (negb _); [simpl; lia|].
  apply stream_loop_count.
Qed.

(** X16: the two ways of asking agree: a reply that [chat] returns whole
    is, whitespace apart, what [chat_stream_sentences] yields sentence by
    sentence for the same lines. *)
Theorem chat_agrees_with_stream (status : Z) (lines : list LLM.sse_line)
    (reply : str) :
  LLM.chat status lines = Ok reply ->
  without_spaces reply
  = without_spaces (concat (fst (LLM.chat_stream_sentences status lines))) /\
  snd (LLM.chat_stream_sentences status lines) = None.
Proof.
  unfold LLM.chat, LLM.chat_stream_sentences.
  destruct (negb (status =? 200)); [discriminate|].
  destruct (LLM.chat_loop lines []) as [full|e] eqn:Hloop; [|discriminate].
  intros [= <-]. apply chat_loop_keeps in Hloop as [Hok Hfull].
  destruct (stream_loop_keeps lines Hok []) as [H1 H2].
  split; [|exact H2].
  now rewrite without_spaces_strip, Hfull, H1.
Qed.

Lemma stream_keeps_characters_witness :
  without_spaces (concat (fst (LLM.chat_stream_sentences 200 reply_lines)))
  = without_spaces (concat (LLM.contents reply_lines)) /\
  snd (LLM.chat_stream_sentences 200 reply_lines) = None.
Proof. apply (stream_keeps_characters reply_lines). reflexivity. Defined.

Lemma chat_agrees_with_stream_witness :
  without_spaces (cps "Hello there. How are you? I am fine")
  = without_spaces (concat (fst (LLM.chat_stream_sentences 200 reply_lines)))
  /\ snd (LLM.chat_stream_sentences 200 reply_lines) = None.
Proof.
  apply (chat_agrees_with_stream 200 reply_lines
           (cps "Hello there. How are you? I am fine")).
  reflexivity.
Defined.

(** The second delta completes two sentences and only the first is
    released, the second waits for the next delta; the blank that ended
    the second delta is stripped from the buffer, so the next delta is
    glued to the word before it. *)
Example stream_holds_back_and_glues :
  LLM.chat_stream_sentences 200 reply_lines
  = ([cps "Hello there."; cps "How are you?"; cps "I amfine"], None) /\
  fst (LLM.chat_stream_sentences 200 (take 3 reply_lines))
  = [cps "Hello there."; cps "How are you? I am"] /\
  LLM.chat 200 reply_lines = Ok (cps "Hello there. How are you? I am fine").
Proof. repeat split; reflexivity. Qed.

(** ** Server front: the frames of a connection *)
Section ServeFacts.
Import Server.

Lemma count_starts_app (e1 e2 : list effect) :
  count_starts (e1 ++ e2) = (count_starts e1 + count_starts e2)%nat.
Proof. unfold count_starts. now rewrite List.filter_app, length_app. Qed.

(** A binary frame is audio for a connection that has its uuid. *)
Lemma on_binary_with_uuid (u : str) (payload : bytes) :
  on_message (Some u) (Binary payload)
  = (Some u, [HandleAudio payload], true).
Proof. reflexivity. Qed.

(** A binary frame on a connection without uuid: audio, or the start. *)
Lemma on_binary_without_uuid (payload : bytes) :
  on_message None (Binary payload) = (None, [HandleAudio payload], true) \/
  exists u, on_message None (Binary payload)
            = (Some u, [LogUuid u; SpawnStart], true).
Proof.
  unfold on_message.
  destruct (36 <? _); [|auto].
  destruct (decode_ascii _) as [u|e]; [|auto].
  destruct (has_dash u); eauto.
Qed.

Lemma serve_binary_with_uuid (msgs : list message) (u : str) :
  Forall is_binary msgs ->
  serve (Some u) msgs = (Some u, map (fun m => HandleAudio (payload_of m)) msgs).
Proof.
  induction 1 as [|m msgs Hm _ IH]; simpl; [reflexivity|].
  destruct m as [payload|]; [|destruct Hm]. simpl. now rewrite IH.
Qed.

Lemma count_starts_audio (msgs : list message) :
  count_starts (map (fun m => HandleAudio (payload_of m)) msgs) = 0%nat.
Proof. induction msgs as [|m msgs IH]; simpl; [reflexivity | exact IH]. Qed.

End ServeFacts.

(** X17: binary frames start a session at most once: over a connection
    that sends binary frames only, [session.start] is spawned once at
    most, and not at all when the uuid was already known; a uuid that is
    set stays set. *)
Theorem binary_frames_start_once (uuid : option str)
    (msgs : list Server.message) :
  Forall Server.is_binary msgs ->
  (Server.count_starts (snd (Server.serve uuid msgs)) <= 1)%nat /\
  (forall u, uuid = Some u ->
             Server.serve uuid msgs
             = (Some u, map (fun m => Server.HandleAudio (Server.payload_of m))
                            msgs)).
Proof.
  intros Hall. split.
  - destruct uuid as [u|].
    + rewrite serve_binary_with_uuid by assumption. simpl.
      rewrite count_starts_audio. lia.
    + induction Hall as [|m msgs Hm Hall IH]; simpl; [compute; lia|].
      destruct m as [payload|]; [|destruct Hm].
      destruct (on_binary_without_uuid payload) as [->|[u ->]].
      * destruct (Server.serve None msgs) as [u' effs]. simpl in *. exact IH.
      * rewrite serve_binary_with_uuid by assumption. simpl.
        change (Server.LogUuid u :: Server.SpawnStart :: ?l)
          with ([Server.LogUuid u; Server.SpawnStart] ++ l).
        rewrite count_starts_app, count_starts_audio. compute. lia.
  - intros u ->. now apply serve_binary_with_uuid.
Qed.

Lemma binary_frames_start_once_witness :
  (Server.count_starts
     (snd (Server.serve None
             [Server.Binary silent_frame;
              Server.Binary (uuid_frame ++ silent_frame);
              Server.Binary (uuid_frame ++ silent_frame)])) <= 1)%nat /\
  (forall u, None = Some u ->
             Server.serve None
               [Server.Binary silent_frame;
                Server.Binary (uuid_frame ++ silent_frame);
                Server.Binary (uuid_frame ++ silent_frame)]
             = (Some u, map (fun m => Server.HandleAudio (Server.payload_of m))
                            [Server.Binary silent_frame;
                             Server.Binary (uuid_frame ++ silent_frame);
                             Server.Binary (uuid_frame ++ silent_frame)])).
Proof.
  apply (binary_frames_start_once None).
  repeat constructor.
Defined.

(** X18: a connection whose frames are all binary and of 36 bytes or less
    never gets its uuid and never starts its session: every frame is
    handed to [handle_audio], in order. *)
Theorem short_frames_never_start (msgs : list Server.message) :
  Forall Server.is_short_binary msgs ->
  Server.serve None msgs
  = (None, map (fun m => Server.HandleAudio (Server.payload_of m)) msgs).
Proof.
  induction 1 as [|m msgs Hm _ IH]; simpl; [reflexivity|].
  destruct m as [payload|]; [|destruct Hm]. simpl in Hm.
  unfold Server.on_message.
  destruct (Z.ltb_spec 36 (Z.of_nat (length payload))); [lia|].
  now rewrite IH.
Qed.

Lemma short_frames_never_start_witness :
  Server.serve None [Server.Binary uuid_frame; Server.Binary silent_frame]
  = (None, map (fun m => Server.HandleAudio (Server.payload_of m))
               [Server.Binary uuid_frame; Server.Binary silent_frame]).
Proof.
  apply (short_frames_never_start
           [Server.Binary uuid_frame; Server.Binary silent_frame]).
  repeat constructor.
Defined.

(** Text frames are not held to that: each one that carries a uuid spawns
    [session.start] again. *)
Example text_frames_start_twice :
  Server.count_starts
    (snd (Server.serve None
            [Server.Text (cps "{}") (Server.HasUuid demo_uuid);
             Server.Text demo_uuid Server.DecodeError])) = 2%nat.
Proof. reflexivity. Qed.

(** ** Telemetry: decimal strings *)
Section DecimalFacts.
Import Storage.

Lemma digit_of_bounds (c : N) (d : Z) :
  digit_of c = Some d -> (48 <= c <= 57)%N /\ d = Z.of_N c - 48.
Proof.
  unfold digit_of.
  destruct (N.leb_spec 48 c), (N.leb_spec c 57); simpl; intros [= <-];
    split; try reflexivity; lia.
Qed.

Lemma digit_char (d : N) :
  (d < 10)%N ->
  digit_of (Ascii.N_of_ascii (pretty_N_char d)) = Some (Z.of_N d).
Proof.
  intros Hd.
  assert (d = 0 \/ d = 1 \/ d = 2 \/ d = 3 \/ d = 4 \/ d = 5 \/ d = 6 \/
          d = 7 \/ d = 8 \/ d = 9)%N as Hcases by lia.
  repeat destruct Hcases as [->|Hcases]; try reflexivity.
  now rewrite Hcases.
Qed.

Lemma digit_not_space (c : N) : (48 <= c <= 57)%N -> is_space c = false.
Proof.
  intros Hc. unfold is_space.
  rewrite (proj2 (N.leb_gt c 13)) by lia.
  rewrite (proj2 (N.leb_gt c 32)) by lia.
  rewrite (proj2 (N.leb_gt 8192 c)) by lia.
  rewrite !(proj2 (N.eqb_neq c _)) by lia.
  now rewrite !andb_false_r.
Qed.

(** The digits [str] writes, read back from the left. *)
Lemma digits_value_go (x : N) (s : string) :
  digits_value 0 (cps (pretty_N_go x s)) = digits_value (Z.of_N x) (cps s).
Proof.
  revert s. induction (N.lt_wf_0 x) as [x _ IH]. intros s.
  destruct (N.eq_dec x 0%N) as [->|Hx]; [now rewrite pretty_N_go_0|].
  rewrite pretty_N_go_step by lia.
  rewrite IH by (apply N.div_lt; lia).
  cbn [cps digits_value].
  rewrite digit_char by (apply N.mod_lt; lia).
  f_equal. pose proof (N.div_mod x 10 ltac:(lia)). lia.
Qed.

Lemma digits_go_chars (x : N) (s : string) :
  Forall (fun c => (48 <= c <= 57)%N) (cps s) ->
  Forall (fun c => (48 <= c <= 57)%N) (cps (pretty_N_go x s)).
Proof.
  revert s. induction (N.lt_wf_0 x) as [x _ IH]. intros s Hs.
  destruct (N.eq_dec x 0%N) as [->|Hx]; [now rewrite pretty_N_go_0|].
  rewrite pretty_N_go_step by lia.
  apply IH; [apply N.div_lt; lia|].
  cbn [cps]. constructor; [|assumption].
  destruct (digit_of_bounds _ _ (digit_char (x mod 10)
              ltac:(apply N.mod_lt; lia))) as [Hb _].
  exact Hb.
Qed.

Lemma digits_go_length (x : N) (s : string) :
  (length (cps s) <= length (cps (pretty_N_go x s)))%nat.
Proof.
  revert s. induction (N.lt_wf_0 x) as [x _ IH]. intros s.
  destruct (N.eq_dec x 0%N) as [->|Hx]; [now rewrite pretty_N_go_0|].
  rewrite pretty_N_go_step by lia.
  etransitivity; [|apply IH, N.div_lt; lia].
  cbn [cps length]. lia.
Qed.

Lemma strip_by_id (p : N -> bool) (s : str) :
  Forall (fun c => p c = false) s -> strip_by p s = s.
Proof.
  intros Hs. unfold strip_by.
  rewrite (lstrip_by_id p s) by (destruct Hs; [exact I | assumption]).
  rewrite lstrip_by_id; [apply rev_involutive|].
  apply List.Forall_rev in Hs. destruct Hs; [exact I | assumption].
Qed.

(** The decimal text of a positive number: digits, at least one, whose
    value is the number. *)
Lemma positive_digits (p : positive) :
  exists c rest,
    cps (pretty_N_go (N.pos p) EmptyString) = c :: rest /\
    Forall (fun c => (48 <= c <= 57)%N) (c :: rest) /\
    digits_value 0 (c :: rest) = Some (Z.pos p).
Proof.
  pose proof (digits_go_chars (N.pos p) EmptyString (List.Forall_nil _)) as Hall.
  pose proof (digits_value_go (N.pos p) EmptyString) as Hval.
  assert (0 < length (cps (pretty_N_go (N.pos p) EmptyString)))%nat as Hlen.
  { rewrite pretty_N_go_step by lia.
    eapply Nat.lt_le_trans; [|apply digits_go_length]. cbn [cps length]. lia. }
  destruct (cps (pretty_N_go (N.pos p) EmptyString)) as [|c rest];
    [simpl in Hlen; lia|].
  exists c, rest. repeat split; [assumption|]. exact Hval.
Qed.

Lemma drop_underscores_digits (s : str) :
  Forall (fun c => (48 <= c <= 57)%N) s -> drop_underscores s = Some s.
Proof.
  induction 1 as [|c s Hc _ IH]; [reflexivity|].
  cbn [drop_underscores]. unfold is_underscore.
  rewrite (proj2 (N.eqb_neq c 95)) by lia. now rewrite IH.
Qed.

(** A number below [10 ^ k] has at most [k] digits. *)
Lemma digits_go_count (x : N) :
  forall (k : nat) (s : string),
    (x < 10 ^ N.of_nat k)%N ->
    (length (cps (pretty_N_go x s)) <= k + length (cps s))%nat.
Proof.
  induction (N.lt_wf_0 x) as [x _ IH]. intros k s Hx.
  destruct (N.eq_dec x 0%N) as [->|Hx0]; [rewrite pretty_N_go_0; lia|].
  destruct k as [|k]; [simpl in Hx; lia|].
  rewrite Nat2N.inj_succ, N.pow_succ_r' in Hx.
  rewrite pretty_N_go_step by lia.
  etransitivity;
    [apply (IH (x / 10)%N ltac:(apply N.div_lt; lia) k);
     apply N.Div0.div_lt_upper_bound; lia|].
  cbn [cps length]. lia.
Qed.

Lemma int_of_digits (c : N) (rest : str) (v : Z) :
  Forall (fun c => (48 <= c <= 57)%N) (c :: rest) ->
  Z.of_nat (length (c :: rest)) <= MAX_STR_DIGITS ->
  digits_value 0 (c :: rest) = Some v ->
  int_of_str (c :: rest) = Ok v /\ int_of_str (45%N :: c :: rest) = Ok (- v).
Proof.
  intros Hall Hlen Hval.
  assert (Forall (fun c => is_space c = false) (c :: rest)) as Hns.
  { eapply Forall_impl; [exact Hall|]. intros ?. apply digit_not_space. }
  assert (Forall (fun c => is_space c = false) (45%N :: c :: rest)) as Hns'.
  { constructor; [reflexivity | assumption]. }
  assert (is_underscore c = false) as Hc.
  { inversion Hall as [|? ? Hc _]; subst. unfold is_underscore.
    apply N.eqb_neq. lia. }
  assert (forall neg : bool,
            match c :: rest with
            | [] => Raise ValueError
            | c0 :: _ =>
                if is_underscore c0 then Raise ValueError
                else
                  match drop_underscores (c :: rest) with
                  | None => Raise ValueError
                  | Some ds =>
                      if MAX_STR_DIGITS <? Z.of_nat (length ds)
                      then Raise ValueError
                      else
                        match digits_value 0 ds with
                        | Some v0 => Ok (if neg then - v0 else v0)
                        | None => Raise ValueError
                        end
                  end
            end = Ok (if neg then - v else v)) as Hbody.
  { intros neg. rewrite Hc, (drop_underscores_digits _ Hall).
    rewrite (proj2 (Z.ltb_ge _ _) Hlen). now rewrite Hval. }
  unfold int_of_str, strip. rewrite !strip_by_id by assumption.
  split; [|exact (Hbody true)].
  inversion Hall as [|? ? Hd _]; subst.
  assert (c = 48 \/ c = 49 \/ c = 50 \/ c = 51 \/ c = 52 \/ c = 53 \/
          c = 54 \/ c = 55 \/ c = 56 \/ c = 57)%N as Hcases by lia.
  specialize (Hbody false).
  repeat destruct Hcases as [Hcases|Hcases];
    rewrite Hcases in Hbody |- *; exact Hbody.
Qed.

Lemma positive_fits (p : positive) :
  Z.pos p < 10 ^ MAX_STR_DIGITS ->
  (N.pos p < 10 ^ N.of_nat (Z.to_nat MAX_STR_DIGITS))%N.
Proof.
  intros Hp. apply N2Z.inj_lt. rewrite N2Z.inj_pow, nat_N_Z.
  rewrite Z2Nat.id by (unfold MAX_STR_DIGITS; lia). exact Hp.
Qed.

(** [int(str(n))] is [n] for a number within the limit of digits. *)
Lemma int_of_str_of_int (n : Z) :
  fits_str_digits n = true -> int_of_str (str_of_int n) = Ok n.
Proof.
  unfold fits_str_digits. intros Hfit%Z.ltb_lt.
  destruct n as [|p|p]; [reflexivity| |].
  - destruct (positive_digits p) as (c & rest & Heq & Hall & Hval).
    pose proof (digits_go_count (N.pos p) _ EmptyString
                  (positive_fits p Hfit)) as Hlen.
    unfold str_of_int, pretty, pretty_Z, pretty, pretty_positive,
      pretty, pretty_N.
    case_decide; [discriminate|]. rewrite Heq in Hlen |- *.
    apply int_of_digits; [assumption| |assumption].
    clear Hfit. cbn [cps length] in Hlen |- *. unfold str in *.
    apply Nat2Z.inj_le in Hlen.
    rewrite Nat2Z.inj_add, Z2Nat.id in Hlen
      by (unfold MAX_STR_DIGITS; lia).
    cbn [length] in Hlen. lia.
  - destruct (positive_digits p) as (c & rest & Heq & Hall & Hval).
    pose proof (digits_go_count (N.pos p) _ EmptyString
                  (positive_fits p Hfit)) as Hlen.
    unfold str_of_int, pretty, pretty_Z, pretty, pretty_positive,
      pretty, pretty_N.
    case_decide; [discriminate|].
    change (cps ("-" +:+ ?s)) with (45%N :: cps s).
    rewrite Heq in Hlen |- *.
    change (Z.neg p) with (- Z.pos p).
    apply int_of_digits; [assumption| |assumption].
    clear Hfit. cbn [cps length] in Hlen |- *. unfold str in *.
    apply Nat2Z.inj_le in Hlen.
    rewrite Nat2Z.inj_add, Z2Nat.id in Hlen
      by (unfold MAX_STR_DIGITS; lia).
    cbn [length] in Hlen. lia.
Qed.

End DecimalFacts.

(** ** Telemetry: what the operations leave in the stores *)
Section StorageMore.
Import Storage.
Variable fails : sink -> nat -> bool.

Ltac leaves_alone :=
  repeat first
    [ apply frame_ret
    | apply frame_raise
    | apply frame_try
    | apply frame_bind; [|intros ?]
    | apply frame_effect;
      [ discriminate
      | intros ?;
        first [apply with_pg_frame | apply with_mongo_frame
              | apply with_redis_frame]; discriminate ]
    | apply frame_request; [discriminate | intros ?; apply agree_refl]
    | match goal with
      | |- context [if ?c then _ else _] => destruct c
      | |- context [match ?x with Some _ => _ | None => _ end] => destruct x
      | |- context [match ?x with Ok _ => _ | Raise _ => _ end] => destruct x
      end ].

Lemma conversation_frame (o : operation) :
  is_conversation o = true -> frame Relational (perform fails o).
Proof.
  destruct o; try discriminate; intros _;
    unfold perform, on_user_speech, on_bot_response, on_barge_in,
      add_segment, add_pipeline_step, push_message, update_session,
      get_session, mbind, M_bind, mret, M_ret;
    leaves_alone.
Qed.

(** A [try] block on the document sink leaves the ephemeral store as it
    was, whether the sink answers or not. *)
Lemma document_block_redis (body : M unit) (msg : str) (w : world) :
  frame Ephemeral body ->
  fst (try_except body msg w) = Ok tt /\
  redis (snd (try_except body msg w)) = redis w.
Proof.
  intros Hf. split; [apply try_except_returns|].
  destruct (frame_try Ephemeral body msg Hf w) as [Hsame _]. exact Hsame.
Qed.

Hypothesis redis_up : forall k, fails Ephemeral k = false.

Lemma request_redis_up {A : Type} (run : world -> A * world) (w : world) :
  request fails Ephemeral run w
  = (Ok (fst (run (bump Ephemeral w))), snd (run (bump Ephemeral w))).
Proof.
  unfold request. rewrite redis_up. now destruct (run _).
Qed.

Lemma on_barge_in_field (call_id : str) (n : Z) (w : world) :
  fits_str_digits n = true -> fits_str_digits (n + 1) = true ->
  session_field w call_id (cps "barge_ins") = Some (str_of_int n) ->
  session_field (snd (on_barge_in fails call_id w)) call_id (cps "barge_ins")
  = Some (str_of_int (n + 1)).
Proof.
  intros Hn Hn1 Hfield. unfold on_barge_in, mbind, M_bind. unfold bind at 1.
  match goal with
  | |- context [try_except ?b ?m w] =>
      destruct (document_block_redis b m w) as [Hret Hredis];
      [ unfold add_pipeline_step; leaves_alone |];
      destruct (try_except b m w) as [r w1]
  end.
  simpl in Hret, Hredis. subst r.
  unfold session_field in Hfield. rewrite <- Hredis in Hfield.
  destruct (hashes (redis w1) !! session_key call_id) as [h|] eqn:Hh;
    [|discriminate].
  change (h !! cps "barge_ins" = Some (str_of_int n)) in Hfield.
  unfold try_except, get_session, bind. rewrite request_redis_up.
  cbn [fst snd redis bump]. rewrite Hh. cbn [default]. change (id h) with h.
  rewrite bool_decide_eq_false_2
    by (intros ->; rewrite lookup_empty in Hfield; discriminate).
  rewrite Hfield. change (default (cps "0") (Some ?x)) with x.
  rewrite int_of_str_of_int by exact Hn.
  unfold str_of_int_limited. rewrite Hn1.
  unfold update_session. cbn [truthy]. rewrite effect_redis_up by assumption.
  unfold session_field. cbn [snd redis with_redis bump].
  apply hset_field. intros h'. cbn [foldl fst snd]. apply lookup_insert_eq.
Qed.

(** At the limit the counter stops: when the sum cannot be written as a
    text, nothing is written and the ephemeral store is left as it was. *)
Lemma on_barge_in_at_the_limit (call_id : str) (n : Z) (w : world) :
  fits_str_digits n = true -> fits_str_digits (n + 1) = false ->
  session_field w call_id (cps "barge_ins") = Some (str_of_int n) ->
  redis (snd (on_barge_in fails call_id w)) = redis w.
Proof.
  intros Hn Hn1 Hfield. unfold on_barge_in, mbind, M_bind. unfold bind at 1.
  match goal with
  | |- context [try_except ?b ?m w] =>
      destruct (document_block_redis b m w) as [Hret Hredis];
      [ unfold add_pipeline_step; leaves_alone |];
      destruct (try_except b m w) as [r w1]
  end.
  simpl in Hret, Hredis. subst r.
  unfold session_field in Hfield. rewrite <- Hredis in Hfield |- *.
  destruct (hashes (redis w1) !! session_key call_id) as [h|] eqn:Hh;
    [|discriminate].
  change (h !! cps "barge_ins" = Some (str_of_int n)) in Hfield.
  unfold try_except, get_session, bind. rewrite request_redis_up.
  cbn [fst snd redis bump]. rewrite Hh. cbn [default]. change (id h) with h.
  rewrite bool_decide_eq_false_2
    by (intros ->; rewrite lookup_empty in Hfield; discriminate).
  rewrite Hfield. change (default (cps "0") (Some ?x)) with x.
  rewrite int_of_str_of_int by exact Hn.
  unfold str_of_int_limited. rewrite Hn1. reflexivity.
Qed.

Lemma on_barge_in_no_session (call_id : str) (w : world) :
  hashes (redis w) !! session_key call_id = None ->
  redis (snd (on_barge_in fails call_id w)) = redis w.
Proof.
  intros Hnone. unfold on_barge_in, mbind, M_bind. unfold bind at 1.
  match goal with
  | |- context [try_except ?b ?m w] =>
      destruct (document_block_redis b m w) as [Hret Hredis];
      [ unfold add_pipeline_step; leaves_alone |];
      destruct (try_except b m w) as [r w1]
  end.
  simpl in Hret, Hredis. subst r. rewrite <- Hredis in Hnone |- *.
  unfold try_except, get_session, bind. rewrite request_redis_up.
  cbn [fst snd redis bump]. rewrite Hnone. cbn [default].
  rewrite bool_decide_eq_true_2 by reflexivity. reflexivity.
Qed.

Lemma expire_lists (key : str) (seconds : Z) (r : redis_state) :
  lists (expire key seconds r) = lists r.
Proof. unfold expire. destruct (_ || _); reflexivity. Qed.

Lemma expire_published (key : str) (seconds : Z) (r : redis_state) :
  published (expire key seconds r) = published r.
Proof. unfold expire. destruct (_ || _); reflexivity. Qed.

Lemma expire_after_hset (key : str) (seconds : Z) (mapping : list (str * str))
    (r : redis_state) :
  ttl (expire key seconds (hset key mapping r)) !! key = Some seconds.
Proof.
  unfold expire. cbn [hashes hset].
  rewrite bool_decide_eq_true_2 by (rewrite lookup_insert_eq; eauto).
  cbn [orb ttl]. apply lookup_insert_eq.
Qed.

(** What [on_call_end] leaves in the ephemeral store. *)
Lemma on_call_end_redis (call_id : str) (duration_sec : float)
    (turns barge_ins : Z) (status : str) (w : world) :
  redis (snd (on_call_end fails call_id duration_sec turns barge_ins status w))
  = publish
      [ (cps "type", VStr (cps "call_ended"));
        (cps "call_id", VStr call_id);
        (cps "duration_sec", VFloat duration_sec);
        (cps "turns", VInt turns); (cps "status", VStr status) ]
      (expire (session_key call_id) 60
         (hset (session_key call_id) [(cps "state", cps "ended")] (redis w))).
Proof.
  unfold on_call_end, mbind, M_bind. unfold bind at 1.
  match goal with
  | |- context [try_except ?b ?m w] =>
      destruct (document_block_redis b m w) as [Hret Hredis];
      [ unfold finish_call; leaves_alone |];
      destruct (try_except b m w) as [r w1]
  end.
  simpl in Hret, Hredis. subst r. rewrite <- Hredis. clear Hredis.
  unfold bind at 1.
  match goal with
  | |- context [try_except ?b ?m w1] =>
      destruct (document_block_redis b m w1) as [Hret Hredis];
      [ unfold finish_transcription; leaves_alone |];
      destruct (try_except b m w1) as [r w2]
  end.
  simpl in Hret, Hredis. subst r. rewrite <- Hredis. clear Hredis.
  unfold try_except, end_session, publish_event, mbind, M_bind, bind.
  rewrite !effect_redis_up by assumption. reflexivity.
Qed.

(** What [push_message] leaves in the ephemeral store. *)
Lemma history_after_push (call_id : str) (m : doc) (r : redis_state) :
  default [] (lists (expire (history_key call_id) SESSION_TTL
                       (rpush (history_key call_id) m r))
              !! history_key call_id)
  = default [] (lists r !! history_key call_id) ++ [m].
Proof.
  rewrite expire_lists. cbn [lists rpush]. now rewrite lookup_insert_eq.
Qed.

Lemma on_user_speech_history (now : Z) (call_id text : str)
    (confidence : float) (asr_provider : str) (asr_latency_ms : Z)
    (w : world) :
  history
    (snd (on_user_speech fails now call_id text confidence asr_provider
            asr_latency_ms w)) call_id
  = history w call_id
    ++ [[ (cps "role", VStr (cps "user")); (cps "text", VStr text) ]].
Proof.
  unfold on_user_speech, mbind, M_bind. unfold bind at 1.
  match goal with
  | |- context [try_except ?b ?m w] =>
      destruct (document_block_redis b m w) as [Hret Hredis];
      [ unfold add_segment, add_pipeline_step, mbind, M_bind; leaves_alone |];
      destruct (try_except b m w) as [r w1]
  end.
  simpl in Hret, Hredis. subst r.
  unfold history. rewrite <- Hredis. clear Hredis.
  unfold try_except, push_message, update_session, mbind, M_bind, bind.
  cbn [truthy]. rewrite !effect_redis_up by assumption.
  cbn [snd redis with_redis bump]. cbn [lists hset].
  apply history_after_push.
Qed.

Lemma on_bot_response_history (now : Z) (call_id text llm_provider : str)
    (llm_latency_ms : Z) (tts_provider : str) (tts_latency_ms : Z)
    (w : world) :
  history
    (snd (on_bot_response fails now call_id text llm_provider llm_latency_ms
            tts_provider tts_latency_ms w)) call_id
  = history w call_id
    ++ [[ (cps "role", VStr (cps "assistant")); (cps "text", VStr text) ]].
Proof.
  unfold on_bot_response, mbind, M_bind. unfold bind at 1.
  match goal with
  | |- context [try_except ?b ?m w] =>
      destruct (document_block_redis b m w) as [Hret Hredis];
      [ unfold add_segment, add_pipeline_step, mbind, M_bind, mret, M_ret;
        leaves_alone |];
      destruct (try_except b m w) as [r w1]
  end.
  simpl in Hret, Hredis. subst r.
  unfold history. rewrite <- Hredis. clear Hredis.
  unfold try_except, push_message, mbind, M_bind, bind.
  rewrite !effect_redis_up by assumption.
  cbn [snd redis with_redis bump].
  apply history_after_push.
Qed.

Lemma get_history_reads (call_id : str) (w : world) :
  fst (get_history fails call_id w) = Ok (history w call_id).
Proof. unfold get_history. now rewrite request_redis_up. Qed.

End StorageMore.

(** X19: while the ephemeral store answers, [on_barge_in] on a session
    whose [barge_ins] field holds the decimal text of [n] leaves the
    decimal text of [n + 1] there, for every [n] such that [n] and
    [n + 1] have at most [MAX_STR_DIGITS] digits. *)
Theorem barge_in_counts_up (fails : Storage.sink -> nat -> bool)
    (call_id : str) (n : Z) (w : Storage.world) :
  (forall k, fails Storage.Ephemeral k = false) ->
  Z.abs n < 10 ^ MAX_STR_DIGITS ->
  Z.abs (n + 1) < 10 ^ MAX_STR_DIGITS ->
  Storage.session_field w call_id (cps "barge_ins") = Some (str_of_int n) ->
  Storage.session_field (snd (Storage.on_barge_in fails call_id w))
    call_id (cps "barge_ins") = Some (str_of_int (n + 1)).
Proof.
  intros Hup Hn Hn1 Hfield.
  apply on_barge_in_field; try assumption; now apply Z.ltb_lt.
Qed.

Lemma barge_in_counts_up_witness :
  Storage.session_field
    (snd (Storage.on_barge_in Storage.no_faults (cps "call-0001")
            (snd (Storage.perform Storage.no_faults demo_call_start
                    Storage.empty_world))))
    (cps "call-0001") (cps "barge_ins") = Some (str_of_int (0 + 1)).
Proof.
  apply (barge_in_counts_up Storage.no_faults (cps "call-0001") 0).
  - reflexivity.
  - vm_compute. reflexivity.
  - vm_compute. reflexivity.
  - vm_compute. reflexivity.
Defined.

(** X20: a barge-in reported for a call that has no session hash leaves
    the ephemeral store as it was: no session is made for it. *)
Theorem barge_in_without_session (fails : Storage.sink -> nat -> bool)
    (call_id : str) (w : Storage.world) :
  (forall k, fails Storage.Ephemeral k = false) ->
  Storage.hashes (Storage.redis w) !! Storage.session_key call_id = None ->
  Storage.redis (snd (Storage.on_barge_in fails call_id w)) = Storage.redis w.
Proof. intros Hup Hnone. now apply on_barge_in_no_session. Qed.

Lemma barge_in_without_session_witness :
  Storage.redis
    (snd (Storage.on_barge_in Storage.no_faults (cps "call-0001")
            Storage.empty_world))
  = Storage.redis Storage.empty_world.
Proof.
  apply (barge_in_without_session Storage.no_faults (cps "call-0001")).
  - reflexivity.
  - reflexivity.
Defined.

(** X21: between the start and the end of a call the relational sink is
    left alone: [on_user_speech], [on_bot_response] and [on_barge_in] send
    it no request and change nothing it holds, whatever the other sinks
    do. *)
Theorem conversation_leaves_calls_table (fails : Storage.sink -> nat -> bool)
    (o : Storage.operation) (w : Storage.world) :
  Storage.is_conversation o = true ->
  Storage.pg (snd (Storage.perform fails o w)) = Storage.pg w /\
  Storage.attempts (snd (Storage.perform fails o w)) Storage.Relational
  = Storage.attempts w Storage.Relational.
Proof. intros Ho. exact (conversation_frame fails o Ho w). Qed.

Lemma conversation_leaves_calls_table_witness :
  Storage.pg
    (snd (Storage.perform document_down (Storage.OnBargeIn (cps "call-0001"))
            Storage.empty_world))
  = Storage.pg Storage.empty_world /\
  Storage.attempts
    (snd (Storage.perform document_down (Storage.OnBargeIn (cps "call-0001"))
            Storage.empty_world)) Storage.Relational
  = Storage.attempts Storage.empty_world Storage.Relational.
Proof.
  apply (conversation_leaves_calls_table document_down
           (Storage.OnBargeIn (cps "call-0001"))).
  reflexivity.
Defined.

(** X22: while the ephemeral store answers, [on_call_end] marks the
    session [ended], gives its hash 60 seconds to live, keeps every other
    field of it and publishes one [call_ended] event after those already
    published; this holds whether a session hash existed or not, and
    whatever the other two sinks do. *)
Theorem call_end_marks_session (fails : Storage.sink -> nat -> bool)
    (call_id : str) (duration_sec : Storage.float) (turns barge_ins : Z)
    (status : str) (w : Storage.world) :
  (forall k, fails Storage.Ephemeral k = false) ->
  let w' := snd (Storage.on_call_end fails call_id duration_sec turns
                   barge_ins status w) in
  Storage.session_field w' call_id (cps "state") = Some (cps "ended") /\
  Storage.ttl (Storage.redis w') !! Storage.session_key call_id = Some 60 /\
  (forall field, field <> cps "state" ->
     Storage.session_field w' call_id field
     = Storage.session_field w call_id field) /\
  Storage.published (Storage.redis w')
  = Storage.published (Storage.redis w)
    ++ [[ (cps "type", Storage.VStr (cps "call_ended"));
          (cps "call_id", Storage.VStr call_id);
          (cps "duration_sec", Storage.VFloat duration_sec);
          (cps "turns", Storage.VInt turns);
          (cps "status", Storage.VStr status) ]].
Proof.
  intros Hup w'. subst w'. unfold Storage.session_field.
  rewrite on_call_end_redis by assumption.
  cbn [Storage.hashes Storage.ttl Storage.published Storage.publish].
  rewrite expire_hashes, expire_published.
  repeat split.
  - apply hset_field. intros h. cbn [foldl fst snd]. apply lookup_insert_eq.
  - apply expire_after_hset.
  - intros field Hfield. cbn [Storage.hashes Storage.hset].
    rewrite lookup_insert_eq. cbn [foldl fst snd].
    destruct (Storage.hashes (Storage.redis w) !! Storage.session_key call_id)
      as [h|]; simpl.
    + now rewrite lookup_insert_ne
        by (intros Heq; apply Hfield; symmetry; exact Heq).
    + rewrite lookup_insert_ne
        by (intros Heq; apply Hfield; symmetry; exact Heq).
      apply lookup_empty.
Qed.

Lemma call_end_marks_session_witness :
  let w' := snd (Storage.on_call_end Storage.no_faults (cps "call-0001")
                   2.5%float 3 1 (cps "completed")
                   Storage.empty_world) in
  Storage.session_field w' (cps "call-0001") (cps "state")
  = Some (cps "ended") /\
  Storage.ttl (Storage.redis w') !! Storage.session_key (cps "call-0001")
  = Some 60 /\
  (forall field, field <> cps "state" ->
     Storage.session_field w' (cps "call-0001") field
     = Storage.session_field Storage.empty_world (cps "call-0001") field) /\
  Storage.published (Storage.redis w')
  = Storage.published (Storage.redis Storage.empty_world)
    ++ [[ (cps "type", Storage.VStr (cps "call_ended"));
          (cps "call_id", Storage.VStr (cps "call-0001"));
          (cps "duration_sec", Storage.VFloat 2.5%float);
          (cps "turns", Storage.VInt 3);
          (cps "status", Storage.VStr (cps "completed")) ]].
Proof.
  apply (call_end_marks_session Storage.no_faults (cps "call-0001")
           2.5%float 3 1 (cps "completed")
           Storage.empty_world).
  reflexivity.
Defined.

(** X23: while the ephemeral store answers, the dialog history of a call
    grows in the order of the conversation: after [on_user_speech] and
    then [on_bot_response], [get_history] returns what it held before,
    then the user message, then the assistant message. *)
Theorem history_keeps_the_dialog (fails : Storage.sink -> nat -> bool)
    (now1 now2 : Z) (call_id text reply asr_provider llm_provider
     tts_provider : str) (confidence : Storage.float)
    (asr_ms llm_ms tts_ms : Z) (w : Storage.world) :
  (forall k, fails Storage.Ephemeral k = false) ->
  let w1 := snd (Storage.on_user_speech fails now1 call_id text confidence
                   asr_provider asr_ms w) in
  let w2 := snd (Storage.on_bot_response fails now2 call_id reply
                   llm_provider llm_ms tts_provider tts_ms w1) in
  fst (Storage.get_history fails call_id w2)
  = Ok (Storage.history w call_id
        ++ [ [ (cps "role", Storage.VStr (cps "user"));
               (cps "text", Storage.VStr text) ];
             [ (cps "role", Storage.VStr (cps "assistant"));
               (cps "text", Storage.VStr reply) ] ]).
Proof.
  intros Hup w1 w2. subst w1 w2.
  rewrite get_history_reads by assumption.
  rewrite on_bot_response_history, on_user_speech_history by assumption.
  now rewrite <- app_assoc.
Qed.

Lemma history_keeps_the_dialog_witness :
  let w1 := snd (Storage.on_user_speech document_down 10 (cps "call-0001")
                   (cps "hello") 1%float (cps "yandex") 120
                   Storage.empty_world) in
  let w2 := snd (Storage.on_bot_response document_down 11 (cps "call-0001")
                   (cps "hi") (cps "yandex") 300 (cps "zvukogram") 200 w1) in
  fst (Storage.get_history document_down (cps "call-0001") w2)
  = Ok (Storage.history Storage.empty_world (cps "call-0001")
        ++ [ [ (cps "role", Storage.VStr (cps "user"));
               (cps "text", Storage.VStr (cps "hello")) ];
             [ (cps "role", Storage.VStr (cps "assistant"));
               (cps "text", Storage.VStr (cps "hi")) ] ]).
Proof.
  apply (history_keeps_the_dialog document_down 10 11 (cps "call-0001")
           (cps "hello") (cps "hi") (cps "yandex") (cps "yandex")
           (cps "zvukogram") 1%float 120 300 200
           Storage.empty_world).
  reflexivity.
Defined.

(** ** Sessions: the reply loop and the turn counter *)
Section SessionsMore.
Import Sessions.

Lemma reply_loop_from_turns (items : list sentence_reply) :
  forall (first_audio : bool) (s : session) (fr : str),
    total_turns (fst (fst (fst (reply_loop_from first_audio items s fr))))
    = total_turns s.
Proof.
  induction items as [|item rest IH]; intros first_audio s fr;
    [reflexivity|].
  cbn [reply_loop_from].
  destruct (negb _ || _); cbn [fst];
    [apply (disturb_keeps (during_llm item) s)|].
  destruct (tts item) as [[audio rate]|e];
    [destruct (truthy audio && _ && _)|];
    match goal with
    | |- context [reply_loop_from ?b rest ?s3 ?fr'] =>
        specialize (IH b s3 fr');
        destruct (reply_loop_from b rest s3 fr') as [[[s4 acts'] full] fin]
    end;
    cbn [fst] in *; rewrite IH;
    rewrite ?(proj1 (disturb_keeps _ _)); reflexivity.
Qed.

Lemma reply_loop_turns (items : list sentence_reply) (s : session)
    (fr : str) :
  total_turns (fst (fst (fst (reply_loop items s fr)))) = total_turns s.
Proof. apply reply_loop_from_turns. Qed.

Lemma asr_stage_turns (s : session) (audio_data : bytes) (a : asr_reply) :
  total_turns (fst (fst (asr_stage s audio_data a))) = total_turns s + 1.
Proof.
  unfold asr_stage.
  destruct (recognized a) as [txt|e]; [destruct (negb (truthy txt))|];
    cbn [fst record_user total_turns];
    now rewrite (proj1 (disturb_keeps _ _)).
Qed.

Lemma pipeline_turns (s : session) (audio_data : bytes) (env : pipeline_env) :
  total_turns (fst (pipeline_process_speech s audio_data env))
  = total_turns s + 1.
Proof.
  unfold pipeline_process_speech.
  pose proof (asr_stage_turns s audio_data (asr env)) as Hasr.
  destruct (asr_stage s audio_data (asr env)) as [[s1 acts] [txt|]];
    cbn [fst] in Hasr; [|exact Hasr].
  pose proof (reply_loop_turns (stream env) s1 []) as Hloop.
  destruct (reply_loop (stream env) s1 []) as [[[s2 acts2] full] fin].
  cbn [fst] in Hloop.
  destruct (if fin then stream_error env else None);
    [|destruct (truthy (strip full))]; cbn [fst add_transcript add_message
                                              total_turns]; congruence.
Qed.

Lemma script_turns (tracks : gmap str (bytes * Z)) (s : session)
    (audio_data : bytes) (env : script_env) :
  total_turns (snd (fst (script_process_speech tracks s audio_data env)))
  = total_turns s + 1.
Proof.
  unfold script_process_speech.
  pose proof (asr_stage_turns s audio_data (script_asr env)) as Hasr.
  destruct (asr_stage s audio_data (script_asr env)) as [[s1 acts] [txt|]];
    cbn [fst] in Hasr; [|exact Hasr].
  destruct (chat env) as [raw|e];
    [destruct (tracks !! clean_answer raw) as [[pcm rate]|];
     [destruct (_ && _); [destruct (script_play_raises env)|]|]|];
    cbn [fst snd add_transcript add_message total_turns];
    now rewrite (proj1 (disturb_keeps _ _)).
Qed.

(** The loop over a stream whose next sentence arrives at a stopped or
    interrupted session. *)
Lemma reply_loop_from_cut (pre : list sentence_reply) (item : sentence_reply)
    (post : list sentence_reply) :
  forall (first_audio : bool) (s : session) (fr : str)
         (s1 : session) (acts1 : list action) (fr1 : str),
    reply_loop_from first_audio pre s fr = (s1, acts1, fr1, true) ->
    flagged (disturb (during_llm item) s1) = true ->
    reply_loop_from first_audio (pre ++ item :: post) s fr
    = (disturb (during_llm item) s1, acts1 ++ [LogInfo], fr1, false).
Proof.
  induction pre as [|p pre IH];
    intros first_audio s fr s1 acts1 fr1 Hpre Hflag.
  - simpl in Hpre. injection Hpre as <- <- <-.
    cbn [app reply_loop_from]. unfold flagged in Hflag. now rewrite Hflag.
  - cbn [app reply_loop_from] in Hpre |- *.
    destruct (negb _ || _); [discriminate|].
    destruct (tts p) as [[audio rate]|e];
      [destruct (truthy audio && _ && _)|];
      match type of Hpre with
      | context [reply_loop_from ?b pre ?s3 ?fr'] =>
          specialize (IH b s3 fr');
          destruct (reply_loop_from b pre s3 fr') as [[[s4 acts'] full] fin]
      end;
      injection Hpre as <- <- <- ->;
      rewrite (IH _ _ _ eq_refl Hflag);
      repeat (rewrite <- ?app_assoc; cbn [app]); reflexivity.
Qed.

Lemma quiet_loop_from (items : list sentence_reply) (s : session) :
  is_active s = true -> barge_in_triggered s = false ->
  Forall quiet items ->
  forall (first_audio : bool) (fr : str),
  exists acts full,
    reply_loop_from first_audio items s fr = (s, acts, full, true) /\
    List.filter is_play acts = plays_of items.
Proof.
  intros Hact Hbarge Hall.
  induction Hall as [|item rest (Hl & Ht & Hp) _ IH]; intros first_audio fr.
  - exists [], fr. split; reflexivity.
  - cbn [reply_loop_from plays_of flat_map]. rewrite Hl, Ht, Hp.
    cbn [disturb]. rewrite Hact, Hbarge. cbn [negb orb andb].
    destruct (tts item) as [[audio rate]|e].
    + destruct (truthy audio); cbn [andb negb].
      * match goal with
        | |- context [reply_loop_from ?b rest s ?fr'] =>
            destruct (IH b fr') as (acts & full & -> & Hplays)
        end.
        eexists _, _. split; [reflexivity|].
        cbn [List.filter is_play app].
        rewrite !List.filter_app, Hplays.
        destruct first_audio, (play_raises item); reflexivity.
      * match goal with
        | |- context [reply_loop_from ?b rest s ?fr'] =>
            destruct (IH b fr') as (acts & full & -> & Hplays)
        end.
        eexists _, _. split; [reflexivity|].
        cbn [List.filter is_play app].
        rewrite !List.filter_app, Hplays.
        destruct first_audio; reflexivity.
    + match goal with
      | |- context [reply_loop_from ?b rest s ?fr'] =>
          destruct (IH b fr') as (acts & full & -> & Hplays)
      end.
      eexists _, _. split; [reflexivity|].
      cbn [List.filter is_play app]. exact Hplays.
Qed.

End SessionsMore.

(** X24: every run of [_process_speech], in the pipeline and in the script
    variant, counts exactly one turn, whatever the recognizer, the model,
    the TTS engine and the playback answer and whether a barge-in or a
    stop comes in between. *)
Theorem one_turn_per_utterance (s : Sessions.session) (audio_data : bytes)
    (penv : Sessions.pipeline_env) (tracks : gmap str (bytes * Z))
    (senv : Sessions.script_env) :
  Sessions.total_turns
    (fst (Sessions.pipeline_process_speech s audio_data penv))
  = Sessions.total_turns s + 1 /\
  Sessions.total_turns
    (snd (fst (Sessions.script_process_speech tracks s audio_data senv)))
  = Sessions.total_turns s + 1.
Proof. split; [apply pipeline_turns | apply script_turns]. Qed.

(** X25: the reply loop ends at the first sentence that arrives at a
    stopped or interrupted session: it does what it did for the sentences
    before, logs the interruption and leaves; the sentence and all that
    follow are neither synthesized nor played nor added to the
    response. *)
Theorem reply_loop_stops_when_interrupted
    (pre : list Sessions.sentence_reply) (item : Sessions.sentence_reply)
    (post : list Sessions.sentence_reply) (s : Sessions.session) (fr : str)
    (s1 : Sessions.session) (acts1 : list Sessions.action) (fr1 : str) :
  Sessions.reply_loop pre s fr = (s1, acts1, fr1, true) ->
  Sessions.flagged (Sessions.disturb (Sessions.during_llm item) s1) = true ->
  Sessions.reply_loop (pre ++ item :: post) s fr
  = (Sessions.disturb (Sessions.during_llm item) s1,
     acts1 ++ [Sessions.LogInfo], fr1, false).
Proof. apply reply_loop_from_cut. Qed.

(** X26: while no other task interrupts or stops the session, the reply
    loop reads the stream to its end and plays the audio of the
    sentences in the order of the stream, skipping those for which the
    TTS engine raised or returned no audio; an exception of [play_pcm]
    does not end the loop. *)
Theorem quiet_loop_plays_in_order (items : list Sessions.sentence_reply)
    (s : Sessions.session) (fr : str) :
  Sessions.is_active s = true ->
  Sessions.barge_in_triggered s = false ->
  Forall Sessions.quiet items ->
  exists acts full,
    Sessions.reply_loop items s fr = (s, acts, full, true) /\
    List.filter Sessions.is_play acts = Sessions.plays_of items.
Proof. intros Hact Hbarge Hall. now apply quiet_loop_from. Qed.

Lemma reply_loop_stops_when_interrupted_witness :
  Sessions.reply_loop
    ([spoken "Hi there." Sessions.BargeIn]
     ++ spoken "How are you?" Sessions.Quiet
        :: [spoken "Bye." Sessions.Quiet]) fresh_session []
  = (Sessions.disturb Sessions.Quiet
       (Sessions.disturb Sessions.BargeIn fresh_session),
     [Sessions.LogInfo; Sessions.Synthesize (cps "Hi there.");
      Sessions.LogInfo; Sessions.LogInfo;
      Sessions.PlayPcm silent_frame 8000]
     ++ [Sessions.LogInfo],
     cps "Hi there.", false).
Proof.
  apply (reply_loop_stops_when_interrupted
           [spoken "Hi there." Sessions.BargeIn]
           (spoken "How are you?" Sessions.Quiet)
           [spoken "Bye." Sessions.Quiet] fresh_session []).
  - reflexivity.
  - reflexivity.
Defined.

Lemma quiet_loop_plays_in_order_witness :
  exists acts full,
    Sessions.reply_loop
      [spoken "Hi there." Sessions.Quiet; spoken "How are you?" Sessions.Quiet]
      fresh_session []
    = (fresh_session, acts, full, true) /\
    List.filter Sessions.is_play acts
    = Sessions.plays_of
        [spoken "Hi there." Sessions.Quiet;
         spoken "How are you?" Sessions.Quiet].
Proof.
  apply (quiet_loop_plays_in_order
           [spoken "Hi there." Sessions.Quiet;
            spoken "How are you?" Sessions.Quiet] fresh_session []).
  - reflexivity.
  - reflexivity.
  - repeat constructor.
Defined.

(** ** Realtime session: the loop over the events of the API *)
Section RealtimeFacts.
Import Realtime.

Lemma realtime_wait_loop_fuel (env : play_env) (duration_ms : Z) (fuel : nat) :
  forall (tick : nat) (elapsed : Z) (s : session) (more : nat),
    duration_ms - elapsed < 100 * Z.of_nat fuel ->
    wait_loop (fuel + more) env tick elapsed duration_ms s =
    wait_loop fuel env tick elapsed duration_ms s.
Proof.
  induction fuel as [|fuel IH]; intros tick elapsed s more Hfuel.
  - destruct more as [|more]; simpl; [reflexivity|].
    destruct (Z.ltb_spec elapsed duration_ms); [lia|]. reflexivity.
  - simpl. destruct (_ && _ && _); [|reflexivity].
    rewrite IH by lia. reflexivity.
Qed.

(** The polling loop has the iterations it needs. *)
Lemma realtime_wait_fuel_enough (env : play_env) (duration_ms : Z) (s : session)
    (more : nat) :
  wait_loop (wait_fuel duration_ms + more) env 0 0 duration_ms s =
  wait_loop (wait_fuel duration_ms) env 0 0 duration_ms s.
Proof. apply realtime_wait_loop_fuel. unfold wait_fuel. lia. Qed.

Lemma wait_loop_quiet (fuel : nat) (env : play_env) :
  forall (tick : nat) (elapsed duration_ms : Z) (s : session),
    existsb is_break (snd (wait_loop fuel env tick elapsed duration_ms s))
    = false /\
    has_storage (fst (wait_loop fuel env tick elapsed duration_ms s))
    = has_storage s /\
    transcript (fst (wait_loop fuel env tick elapsed duration_ms s))
    = transcript s.
Proof.
  induction fuel as [|fuel IH]; intros tick elapsed duration_ms s;
    [now repeat split|].
  cbn [wait_loop]. destruct (_ && _ && _); [|now repeat split].
  specialize (IH (S tick) (elapsed + 100) duration_ms
                 (stopped (stop_during_sleep env tick) s)).
  destruct (wait_loop fuel env (S tick) (elapsed + 100) duration_ms _)
    as [s2 e2].
  cbn [fst snd existsb is_break orb] in *.
  destruct IH as (Hq & Hs & Ht). repeat split; [assumption | |].
  - rewrite Hs. unfold stopped. now destruct (stop_during_sleep env tick).
  - rewrite Ht. unfold stopped. now destruct (stop_during_sleep env tick).
Qed.

Lemma broadcast_is_no_break (s : session) (wav_path : str) :
  is_break (Exec (broadcast_cmd s wav_path)) = false.
Proof. reflexivity. Qed.

(** [_play_response] sends no [uuid_break], leaves [is_playing] off when
    it found it off, and writes nothing to the transcript. *)
Lemma play_response_quiet (s : session) (audio_48k : bytes) (env : play_env) :
  let '(_, s', evs) := _play_response s audio_48k env in
  existsb is_break evs = false /\
  (is_playing s = false -> is_playing s' = false) /\
  has_storage s' = has_storage s /\
  transcript s' = transcript s.
Proof.
  unfold _play_response.
  destruct (negb (has_uuid s) || negb (is_active s)); [now repeat split|].
  destruct (Audio.downsample _ _ _) as [audio_8k|e]; [|now repeat split].
  destruct (negb (save_wav_ok env)); [now repeat split|].
  destruct (broadcast env) as [stdout|e].
  - destruct (negb (contains _ stdout)).
    + unfold stopped. destruct (stop_during_broadcast env); now repeat split.
    + match goal with
      | |- context [wait_loop ?f ?e ?t ?el ?d ?s3] =>
          pose proof (wait_loop_quiet f e t el d s3) as (Hq & Hs & Ht);
          destruct (wait_loop f e t el d s3) as [s4 e4]
      end.
      cbn [fst snd] in Hq, Hs, Ht.
      repeat split; [exact Hq | |].
      * cbn [has_storage set_is_playing]. rewrite Hs. unfold stopped.
        now destruct (stop_during_broadcast env).
      * cbn [transcript set_is_playing]. rewrite Ht. unfold stopped.
        now destruct (stop_during_broadcast env).
  - unfold stopped. destruct (stop_during_broadcast env); now repeat split.
Qed.

Lemma on_event_quiet (s : session) (ev : ai_event) :
  is_playing s = false ->
  existsb is_break (snd (on_event s ev)) = false /\
  is_playing (snd (fst (on_event s ev))) = false.
Proof.
  intros Hp. destruct ev as [[bs|e]|d|env|tr|ok|err| |]; cbn [on_event].
  - now split.
  - now split.
  - destruct (truthy d); now split.
  - destruct (truthy (response_audio s)).
    + pose proof (play_response_quiet s (response_audio s) env) as Hplay.
      destruct (_play_response s (response_audio s) env) as [[r s1] evs].
      destruct Hplay as (Hq & Hkeep & _ & _). specialize (Hkeep Hp).
      destruct r as [[]|e].
      * destruct (truthy _ && has_storage _); cbn [fst snd existsb is_break orb];
          (split; [|assumption]); [|assumption].
        rewrite existsb_app, Hq. reflexivity.
      * cbn [fst snd existsb is_break orb]. now split.
    + destruct (truthy _ && has_storage _); now split.
  - destruct (truthy tr); [|now split].
    destruct (has_storage s); now split.
  - unfold _stop_playback.
    cbn [is_playing count_barge_in set_response_audio]. rewrite Hp.
    rewrite andb_false_r. cbn [fst snd app existsb is_break orb].
    split; [|assumption].
    now destruct (has_storage _).
  - destruct err; now split.
  - now split.
  - now split.
Qed.

Lemma handle_quiet (msgs : list incoming) :
  forall s, is_playing s = false ->
    existsb is_break (snd (_handle_ai_response s msgs)) = false /\
    is_playing (fst (_handle_ai_response s msgs)) = false.
Proof.
  induction msgs as [|m msgs IH]; intros s Hp; [now split|].
  destruct m as [ev| |]; cbn [_handle_ai_response].
  - destruct (negb (is_active s)); [now split|].
    destruct (on_event_quiet s ev Hp) as [Hq Hp1].
    destruct (on_event s ev) as [[[[]|e] s1] evs]; cbn [fst snd] in Hq, Hp1.
    + destruct (IH s1 Hp1) as [Hq' Hp'].
      destruct (_handle_ai_response s1 msgs) as [s2 evs'].
      cbn [fst snd] in *. now rewrite existsb_app, Hq, Hq'.
    + cbn [fst snd]. rewrite existsb_app, Hq. now split.
  - apply IH. exact Hp.
  - now split.
Qed.

(** Audio deltas only fill the buffer. *)
Lemma handle_audio_deltas (chunks : list bytes) (tail : list incoming) :
  forall s, is_active s = true ->
    _handle_ai_response s (audio_deltas chunks ++ tail)
    = _handle_ai_response
        (set_response_audio (response_audio s ++ concat chunks) s) tail.
Proof.
  induction chunks as [|bs chunks IH]; intros s Hact.
  - cbn [audio_deltas map app concat]. rewrite app_nil_r. now destruct s.
  - cbn [audio_deltas map app concat _handle_ai_response on_event].
    rewrite Hact. cbn [negb].
    fold (audio_deltas chunks).
    destruct (_handle_ai_response _ (audio_deltas chunks ++ tail))
      as [s2 evs'] eqn:Hrest.
    rewrite IH in Hrest by exact Hact.
    cbn [response_audio set_response_audio] in Hrest.
    rewrite <- app_assoc in Hrest.
    cbn [app]. rewrite <- Hrest. f_equal.
Qed.

Lemma has_prefix_app (p rest : str) : has_prefix p (p ++ rest) = true.
Proof.
  induction p as [|c p IH]; [now destruct rest|].
  cbn [app has_prefix]. now rewrite N.eqb_refl, IH.
Qed.

Lemma on_event_transcript (s : session) (ev : ai_event) :
  has_storage s = false ->
  has_storage (snd (fst (on_event s ev))) = false /\
  exists added,
    transcript (snd (fst (on_event s ev))) = transcript s ++ added /\
    Forall (fun line => has_prefix Sessions.client_prefix line = true) added.
Proof.
  intros Hst.
  assert (forall s', has_storage s' = false -> transcript s' = transcript s ->
            has_storage s' = false /\
            exists added,
              transcript s' = transcript s ++ added /\
              Forall (fun line =>
                        has_prefix Sessions.client_prefix line = true) added)
    as Hsame.
  { intros s' Hs' Ht. split; [assumption|]. exists [].
    rewrite app_nil_r. now split. }
  destruct ev as [[bs|e]|d|env|tr|ok|err| |]; cbn [on_event].
  - now apply Hsame.
  - now apply Hsame.
  - destruct (truthy d); now apply Hsame.
  - destruct (truthy (response_audio s)).
    + pose proof (play_response_quiet s (response_audio s) env) as Hplay.
      destruct (_play_response s (response_audio s) env) as [[r s1] evs].
      destruct Hplay as (_ & _ & Hs1 & Ht1). rewrite Hst in Hs1.
      destruct r as [[]|e].
      * cbn [has_storage count_turn set_response_audio]. rewrite Hs1.
        rewrite andb_false_r. cbn [fst snd]. now apply Hsame.
      * cbn [fst snd]. now apply Hsame.
    + cbn [has_storage count_turn]. rewrite Hst, andb_false_r.
      cbn [fst snd]. now apply Hsame.
  - destruct (truthy tr); [|now apply Hsame].
    cbn [fst snd]. split; [assumption|].
    exists [Sessions.client_prefix ++ tr]. split; [reflexivity|].
    constructor; [apply has_prefix_app | constructor].
  - unfold _stop_playback.
    destruct (has_uuid _ && is_playing _); [destruct ok|];
      cbn [fst snd]; now apply Hsame.
  - now apply Hsame.
  - now apply Hsame.
  - now apply Hsame.
Qed.

Lemma handle_transcript (msgs : list incoming) :
  forall s, has_storage s = false ->
    exists added,
      transcript (fst (_handle_ai_response s msgs)) = transcript s ++ added /\
      Forall (fun line => has_prefix Sessions.client_prefix line = true) added.
Proof.
  induction msgs as [|m msgs IH]; intros s Hst.
  - exists []. rewrite app_nil_r. now split.
  - destruct m as [ev| |]; cbn [_handle_ai_response].
    + destruct (negb (is_active s)).
      { exists []. rewrite app_nil_r. now split. }
      destruct (on_event_transcript s ev Hst) as (Hs1 & added & Ht & Hall).
      destruct (on_event s ev) as [[[[]|e] s1] evs];
        cbn [fst snd] in Hs1, Ht.
      * destruct (IH s1 Hs1) as (added' & Ht' & Hall').
        destruct (_handle_ai_response s1 msgs) as [s2 evs'].
        cbn [fst] in *. exists (added ++ added').
        rewrite Ht', Ht, app_assoc. split; [reflexivity|].
        now apply Forall_app.
      * exists added. now split.
    + destruct (IH (set_is_active false s) Hst) as (added & Ht & Hall).
      exists added. now split.
    + exists []. rewrite app_nil_r. now split.
Qed.

Lemma play_response_saves (s : session) (audio_48k audio_8k : bytes)
    (env : play_env) :
  has_uuid s = true -> is_active s = true ->
  Audio.downsample audio_48k 48000 8000 = Ok audio_8k ->
  exists rest,
    snd (_play_response s audio_48k env)
    = SaveWav (wav_path_of s (file_counter s)) audio_8k 8000 :: rest.
Proof.
  intros Huuid Hact Hdown. unfold _play_response.
  rewrite Huuid, Hact, Hdown. cbn [negb orb].
  destruct (negb (save_wav_ok env)); [eexists; reflexivity|].
  destruct (broadcast env) as [stdout|e]; [|eexists; reflexivity].
  destruct (negb (contains _ stdout)); [eexists; reflexivity|].
  destruct (wait_loop _ _ _ _ _ _) as [s4 e4]. eexists; reflexivity.
Qed.

Lemma on_done_saves (s : session) (audio_8k : bytes) (env : play_env) :
  has_uuid s = true -> is_active s = true ->
  truthy (response_audio s) = true ->
  Audio.downsample (response_audio s) 48000 8000 = Ok audio_8k ->
  exists rest,
    snd (on_event s (ResponseDone env))
    = LogInfo :: SaveWav (wav_path_of s (file_counter s)) audio_8k 8000
      :: rest.
Proof.
  intros Huuid Hact Hbuf Hdown. cbn [on_event]. rewrite Hbuf.
  destruct (play_response_saves s (response_audio s) audio_8k env
              Huuid Hact Hdown) as [rest Hrest].
  destruct (_play_response s (response_audio s) env) as [[r s1] evs].
  cbn [snd] in Hrest. subst evs.
  destruct r as [[]|e]; [|eexists; reflexivity].
  destruct (truthy _ && has_storage _); eexists; reflexivity.
Qed.

Lemma handle_message_head (s : session) (ev : ai_event)
    (more : list incoming) (a b : io_event) (rest : list io_event) :
  is_active s = true ->
  snd (on_event s ev) = a :: b :: rest ->
  exists rest',
    snd (_handle_ai_response s (Message ev :: more)) = a :: b :: rest'.
Proof.
  intros Hact Hev. cbn [_handle_ai_response]. rewrite Hact. cbn [negb].
  destruct (on_event s ev) as [[[[]|e] s1] evs]; cbn [snd] in Hev; subst evs.
  - destruct (_handle_ai_response s1 more) as [s2 evs'].
    eexists; reflexivity.
  - eexists; reflexivity.
Qed.

End RealtimeFacts.

(** X27: what the realtime loop plays at [response.done] is the audio of
    all the deltas received so far, in order, brought from 48 to 8 kHz:
    on an active session that has its uuid, after any number of audio
    deltas the loop logs the end of the response and then saves the
    downsampled buffer for playback, and nothing is played before. *)
Theorem response_done_plays_buffered_audio (s : Realtime.session)
    (chunks : list bytes) (env : Realtime.play_env)
    (more : list Realtime.incoming) :
  Realtime.has_uuid s = true ->
  Realtime.is_active s = true ->
  truthy (Realtime.response_audio s ++ concat chunks) = true ->
  exists audio_8k rest,
    Audio.downsample (Realtime.response_audio s ++ concat chunks) 48000 8000
    = Ok audio_8k /\
    snd (Realtime._handle_ai_response s
           (Realtime.audio_deltas chunks
            ++ Realtime.Message (Realtime.ResponseDone env) :: more))
    = Realtime.LogInfo
      :: Realtime.SaveWav (Realtime.wav_path_of s (Realtime.file_counter s))
           audio_8k 8000
      :: rest.
Proof.
  intros Huuid Hact Hbuf.
  rewrite handle_audio_deltas by assumption.
  destruct (resample_returns (Realtime.response_audio s ++ concat chunks)
              48000) as [audio_8k Hdown].
  cbn [Z.eqb Pos.eqb negb] in Hdown.
  exists audio_8k.
  destruct (on_done_saves
              (Realtime.set_response_audio
                 (Realtime.response_audio s ++ concat chunks) s)
              audio_8k env Huuid Hact Hbuf Hdown) as [rest Hrest].
  destruct (handle_message_head
              (Realtime.set_response_audio
                 (Realtime.response_audio s ++ concat chunks) s)
              (Realtime.ResponseDone env) more _ _ _ Hact Hrest)
    as [rest' Hhead].
  exists rest'. split; [exact Hdown | exact Hhead].
Qed.

Lemma response_done_plays_buffered_audio_witness :
  exists audio_8k rest,
    Audio.downsample
      (Realtime.response_audio realtime_session
       ++ concat [loud_frame ++ loud_frame ++ loud_frame;
                  silent_frame ++ silent_frame ++ silent_frame]) 48000 8000
    = Ok audio_8k /\
    snd (Realtime._handle_ai_response realtime_session
           (Realtime.audio_deltas
              [loud_frame ++ loud_frame ++ loud_frame;
               silent_frame ++ silent_frame ++ silent_frame]
            ++ Realtime.Message (Realtime.ResponseDone realtime_env) :: []))
    = Realtime.LogInfo
      :: Realtime.SaveWav
           (Realtime.wav_path_of realtime_session
              (Realtime.file_counter realtime_session))
           audio_8k 8000
      :: rest.
Proof.
  apply (response_done_plays_buffered_audio realtime_session
           [loud_frame ++ loud_frame ++ loud_frame;
            silent_frame ++ silent_frame ++ silent_frame] realtime_env []).
  - reflexivity.
  - reflexivity.
  - reflexivity.
Defined.

(** X28: the realtime loop never interrupts a playback.  [is_playing] is
    set only inside [_play_response], which the loop awaits before it
    reads the next message, so the flag is off whenever a
    [speech_started] event is handled: whatever the messages and
    whenever [stop()] runs, no [uuid_break] command is sent, and the flag
    is off when the loop ends. *)
Theorem realtime_loop_never_breaks_playback (s : Realtime.session)
    (msgs : list Realtime.incoming) :
  Realtime.is_playing s = false ->
  existsb Realtime.is_break (snd (Realtime._handle_ai_response s msgs))
  = false /\
  Realtime.is_playing (fst (Realtime._handle_ai_response s msgs)) = false.
Proof. intros Hp. now apply handle_quiet. Qed.

Lemma realtime_loop_never_breaks_playback_witness :
  existsb Realtime.is_break
    (snd (Realtime._handle_ai_response realtime_session realtime_messages))
  = false /\
  Realtime.is_playing
    (fst (Realtime._handle_ai_response realtime_session realtime_messages))
  = false.
Proof.
  apply (realtime_loop_never_breaks_playback realtime_session
           realtime_messages).
  reflexivity.
Defined.

(** X29: a realtime session without storage writes only the caller's
    lines to its transcript: whatever the messages, every line the loop
    adds begins with the client prefix, and the text of the responses is
    never added. *)
Theorem realtime_transcript_without_storage (s : Realtime.session)
    (msgs : list Realtime.incoming) :
  Realtime.has_storage s = false ->
  exists added,
    Realtime.transcript (fst (Realtime._handle_ai_response s msgs))
    = Realtime.transcript s ++ added /\
    Forall (fun line => has_prefix Sessions.client_prefix line = true) added.
Proof. intros Hst. now apply handle_transcript. Qed.

Lemma realtime_transcript_without_storage_witness :
  exists added,
    Realtime.transcript
      (fst (Realtime._handle_ai_response realtime_session realtime_messages))
    = Realtime.transcript realtime_session ++ added /\
    Forall (fun line => has_prefix Sessions.client_prefix line = true) added.
Proof.
  apply (realtime_transcript_without_storage realtime_session
           realtime_messages).
  reflexivity.
Defined.

(** The messages of the example: the caller's line is the only one in the
    transcript, the turn and the barge-in are counted, and one file was
    made for the playback. *)
Example realtime_turn :
  let s := fst (Realtime._handle_ai_response realtime_session
                  realtime_messages) in
  Realtime.transcript s = [Sessions.client_prefix ++ cps "hi"] /\
  Realtime.total_turns s = 1 /\
  Realtime.barge_in_count s = 1 /\
  Realtime.temp_files s
  = [Realtime.wav_path_of realtime_session 0].
Proof. vm_compute. repeat split. Qed.

(** ** Configuration: the merge of the file over the defaults *)
Section ConfigFacts.
Import Config.

Lemma merge_value_dicts (base override : list (str * value)) :
  merge_value (Some (Dict base)) (Dict override)
  = Dict (_deep_merge base override).
Proof.
  cbn [merge_value]. f_equal. revert base.
  induction override as [|[k v] rest IH]; intros base; [reflexivity|].
  cbn [_deep_merge]. apply IH.
Qed.

Lemma lookup_assign_eq (k : str) (v : value) (d : list (str * value)) :
  lookup k (assign k v d) = Some v.
Proof.
  induction d as [|[k' v'] d IH]; cbn [assign lookup].
  - now rewrite decide_True.
  - destruct (decide (k' = k)) as [->|Hne]; cbn [lookup].
    + now rewrite decide_True.
    + now rewrite decide_False.
Qed.

Lemma lookup_assign_ne (k k0 : str) (v : value) (d : list (str * value)) :
  k0 <> k -> lookup k (assign k0 v d) = lookup k d.
Proof.
  intros Hne. induction d as [|[k' v'] d IH]; cbn [assign lookup].
  - now rewrite decide_False.
  - destruct (decide (k' = k0)) as [->|Hne']; cbn [lookup].
    + now rewrite !decide_False.
    + destruct (decide (k' = k)); [reflexivity | exact IH].
Qed.

Lemma lookup_none (k : str) (d : list (str * value)) :
  k ∉ map fst d -> lookup k d = None.
Proof.
  induction d as [|[k' v'] d IH]; [reflexivity|].
  cbn [map fst lookup]. intros Hnot.
  rewrite decide_False by (intros ->; apply Hnot; left).
  apply IH. intros Hin. apply Hnot. now right.
Qed.

(** What the merge holds under a key: the override's value merged over
    the base's, or the base's where the override has none. *)
Lemma lookup_deep_merge (k : str) (override : list (str * value)) :
  NoDup (map fst override) ->
  forall base,
    lookup k (_deep_merge base override)
    = match lookup k override with
      | Some v => Some (merge_value (lookup k base) v)
      | None => lookup k base
      end.
Proof.
  induction override as [|[k0 v0] rest IH]; intros Hnd base; [reflexivity|].
  cbn [map fst] in Hnd. apply NoDup_cons in Hnd as [Hnot Hnd].
  cbn [_deep_merge lookup]. rewrite (IH Hnd).
  destruct (decide (k0 = k)) as [->|Hne].
  - rewrite (lookup_none k rest Hnot). apply lookup_assign_eq.
  - now rewrite lookup_assign_ne by exact Hne.
Qed.

Lemma distinct_keys_dict (d : list (str * value)) :
  distinct_keys (Dict d) = true ->
  NoDup (map fst d) /\
  forall k v, lookup k d = Some v -> distinct_keys v = true.
Proof.
  cbn [distinct_keys]. intros [Hnd Hall]%andb_true_iff.
  apply bool_decide_eq_true in Hnd. split; [exact Hnd|].
  clear Hnd. induction d as [|[k' v'] d IH]; intros k v; [discriminate|].
  apply andb_true_iff in Hall as [Hv' Hall]. cbn [lookup].
  destruct (decide (k' = k)); [now intros [= <-] | now apply IH].
Qed.

Lemma leaf_wins (path : list str) :
  forall (base override : list (str * value)) (a : str),
    distinct_keys (Dict override) = true ->
    get_path (Dict override) path = Some (Atom a) ->
    get_path (Dict (_deep_merge base override)) path = Some (Atom a).
Proof.
  induction path as [|k path IH]; intros base override a Hwf Hget;
    [discriminate|].
  cbn [get_path] in Hget |- *.
  destruct (distinct_keys_dict override Hwf) as [Hnd Hsub].
  rewrite (lookup_deep_merge k override Hnd).
  destruct (lookup k override) as [v|] eqn:Hv; [|discriminate].
  specialize (Hsub k v Hv).
  destruct v as [text|inner].
  - destruct (lookup k base) as [[?|?]|]; exact Hget.
  - destruct (lookup k base) as [[text|b']|]; try exact Hget.
    rewrite merge_value_dicts. now apply IH.
Qed.

End ConfigFacts.

(** X30: a setting of the override takes effect at any depth: where the
    override, a dict without repeated keys, holds a value that is not a
    dict at a path of keys, the merge holds the same value at that path,
    whatever the base holds. *)
Theorem override_setting_wins (base override : list (str * Config.value))
    (path : list str) (a : str) :
  Config.distinct_keys (Config.Dict override) = true ->
  Config.get_path (Config.Dict override) path = Some (Config.Atom a) ->
  Config.get_path (Config.Dict (Config._deep_merge base override)) path
  = Some (Config.Atom a).
Proof. apply leaf_wins. Qed.

Lemma override_setting_wins_witness :
  Config.get_path
    (Config.Dict (Config._deep_merge default_config file_config))
    [cps "vad"; cps "energy_threshold"]
  = Some (Config.Atom (cps "350")).
Proof.
  apply (override_setting_wins default_config file_config
           [cps "vad"; cps "energy_threshold"] (cps "350")).
  - vm_compute. reflexivity.
  - vm_compute. reflexivity.
Defined.

(** The merge of the example keeps the settings the file does not name,
    in their places, and puts the new key last. *)
Example merge_of_file_over_defaults :
  Config._deep_merge default_config file_config
  = [ (cps "mode", Config.Atom (cps "pipeline"));
      (cps "vad", Config.Dict
         [ (cps "enabled", Config.Atom (cps "true"));
           (cps "energy_threshold", Config.Atom (cps "350")) ]);
      (cps "greeting_text", Config.Atom (cps "hello")) ].
Proof. vm_compute. reflexivity. Qed.
